(** * The cat plugin of lighthouse ([pkg/plugins/cat/cat.go])

    A shallow embedding of the [/meow] command handler: the credential
    cache ([realClowder.setKey]), the request builder ([realClowder.URL]),
    the image retriever ([realClowder.readCat], [catResult.Format]) and the
    retry loop of [handle], followed by the properties proved about them.

    Go strings are byte sequences: they are modelled as [string], whose
    characters are the 256 values of [ascii].  A Go [error] is modelled by
    its message; [nil] is [None]. *)

From Stdlib Require Import Strings.String Strings.Ascii.
From Stdlib Require Import Lists.List Bool.Bool Sorting.Sorted.
From Stdlib Require Import ZArith NArith Lia.
From Stdlib Require Import Numbers.DecimalString.
Import ListNotations.

Local Open Scope list_scope.
Local Open Scope string_scope.

Set Implicit Arguments.

(** ** Errors and results *)

Definition error := string.

Inductive result (A : Type) : Type :=
| Ok (a : A)
| Err (e : error).
Arguments Ok {A} a.
Arguments Err {A} e.

(** ** Bytes and strings *)

Module GoStrings.

Definition byte_le (a b : ascii) : bool := (N_of_ascii a <=? N_of_ascii b)%N.

Definition between (lo hi c : ascii) : bool := byte_le lo c && byte_le c hi.

Definition isLower (c : ascii) : bool := between "a" "z" c.
Definition isUpper (c : ascii) : bool := between "A" "Z" c.
Definition isDigit (c : ascii) : bool := between "0" "9" c.

(** ASCII lower-casing of one byte; bytes outside [A-Z] are kept. *)
Definition toLower (c : ascii) : ascii :=
  if isUpper c then ascii_of_N (N_of_ascii c + 32) else c.

(** [strings.ToLower] on a text whose letters are ASCII. *)
Fixpoint lower (s : string) : string :=
  match s with
  | EmptyString => EmptyString
  | String c t => String (toLower c) (lower t)
  end.

(** [strings.Contains]: [sub] occurs in [s]. *)
Fixpoint Contains (s sub : string) : bool :=
  prefix sub s ||
  match s with
  | EmptyString => false
  | String _ t => Contains t sub
  end.

(** The propositional reading of [Contains]. *)
Definition occurs_in (sub s : string) : Prop :=
  exists a b, s = a ++ sub ++ b.

(** A string is a single line when it holds no line feed. *)
Fixpoint single_line (s : string) : bool :=
  match s with
  | EmptyString => true
  | String c t => negb (Ascii.eqb c "010") && single_line t
  end.

(** [fmt]'s [%d] on an [int]. *)
Definition itoa (n : Z) : string := NilEmpty.string_of_int (Z.to_int n).

End GoStrings.
Import GoStrings.

(** ** [net/url]: query escaping *)

Module URLEscape.

Definition upperhex : string := "0123456789ABCDEF".

Definition hexdigit (n : N) : ascii :=
  match get (N.to_nat n) upperhex with
  | Some d => d
  | None => "0"%char
  end.

(** [shouldEscape(c, encodeQueryComponent)]: only the unreserved bytes of
    RFC 3986 section 2.3 are kept. *)
Definition shouldEscape (c : ascii) : bool :=
  if isLower c || isUpper c || isDigit c then false
  else if Ascii.eqb c "-" || Ascii.eqb c "_" || Ascii.eqb c "." || Ascii.eqb c "~"
       then false
       else true.

(** One byte of [escape(s, encodeQueryComponent)]. *)
Definition escape_byte (c : ascii) : string :=
  if Ascii.eqb c " " then "+"
  else if shouldEscape c then
    String "%" (String (hexdigit (N.shiftr (N_of_ascii c) 4))
               (String (hexdigit (N.land (N_of_ascii c) 15)) EmptyString))
  else String c EmptyString.

Fixpoint QueryEscape (s : string) : string :=
  match s with
  | EmptyString => EmptyString
  | String c t => escape_byte c ++ QueryEscape t
  end.

End URLEscape.

(** ** [strings.TrimSpace]

    [TrimSpace] removes leading and trailing runes for which
    [unicode.IsSpace] holds.  Every such rune has exactly one valid UTF-8
    encoding and a byte sequence that is not valid UTF-8 decodes to
    [RuneError], which is not a space: trimming runes is therefore trimming
    the byte sequences listed in [spaceRunes]. *)

Module GoTrim.

Fixpoint bytes (l : list N) : string :=
  match l with
  | [] => EmptyString
  | n :: t => String (ascii_of_N n) (bytes t)
  end.

(** The UTF-8 encodings of the code points of [unicode.White_Space]:
    U+0009..U+000D, U+0020, U+0085, U+00A0, U+1680, U+2000..U+200A,
    U+2028, U+2029, U+202F, U+205F, U+3000. *)
Definition spaceRunes : list string :=
  (map (fun n => bytes [n]) [9; 10; 11; 12; 13; 32]
   ++ [bytes [194; 133]; bytes [194; 160]; bytes [225; 154; 128]]
   ++ map (fun n => bytes [226; 128; n])
          [128; 129; 130; 131; 132; 133; 134; 135; 136; 137; 138; 168; 169; 175]
   ++ [bytes [226; 129; 159]; bytes [227; 128; 128]])%N%list.

Fixpoint strip_prefix (p s : string) : option string :=
  match p, s with
  | EmptyString, _ => Some s
  | String a p', String b s' => if Ascii.eqb a b then strip_prefix p' s' else None
  | String _ _, EmptyString => None
  end.

Fixpoint strip_any (ps : list string) (s : string) : option string :=
  match ps with
  | [] => None
  | p :: ps' =>
      match strip_prefix p s with
      | Some s' => Some s'
      | None => strip_any ps' s
      end
  end.

(** Drop leading space runes; [fuel] bounds the number of runes. *)
Fixpoint trim_left (runes : list string) (fuel : nat) (s : string) : string :=
  match fuel with
  | O => s
  | S fuel' =>
      match strip_any runes s with
      | Some s' => trim_left runes fuel' s'
      | None => s
      end
  end.

Definition rev_string (s : string) : string :=
  string_of_list_ascii (rev (list_ascii_of_string s)).

Definition TrimLeftSpace (s : string) : string :=
  trim_left spaceRunes (String.length s) s.

Definition TrimRightSpace (s : string) : string :=
  rev_string (trim_left (map rev_string spaceRunes) (String.length s) (rev_string s)).

Definition TrimSpace (s : string) : string := TrimRightSpace (TrimLeftSpace s).

End GoTrim.

(** ** [regexp]: the fragment used by [grumpyKeywords]

    The pattern is matched on bytes.  Its literals are the ASCII letters of
    [no] and [grumpy], none of which folds to a rune outside ASCII, and [\s]
    is the ASCII class [[\t\n\f\r ]]; a byte of a multi-byte rune is at
    least 128 and matches neither. *)

Module Regexp.

Inductive charclass : Type :=
| Fold (c : ascii)   (* a literal under the flag [i] *)
| Space.             (* [\s] *)

Inductive regex : Type :=
| Eps                            (* the empty pattern *)
| BeginLine                      (* [^] under the flag [m] *)
| EndLine                        (* [$] under the flag [m] *)
| Chr (cc : charclass)
| StarChr (cc : charclass)
| Alt (r1 r2 : regex)
| Cat (r1 r2 : regex).

Definition LF : ascii := "010".

Definition isSpace (c : ascii) : bool :=
  Ascii.eqb c "009" || Ascii.eqb c LF || Ascii.eqb c "012"
  || Ascii.eqb c "013" || Ascii.eqb c " ".

Definition class_matches (cc : charclass) (c : ascii) : bool :=
  match cc with
  | Fold l => Ascii.eqb (toLower c) (toLower l)
  | Space => isSpace c
  end.

(** A position in the text: the byte before it, if any, and what follows. *)
Definition at_bol (prev : option ascii) : bool :=
  match prev with
  | None => true
  | Some c => Ascii.eqb c LF
  end.

Definition at_eol (s : string) : bool :=
  match s with
  | EmptyString => true
  | String c _ => Ascii.eqb c LF
  end.

Section Run.
Variable k : option ascii -> string -> bool.

Fixpoint star (cc : charclass) (prev : option ascii) (s : string) : bool :=
  k prev s ||
  match s with
  | EmptyString => false
  | String c t => class_matches cc c && star cc (Some c) t
  end.
End Run.

(** Backtracking matcher in continuation-passing style: [run r prev s k]
    tries every way [r] matches a prefix of [s] and hands the position
    reached to [k]. *)
Fixpoint run (r : regex) (prev : option ascii) (s : string)
         (k : option ascii -> string -> bool) : bool :=
  match r with
  | Eps => k prev s
  | BeginLine => at_bol prev && k prev s
  | EndLine => at_eol s && k prev s
  | Chr cc =>
      match s with
      | EmptyString => false
      | String c t => class_matches cc c && k (Some c) t
      end
  | StarChr cc => star k cc prev s
  | Alt r1 r2 => run r1 prev s k || run r2 prev s k
  | Cat r1 r2 => run r1 prev s (fun p' s' => run r2 p' s' k)
  end.

(** An unanchored search: a match may start at any position. *)
Fixpoint search (r : regex) (prev : option ascii) (s : string) : bool :=
  run r prev s (fun _ _ => true) ||
  match s with
  | EmptyString => false
  | String c t => search r (Some c) t
  end.

Definition MatchString (r : regex) (s : string) : bool := search r None s.

(** A literal word under the flag [i]. *)
Fixpoint word (w : string) : regex :=
  match w with
  | EmptyString => Eps
  | String c t => Cat (Chr (Fold c)) (word t)
  end.

End Regexp.

(** ** A state monad that records the calls it makes

    [M E S A] is a computation over a state [S] that returns an [A] and
    the list of events of type [E] it produced, oldest first. *)

Definition M (E S A : Type) : Type := S -> A * S * list E.

Definition ret {E S A} (a : A) : M E S A := fun s => (a, s, []).

Definition bind {E S A B} (m : M E S A) (f : A -> M E S B) : M E S B :=
  fun s =>
    let '(a, s1, t1) := m s in
    let '(b, s2, t2) := f a s1 in
    (b, s2, (t1 ++ t2)%list).

Definition emit {E S} (e : E) : M E S unit := fun s => (tt, s, [e]).

Declare Scope monad_scope.
Delimit Scope monad_scope with monad.
Notation "x <- m ;; k" := (bind m (fun x => k))
  (at level 61, m at next level, right associativity) : monad_scope.
Notation "m ;;; k" := (bind m (fun _ => k))
  (at level 61, right associativity) : monad_scope.

Definition value_of {A S E} (r : A * S * list E) : A := fst (fst r).
Definition state_of {A S E} (r : A * S * list E) : S := snd (fst r).
Definition trace_of {A S E} (r : A * S * list E) : list E := snd r.

(** ** The world outside the plugin *)

(** [http.Response]: the status code and the bytes of the body. *)
Module http.
Record Response : Type := { StatusCode : Z; Body : string }.
End http.

(** [catResult]: one element of the array the image API answers with. *)
Record catResult : Type := { Image : string }.

(** The calls [realClowder] makes to the outside, with what they returned. *)
Inductive io_event : Type :=
| IoNow (t : Z)
| IoReadFile (path : string) (r : result string)
| IoLogError (msg : string) (err : error)
| IoHTTPGet (uri : string) (r : result http.Response)
| IoImageTooBig (url : string) (r : bool * option error).

(** The behaviour of the libraries and services the plugin calls, over a
    state [W] of the outside world.

    - [time_Now]: [time.Now()], in nanoseconds since the zero [time.Time];
    - [os_ReadFile]: [os.ReadFile];
    - [http_Get]: [http.Get], the response with its body read;
    - [json_Decode]: [json.NewDecoder(body).Decode] into an empty
      [[]catResult];
    - [ImageTooBig]: [scmprovider.ImageTooBig], which is not part of this
      package;
    - [url_rest]: for a URL that is not of the plain form of
      [URLParse.plain], what [url.Parse] does with the text that follows
      the scheme and with the fragment, then what the [String] method,
      which [%s] prints a URL with, writes after the scheme: from whether
      there is a scheme, the text after it up to the first [#] and the
      text after that [#], the printed form or the parse error;
    - [url_rest_line]: [String] writes the opaque part and the query as
      they were read and percent-encodes the control bytes of the user
      information, the host, the path and the fragment, so that it prints
      no line feed that the text before the [#] did not hold;
    - [strconv_Quote]: the [%q] verb of [url.Error]. *)
Class Env (W : Type) : Type := {
  time_Now : W -> Z * W;
  os_ReadFile : string -> W -> result string * W;
  http_Get : string -> W -> result http.Response * W;
  json_Decode : string -> result (list catResult);
  ImageTooBig : string -> W -> (bool * option error) * W;
  url_rest : bool -> string -> string -> result string;
  url_rest_line :
    forall (has_scheme : bool) (rest frag printed : string),
      single_line rest = true ->
      url_rest has_scheme rest frag = Ok printed ->
      single_line printed = true;
  strconv_Quote : string -> string
}.

(** ** [net/url]: [Parse] *)

Module URLParse.

(** [stringContainsCTLByte]: an ASCII control byte occurs in [s]. *)
Fixpoint stringContainsCTLByte (s : string) : bool :=
  match s with
  | EmptyString => false
  | String c t =>
      (N_of_ascii c <? 32)%N || (N_of_ascii c =? 127)%N || stringContainsCTLByte t
  end.

(** [strings.Cut(s, "#")]: the text before the first [#] and the text
    after it. *)
Fixpoint cut_hash (s : string) : string * string :=
  match s with
  | EmptyString => (EmptyString, EmptyString)
  | String c t =>
      if Ascii.eqb c "#" then (EmptyString, t)
      else let (u, frag) := cut_hash t in (String c u, frag)
  end.

(** The loop of [getScheme]; [first] tells the byte at index 0.
    [Some (scheme, rest)]: a colon ends the scheme [scheme] and [rest]
    follows it; [None]: there is no scheme. *)
Fixpoint schemeLoop (first : bool) (s : string) : option (string * string) :=
  match s with
  | EmptyString => None
  | String c t =>
      if isLower c || isUpper c then
        match schemeLoop false t with
        | Some (scheme, rest) => Some (String c scheme, rest)
        | None => None
        end
      else if isDigit c || Ascii.eqb c "+" || Ascii.eqb c "-" || Ascii.eqb c "." then
        if first then None
        else match schemeLoop false t with
             | Some (scheme, rest) => Some (String c scheme, rest)
             | None => None
             end
      else if Ascii.eqb c ":" then
        if first then None else Some (EmptyString, t)
      else None
  end.

(** [getScheme(rawURL)]: the scheme, empty when there is none, and what
    follows it. *)
Definition getScheme (rawURL : string) : result (string * string) :=
  match rawURL with
  | EmptyString => Ok (EmptyString, rawURL)
  | String c _ =>
      if Ascii.eqb c ":" then Err "missing protocol scheme"
      else match schemeLoop true rawURL with
           | Some found => Ok found
           | None => Ok (EmptyString, rawURL)
           end
  end.

(** The bytes that [shouldEscape] keeps in every part of a URL: letters,
    digits and [-], [_], [.], [~]. *)
Definition unreserved (c : ascii) : bool :=
  isLower c || isUpper c || isDigit c
  || Ascii.eqb c "-" || Ascii.eqb c "_" || Ascii.eqb c "." || Ascii.eqb c "~".

(** A path of unreserved bytes and [/]. *)
Fixpoint plainPath (s : string) : bool :=
  match s with
  | EmptyString => true
  | String c t => (unreserved c || Ascii.eqb c "/") && plainPath t
  end.

(** A host of unreserved bytes, at least one when [first], then the end
    of the text or a path that starts with [/]. *)
Fixpoint plainHost (first : bool) (s : string) : bool :=
  match s with
  | EmptyString => negb first
  | String c t =>
      if Ascii.eqb c "/" then negb first && plainPath t
      else unreserved c && plainHost false t
  end.

(** What follows the scheme is [//host] or [//host/path], with no user
    information, port, query or escape: [parseAuthority] and [setPath]
    find nothing to decode in it, and [String] nothing to encode. *)
Definition plain (rest : string) : bool :=
  match rest with
  | String c1 (String c2 t) => Ascii.eqb c1 "/" && Ascii.eqb c2 "/" && plainHost true t
  | _ => false
  end.

(** The text of [&url.Error{"parse", u, err}]. *)
Definition parseError {W} `{Env W} (u : string) (err : error) : error :=
  "parse " ++ strconv_Quote u ++ ": " ++ err.

(** [url.Parse(rawURL)] followed by [String()]: the fragment is cut off,
    control bytes are refused, the scheme is split off and put in lower
    case, and it is printed first, with its colon.  After a scheme, and
    without a fragment, a text of the plain form is printed as it was
    read. *)
Definition Parse {W} `{Env W} (rawURL : string) : result string :=
  let (u, frag) := cut_hash rawURL in
  if stringContainsCTLByte u
  then Err (parseError u "net/url: invalid control character in URL")
  else
    match getScheme u with
    | Err err => Err (parseError u err)
    | Ok (scheme, rest) =>
        if negb (scheme =? "") && (frag =? "") && plain rest
        then Ok (lower scheme ++ ":" ++ rest)
        else
          match url_rest (negb (scheme =? "")) rest frag with
          | Err err => Err err
          | Ok printed =>
              Ok ((if scheme =? "" then "" else lower scheme ++ ":") ++ printed)
          end
    end.

End URLParse.

(** ** The plugin *)

Import Regexp.

(** [(?mi)^(no|grumpy)\s*$] *)
Definition grumpyKeywords : regex :=
  Cat BeginLine
      (Cat (Alt (word "no") (word "grumpy"))
           (Cat (StarChr Space) EndLine)).

Definition grumpyURL : string :=
  "https://upload.wikimedia.org/wikipedia/commons/e/ee/Grumpy_Cat_by_Gage_Skidmore.jpg".

(** [realClowder]; the lock is left out, the model being sequential.
    [update] counts nanoseconds since the zero [time.Time]. *)
Record realClowder : Type := {
  url : string;
  update : Z;
  key : string;
  keyPath : string
}.

Definition with_update (c : realClowder) (t : Z) : realClowder :=
  {| url := url c; update := t; key := key c; keyPath := keyPath c |}.

Definition with_key (c : realClowder) (k : string) : realClowder :=
  {| url := url c; update := update c; key := k; keyPath := keyPath c |}.

(** The package-level instance [meow]. *)
Definition meow : realClowder :=
  {| url := "https://api.thecatapi.com/v1/images/search?format=json&results_per_page=1";
     update := 0;
     key := "";
     keyPath := "" |}.

(** [time.Minute], in nanoseconds. *)
Definition Minute : Z := 60 * 1000000000.

(** [t.After(u)] *)
Definition After (t u : Z) : bool := (u <? t)%Z.

Module RealClowder.
Section WithEnv.

Context {W : Type} `{Env W}.

Local Open Scope monad_scope.

Definition IO (A : Type) : Type := M io_event W A.

Definition Now : IO Z :=
  fun w => let (t, w') := time_Now w in (t, w', [IoNow t]).

Definition ReadFile (path : string) : IO (result string) :=
  fun w => let (r, w') := os_ReadFile path w in (r, w', [IoReadFile path r]).

Definition Get (uri : string) : IO (result http.Response) :=
  fun w => let (r, w') := http_Get uri w in (r, w', [IoHTTPGet uri r]).

Definition TooBig (u : string) : IO (bool * option error) :=
  fun w => let (r, w') := ImageTooBig u w in (r, w', [IoImageTooBig u r]).

Definition LogError (msg : string) (err : error) : IO unit :=
  emit (IoLogError msg err).

(** [func (c *realClowder) setKey(keyPath string, log *logrus.Entry)];
  the receiver is returned as updated. *)
Definition setKey (c : realClowder) (keyPath : string) : IO realClowder :=
  now <- Now ;;
  if negb (After now (update c)) then ret c
  else
    now' <- Now ;;
    let c := with_update c (now' + Minute) in
    if keyPath =? "" then ret (with_key c "")
    else
      r <- ReadFile keyPath ;;
      match r with
      | Ok b => ret (with_key c (GoTrim.TrimSpace b))
      | Err err =>
          LogError ("failed to read key at " ++ keyPath) err ;;;
          ret (with_key c "")
      end.

(** [func (cr catResult) Format() (string, error)] *)
Definition Format (cr : catResult) : string * option error :=
  if Image cr =? "" then ("", Some "empty image url")
  else
    match URLParse.Parse (Image cr) with
    | Err err => ("", Some ("invalid image url " ++ Image cr ++ ": " ++ err))
    | Ok img => ("![cat image](" ++ img ++ ")", None)
    end.

(** [func (c *realClowder) URL(category string, movieCat bool) string] *)
Definition URL (c : realClowder) (category : string) (movieCat : bool) : string :=
  let uri := url c in
  let uri := if negb (category =? "")
             then uri ++ "&category=" ++ URLEscape.QueryEscape category else uri in
  let uri := if negb (key c =? "")
             then uri ++ "&api_key=" ++ URLEscape.QueryEscape (key c) else uri in
  let uri := if movieCat then uri ++ "&mime_types=gif" else uri in
  uri.

(** Lines 169 to 180 of [readCat]: what is done with [a := cats[0]]. *)
Definition checkCat (uri : string) (a : catResult) : IO (string * option error) :=
  if Image a =? "" then ret ("", Some ("no image url in response from " ++ uri))
  else
    r <- TooBig (Image a) ;;
    match r with
    | (_, Some err) =>
        ret ("", Some ("could not validate image size " ++ Image a ++ ": " ++ err))
    | (true, None) => ret ("", Some ("longcat is too long: " ++ Image a))
    | (false, None) => ret (Format a)
    end.

(** [func (c *realClowder) readCat(category string, movieCat bool) (string, error)].
  Both branches of the test on [grumpyKeywords] leave a non-empty
  [cats], whose first element goes to [checkCat]. *)
Definition readCat (c : realClowder) (category : string) (movieCat : bool)
  : IO (string * option error) :=
  let uri := URL c category movieCat in
  if MatchString grumpyKeywords category
  then checkCat uri {| Image := grumpyURL |}
  else
    resp <- Get uri ;;
    match resp with
    | Err err => ret ("", Some ("could not read cat from " ++ uri ++ ": " ++ err))
    | Ok resp =>
        let sc := http.StatusCode resp in
        if ((299 <? sc) || (sc <? 200))%Z
        then ret ("", Some ("failing " ++ itoa sc ++ " response from " ++ uri))
        else
          match json_Decode (http.Body resp) with
          | Err err => ret ("", Some err)
          | Ok cats =>
              match cats with
              | [] => ret ("", Some ("no cats in response from " ++ uri))
              | a :: _ => checkCat uri a
              end
          end
    end.

End WithEnv.
End RealClowder.

(** ** The command handler *)

(** The fields of [scmprovider.GenericCommentEvent] that [handle] reads:
    [Repo.Namespace], [Repo.Name], [Number], [IsPR], [Body], [Link] and
    [Author.Login]. *)
Record GenericCommentEvent : Type := {
  Namespace : string;
  Name : string;
  Number : Z;
  IsPR : bool;
  Body : string;
  Link : string;
  Login : string
}.

(** [type clowder interface]; a call may change the state [St] it runs in. *)
Class clowder (St : Type) : Type := {
  readCat : string -> bool -> St -> (string * option error) * St
}.

(** [type scmProviderClient interface] *)
Class scmProviderClient (St : Type) : Type := {
  CreateComment : string -> string -> Z -> bool -> string -> St -> option error * St;
  QuoteAuthorForComment : string -> St -> string * St
}.

(** The calls [handle] makes, with what they returned. *)
Inductive call : Type :=
| CallSetKey
| CallReadCat (category : string) (movieCat : bool) (r : string * option error)
| CallLogError (msg : string) (err : error)
| CallQuoteAuthor (login quoted : string)
| CallCreateComment (owner repo : string) (number : Z) (pr : bool)
                    (comment : string) (r : option error).

Definition badCategory : string :=
  "Bad category. Please see https://api.thecatapi.com/api/categories/list".

Definition catAPIDown : string := "https://thecatapi.com appears to be down".

Definition noValidCat : error := "could not find a valid cat image".

Section Handle.

Context {St : Type} {C : clowder St} {P : scmProviderClient St}.

(** [plugins.FormatResponseRaw(body, bodyURL, login, reply)], which is not
    part of this package. *)
Variable FormatResponseRaw : string -> string -> string -> string -> string.

Local Open Scope monad_scope.

Definition doSetKey (setKey : St -> St) : M call St unit :=
  fun s => (tt, setKey s, [CallSetKey]).

Definition doReadCat (category : string) (movieCat : bool)
  : M call St (string * option error) :=
  fun s => let (r, s') := readCat category movieCat s in
           (r, s', [CallReadCat category movieCat r]).

Definition doQuoteAuthor (login : string) : M call St string :=
  fun s => let (q, s') := QuoteAuthorForComment login s in
           (q, s', [CallQuoteAuthor login q]).

Definition doCreateComment (owner repo : string) (number : Z) (pr : bool)
           (comment : string) : M call St (option error) :=
  fun s => let (r, s') := CreateComment owner repo number pr comment s in
           (r, s', [CallCreateComment owner repo number pr comment r]).

(** [spc.CreateComment(org, repo, number, e.IsPR,
      plugins.FormatResponseRaw(e.Body, e.Link,
        spc.QuoteAuthorForComment(e.Author.Login), reply))] *)
Definition respond (e : GenericCommentEvent) (reply : string)
  : M call St (option error) :=
  quoted <- doQuoteAuthor (Login e) ;;
  doCreateComment (Namespace e) (Name e) (Number e) (IsPR e)
                  (FormatResponseRaw (Body e) (Link e) quoted reply).

(** The loop [for i := 0; i < 3; i++] with [n = 3 - i] iterations left.
    [Some r]: the loop body returned [r]; [None]: the loop ran out. *)
Fixpoint attempts (n : nat) (movieCat : bool) (category : string)
         (e : GenericCommentEvent) : M call St (option (option error)) :=
  match n with
  | O => ret None
  | S n' =>
      r <- doReadCat category movieCat ;;
      match r with
      | (_, Some err) =>
          emit (CallLogError "Failed to get cat img" err) ;;;
          attempts n' movieCat category e
      | (resp, None) =>
          x <- respond e resp ;;
          ret (Some x)
      end
  end.

(** [func handle(movieCat bool, category string, spc scmProviderClient,
      log *logrus.Entry, e *scmprovider.GenericCommentEvent, c clowder,
      setKey func()) error] *)
Definition handle (movieCat : bool) (category : string)
           (e : GenericCommentEvent) (setKey : St -> St) : M call St (option error) :=
  doSetKey setKey ;;;
  r <- attempts 3 movieCat category e ;;
  match r with
  | Some x => ret x
  | None =>
      let msg := if negb (category =? "") then badCategory else catAPIDown in
      x <- respond e msg ;;
      match x with
      | Some err => emit (CallLogError "Failed to leave comment" err)
      | None => ret tt
      end ;;;
      ret (Some noValidCat)
  end.

End Handle.

(** ** The handler over the real retriever *)

(** The state [handleGenericComment] runs in: the shared [meow], the world
    outside and the calls [meow] has made to it. *)
Record Sys (W : Type) : Type := {
  cat : realClowder;
  world : W;
  io : list io_event
}.
Arguments cat {W} s.
Arguments world {W} s.
Arguments io {W} s.

Section Real.

Context {W : Type} `{Env W}.

(** [meow] as a [clowder]. *)
#[export] Instance realClowder_clowder : clowder (Sys W) := {
  readCat category movieCat s :=
    let '(r, w, t) := RealClowder.readCat (cat s) category movieCat (world s) in
    (r, {| cat := cat s; world := w; io := (io s ++ t)%list |})
}.

(** [func() { meow.setKey(pc.PluginConfig.Cat.KeyPath, pc.Logger) }] *)
Definition meowSetKey (keyPath : string) (s : Sys W) : Sys W :=
  let '(c, w, t) := RealClowder.setKey (cat s) keyPath (world s) in
  {| cat := c; world := w; io := (io s ++ t)%list |}.

(** [handleGenericComment]: [name] and [arg] are [match.Name] and
    [match.Arg], [keyPath] is [pc.PluginConfig.Cat.KeyPath]. *)
Definition handleGenericComment {P : scmProviderClient (Sys W)}
           (FormatResponseRaw : string -> string -> string -> string -> string)
           (name arg keyPath : string) (e : GenericCommentEvent)
  : M call (Sys W) (option error) :=
  handle FormatResponseRaw (name =? "meowvie") arg e (meowSetKey keyPath).

End Real.

(** * Notions used to state the properties *)

(** ** Lines and keywords *)

Module Grumpy.

Fixpoint all_space (s : string) : bool :=
  match s with
  | EmptyString => true
  | String c t => isSpace c && all_space t
  end.

(** [strings.Split(s, "\n")] *)
Fixpoint lines (s : string) : list string :=
  match s with
  | EmptyString => [EmptyString]
  | String c t =>
      if Ascii.eqb c LF then EmptyString :: lines t
      else match lines t with
           | [] => [String c EmptyString]
           | l :: ls => String c l :: ls
           end
  end.

(** A line that reads [no] or [grumpy], in any case, followed by
    whitespace only. *)
Definition keyword_line (l : string) : Prop :=
  exists kw ws, l = kw ++ ws
                /\ (lower kw = "no" \/ lower kw = "grumpy")
                /\ all_space ws = true.

(** The last byte before the position reached after reading [s]. *)
Fixpoint last_byte (prev : option ascii) (s : string) : option ascii :=
  match s with
  | EmptyString => prev
  | String c t => last_byte (Some c) t
  end.

(** No line feed occurs in [s]. *)
Fixpoint no_LF (s : string) : bool :=
  match s with
  | EmptyString => true
  | String c t => negb (Ascii.eqb c LF) && no_LF t
  end.

(** What follows [pre] starts a line: [pre] is empty or ends with a line
    feed. *)
Definition line_start (pre : string) : bool :=
  match last_byte None pre with
  | None => true
  | Some c => Ascii.eqb c LF
  end.

(** [no] or [grumpy] in any case. *)
Definition keyword (kw : string) : Prop :=
  lower kw = "no" \/ lower kw = "grumpy".

End Grumpy.

(** ** Request URLs *)

Module URLSpec.

(** The bytes [QueryEscape] lets through or produces. *)
Definition query_safe (c : ascii) : bool :=
  isLower c || isUpper c || isDigit c
  || Ascii.eqb c "-" || Ascii.eqb c "_" || Ascii.eqb c "." || Ascii.eqb c "~"
  || Ascii.eqb c "+" || Ascii.eqb c "%".

Fixpoint all_bytes (p : ascii -> bool) (s : string) : bool :=
  match s with
  | EmptyString => true
  | String c t => p c && all_bytes p t
  end.

End URLSpec.

(** An optional part of a request URL: [text] when [present], nothing
    otherwise. *)
Definition param (present : bool) (text : string) : string :=
  if present then text else "".

(** ** Credential refreshes *)

Module Refresh.

Definition is_read (e : io_event) : bool :=
  match e with
  | IoReadFile _ _ => true
  | _ => false
  end.

(** The number of file reads in a trace. *)
Definition fileReads (t : list io_event) : nat := List.length (filter is_read t).

(** The clock readings of a trace, oldest first. *)
Definition clockReadings (t : list io_event) : list Z :=
  flat_map (fun e => match e with IoNow n => [n] | _ => [] end) t.

(** The first clock reading of an invocation: the time it is made at. *)
Definition started (t : list io_event) : Z := hd 0%Z (clockReadings t).

(** The clock never runs backwards ([time.Now] carries a monotonic
    reading, which [After] compares). *)
Definition monotonic (l : list Z) : Prop := StronglySorted Z.le l.

(** One invocation of [setKey]: the cache it finds, the key path it is
    given and the trace it leaves. *)
Record invocation : Type := {
  before : realClowder;
  path : string;
  events : list io_event
}.

(** Successive invocations of [setKey], one for each key path of [paths]. *)
Fixpoint setKeys {W} `{Env W} (paths : list string) (c : realClowder) (w : W)
  : list invocation * realClowder * W :=
  match paths with
  | [] => ([], c, w)
  | p :: ps =>
      let '(c1, w1, t) := RealClowder.setKey c p w in
      let '(rest, c2, w2) := setKeys ps c1 w1 in
      ({| before := c; path := p; events := t |} :: rest, c2, w2)
  end.

(** Every clock reading of a run, oldest first. *)
Definition readings (run : list invocation) : list Z :=
  clockReadings (flat_map events run).

(** The end of the window that the invocations [pre] leave open, read off
    their clock readings alone: one minute after the second reading of the
    last invocation that read the clock twice, and [d] when there is
    none. *)
Fixpoint window_end (d : Z) (pre : list invocation) : Z :=
  match pre with
  | [] => d
  | a :: rest =>
      window_end (match clockReadings (events a) with
                  | _ :: t2 :: _ => (t2 + 60 * 1000000000)%Z
                  | _ => d
                  end) rest
  end.

End Refresh.

(** ** Trimmed strings *)

Module TrimSpec.

(** A run of space runes: the concatenation of members of [runes]. *)
Inductive run_of (runes : list string) : string -> Prop :=
| run_nil : run_of runes EmptyString
| run_cons (r s : string) : In r runes -> run_of runes s -> run_of runes (r ++ s).

(** [s] starts with none of [runes]. *)
Definition starts_with_none (runes : list string) (s : string) : Prop :=
  forall r rest, In r runes -> s <> r ++ rest.

(** [s] ends with none of [runes]. *)
Definition ends_with_none (runes : list string) (s : string) : Prop :=
  forall r front, In r runes -> s <> front ++ r.

End TrimSpec.

(** ** Traces of the retriever *)

Module Retrieval.

Definition is_get (e : io_event) : bool :=
  match e with
  | IoHTTPGet _ _ => true
  | _ => false
  end.

(** The number of HTTP GET requests in a trace. *)
Definition httpGets (t : list io_event) : nat := List.length (filter is_get t).

(** The size check has said of [u] that it is too big, without error. *)
Definition tooBig (u : string) (t : list io_event) : Prop :=
  In (IoImageTooBig u (true, None)) t.

(** The text of an image embed. *)
Definition embed (u : string) : string := "![cat image](" ++ u ++ ")".

(** [no] or [grumpy] in any case, followed by whitespace only. *)
Definition keyword_text (category : string) : Prop :=
  exists kw ws, category = kw ++ ws
                /\ (lower kw = "no" \/ lower kw = "grumpy")
                /\ Grumpy.all_space ws = true.

End Retrieval.

(** ** Runs of the handler *)

Module Attempts.

(** A retrieval that returned an error. *)
Definition failed (r : string * option error) : bool :=
  match snd r with
  | Some _ => true
  | None => false
  end.

(** What [n] successive calls of a retriever return, starting in the state
    [s], and the state they leave. *)
Fixpoint calls {St : Type} {C : clowder St} (n : nat) (category : string)
         (movieCat : bool) (s : St) : list (string * option error) * St :=
  match n with
  | O => ([], s)
  | S n' =>
      let (r, s1) := readCat category movieCat s in
      let (rs, s2) := calls n' category movieCat s1 in
      (r :: rs, s2)
  end.

(** The results of the retriever calls of a trace, oldest first. *)
Definition retrievals (t : list call) : list (string * option error) :=
  flat_map (fun c => match c with CallReadCat _ _ r => [r] | _ => [] end) t.

(** The comments created in a trace, with what creating them returned. *)
Definition comments (t : list call) : list (string * option error) :=
  flat_map (fun c => match c with
                     | CallCreateComment _ _ _ _ body r => [(body, r)]
                     | _ => []
                     end) t.

(** The trace of the loop over the retrievals [rs]: each call, and the
    log entry of its error. *)
Definition loop_trace (category : string) (movieCat : bool)
           (rs : list (string * option error)) : list call :=
  flat_map (fun r => CallReadCat category movieCat r ::
                     match snd r with
                     | Some err => [CallLogError "Failed to get cat img" err]
                     | None => []
                     end) rs.

(** The fallback message of [handle]. *)
Definition fallback (category : string) : string :=
  if category =? "" then catAPIDown else badCategory.

End Attempts.

(** ** The calls of one retrieval *)

Module Footprint.

Definition is_check (e : io_event) : bool :=
  match e with
  | IoImageTooBig _ _ => true
  | _ => false
  end.

(** The number of size checks in a trace. *)
Definition sizeChecks (t : list io_event) : nat := List.length (filter is_check t).

(** Where the image [u] that [readCat] works on comes from: the fixed
    grumpy URL on a category that matches, the first element of the array
    of a 2xx answer otherwise. *)
Definition origin {W} `{Env W} (c : realClowder) (category : string)
           (movieCat : bool) (w : W) (u : string) : Prop :=
  (MatchString grumpyKeywords category = true /\ u = grumpyURL)
  \/ (MatchString grumpyKeywords category = false
      /\ exists resp w1 a rest,
          http_Get (RealClowder.URL c category movieCat) w = (Ok resp, w1)
          /\ (200 <= http.StatusCode resp <= 299)%Z
          /\ json_Decode (http.Body resp) = Ok (a :: rest)
          /\ Image a = u).

End Footprint.

(** ** Escaped texts *)

Module Escaped.

(** The value of a hexadecimal digit. *)
Definition unhex (c : ascii) : option N :=
  if isDigit c then Some (N_of_ascii c - 48)%N
  else if between "A" "F" c then Some (N_of_ascii c - 55)%N
  else if between "a" "f" c then Some (N_of_ascii c - 87)%N
  else None.

(** The byte that the head of an escaped text stands for, and what
    follows it: [+] is a space, [%XY] the byte of value [XY], any other
    byte itself. *)
Definition unescape_head (s : string) : option (ascii * string) :=
  match s with
  | EmptyString => None
  | String c t =>
      if Ascii.eqb c "+" then Some (" "%char, t)
      else if Ascii.eqb c "%" then
        match t with
        | String h (String l t') =>
            match unhex h, unhex l with
            | Some a, Some b => Some (ascii_of_N (16 * a + b), t')
            | _, _ => None
            end
        | _ => None
        end
      else Some (c, t)
  end.

(** The text an escaped text stands for, read from left to right; there
    is none when a [%] is not followed by two hexadecimal digits. *)
Fixpoint unescape (s : string) : option string :=
  match s with
  | EmptyString => Some EmptyString
  | String c t =>
      if Ascii.eqb c "+" then option_map (String " ") (unescape t)
      else if Ascii.eqb c "%" then
        match t with
        | String h (String l t') =>
            match unhex h, unhex l with
            | Some a, Some b =>
                option_map (String (ascii_of_N (16 * a + b))) (unescape t')
            | _, _ => None
            end
        | _ => None
        end
      else option_map (String c) (unescape t)
  end.

(** The bytes that need no escape: letters, digits and [-], [_], [.],
    [~]. *)
Definition unreserved (c : ascii) : bool :=
  isLower c || isUpper c || isDigit c
  || Ascii.eqb c "-" || Ascii.eqb c "_" || Ascii.eqb c "." || Ascii.eqb c "~".

(** [e] is an escaped form of [s]: it stands for [s], it is made of
    letters, digits and [-], [_], [.], [~], [+], [%] only, and it is [s]
    itself when [s] needs no escape. *)
Definition escapes (e s : string) : Prop :=
  unescape e = Some s
  /\ URLSpec.all_bytes URLSpec.query_safe e = true
  /\ (URLSpec.all_bytes unreserved s = true -> e = s).

(** The number of bytes of [s] that satisfy [p]. *)
Fixpoint count (p : ascii -> bool) (s : string) : nat :=
  match s with
  | EmptyString => 0
  | String c t => (if p c then 1 else 0) + count p t
  end.

Definition is_amp (c : ascii) : bool := Ascii.eqb c "&".
Definition is_equals (c : ascii) : bool := Ascii.eqb c "=".

(** The bytes [URL] appends to the base endpoint: those of an escaped
    value, and the [&] and [=] of the parameters. *)
Definition url_byte (c : ascii) : bool :=
  URLSpec.query_safe c || is_amp c || is_equals c.

(** The number of parameters [URL] appends. *)
Definition parameters (c : realClowder) (category : string) (movieCat : bool) : nat :=
  Nat.b2n (negb (category =? "")) + Nat.b2n (negb (key c =? "")) + Nat.b2n movieCat.

(** The text is empty or starts a new parameter. *)
Definition next_parameter (t : string) : Prop :=
  t = "" \/ exists t', t = String "&" t'.

End Escaped.

(** ** Image URLs *)

Module PlainURL.

(** A URL written [scheme://host] or [scheme://host/path]: the scheme is
    made of lower-case letters, the host of letters, digits and [-], [_],
    [.], [~], the path of these bytes and [/]. *)
Definition canonical (u : string) : Prop :=
  exists scheme host path,
    u = scheme ++ "://" ++ host ++ path
    /\ scheme <> "" /\ URLSpec.all_bytes isLower scheme = true
    /\ host <> "" /\ URLSpec.all_bytes Escaped.unreserved host = true
    /\ (path = ""
        \/ exists p, path = String "/" p
                     /\ URLSpec.all_bytes
                          (fun c => Escaped.unreserved c || Ascii.eqb c "/") p = true).

(** The bytes of such a URL. *)
Definition url_char (c : ascii) : bool :=
  Escaped.unreserved c || Ascii.eqb c "/" || Ascii.eqb c ":".

End PlainURL.

(** ** Sets of runes *)

Module Runes.

(** No member of [runes] starts another one. *)
Definition prefix_free (runes : list string) : bool :=
  forallb (fun p => forallb (fun q => String.eqb p q || negb (prefix p q)) runes) runes.

End Runes.

(** ** What a run of the handler shows *)

Module HandleTrace.

(** The errors logged under the message [msg], oldest first. *)
Definition logged (msg : string) (t : list call) : list error :=
  flat_map (fun c => match c with
                     | CallLogError m err => if m =? msg then [err] else []
                     | _ => []
                     end) t.

(** The errors of the retrievals that failed, oldest first. *)
Definition errors (rs : list (string * option error)) : list error :=
  flat_map (fun r => match snd r with
                     | Some err => [err]
                     | None => []
                     end) rs.

Definition is_setKey (c : call) : bool :=
  match c with
  | CallSetKey => true
  | _ => false
  end.

(** The number of calls of the refresh callback. *)
Definition setKeyCalls (t : list call) : nat := List.length (filter is_setKey t).

(** A created comment goes to the issue or pull request of the event [e],
    and a quoted author is the author of [e]. *)
Definition addressed (e : GenericCommentEvent) (c : call) : bool :=
  match c with
  | CallCreateComment owner repo number pr _ _ =>
      (owner =? Namespace e) && (repo =? Name e) && (number =? Number e)%Z
      && Bool.eqb pr (IsPR e)
  | CallQuoteAuthor login _ => login =? Login e
  | _ => true
  end.

(** The calls that make a comment: quoting an author and creating the
    comment. *)
Definition is_post (c : call) : bool :=
  match c with
  | CallQuoteAuthor _ _ | CallCreateComment _ _ _ _ _ _ => true
  | _ => false
  end.

Definition posts (t : list call) : list call := filter is_post t.

(** A retriever call asks for [category] with the flag [movieCat]. *)
Definition asks (category : string) (movieCat : bool) (c : call) : bool :=
  match c with
  | CallReadCat cat m _ => (cat =? category) && Bool.eqb m movieCat
  | _ => true
  end.

(** A code host client that leaves the retriever and the record of its
    calls alone. *)
Definition detached {W : Type} (P : scmProviderClient (Sys W)) : Prop :=
  (forall owner repo number pr comment s,
      cat (snd (CreateComment owner repo number pr comment s)) = cat s
      /\ io (snd (CreateComment owner repo number pr comment s)) = io s)
  /\ (forall login s,
         cat (snd (QuoteAuthorForComment login s)) = cat s
         /\ io (snd (QuoteAuthorForComment login s)) = io s).

(** How a run ends after a retrieval that succeeded with [resp]. *)
Definition tail_of_success (F : string -> string -> string -> string -> string)
           (movieCat : bool) (category : string) (e : GenericCommentEvent)
           (resp quoted : string) (perr : option error) : list call :=
  [CallReadCat category movieCat (resp, None);
   CallQuoteAuthor (Login e) quoted;
   CallCreateComment (Namespace e) (Name e) (Number e) (IsPR e)
                     (F (Body e) (Link e) quoted resp) perr].

(** How a run ends after the last retrieval has failed. *)
Definition tail_of_fallback (F : string -> string -> string -> string -> string)
           (category : string) (e : GenericCommentEvent)
           (quoted : string) (perr : option error) : list call :=
  ([CallQuoteAuthor (Login e) quoted;
    CallCreateComment (Namespace e) (Name e) (Number e) (IsPR e)
                      (F (Body e) (Link e) quoted (Attempts.fallback category)) perr]
   ++ match perr with
      | Some err => [CallLogError "Failed to leave comment" err]
      | None => []
      end)%list.

End HandleTrace.

(** * Test doubles

    A scripted outside world and scripted collaborators of [handle], on
    which the properties are exercised. *)

Module Fake.

Fixpoint lookup {A : Type} (k : string) (l : list (string * A)) : option A :=
  match l with
  | [] => None
  | (k', v) :: t => if k =? k' then Some v else lookup k t
  end.

(** [clock]: the next readings of the clock; [files]: the files that
    exist; [answers]: the next answers to [http.Get]; [sizes]: what the
    size check says of an image, [(false, nil)] when it is not listed. *)
Record script : Type := {
  clock : list Z;
  files : list (string * string);
  answers : list (result http.Response);
  sizes : list (string * (bool * option error))
}.

Definition tick (w : script) : Z * script :=
  match clock w with
  | [] => (0%Z, w)
  | t :: ts =>
      (t, {| clock := ts; files := files w; answers := answers w; sizes := sizes w |})
  end.

Definition answer (w : script) : result http.Response * script :=
  match answers w with
  | [] => (Err "connection refused", w)
  | a :: rest =>
      (a, {| clock := clock w; files := files w; answers := rest; sizes := sizes w |})
  end.

(** What follows the scheme is printed as it was given; a URL with a
    fragment is not understood. *)
Definition verbatim (has_scheme : bool) (rest frag : string) : result string :=
  if frag =? "" then Ok rest else Err "fragment not supported".

(** [json]: the bodies the decoder understands, with what they decode
    to. *)
Definition env (json : list (string * list catResult)) : Env script := {|
  time_Now := tick;
  os_ReadFile p w :=
    (match lookup p (files w) with
     | Some b => Ok b
     | None => Err ("open " ++ p ++ ": no such file or directory")
     end, w);
  http_Get _ w := answer w;
  json_Decode body :=
    match lookup body json with
    | Some cats => Ok cats
    | None => Err "invalid character looking for beginning of value"
    end;
  ImageTooBig u w :=
    (match lookup u (sizes w) with
     | Some r => r
     | None => (false, None)
     end, w);
  url_rest := verbatim;
  url_rest_line has_scheme rest frag printed :=
    match frag =? "" as b
    return (single_line rest = true ->
            (if b then Ok rest else Err "fragment not supported") = Ok printed ->
            single_line printed = true)
    with
    | true => fun L E => eq_ind rest (fun p => single_line p = true) L printed
                                (f_equal (fun r => match r with Ok p => p | Err _ => rest end) E)
    | false => fun _ E => match E in (_ = r) return (match r with Ok _ => _ | Err _ => True end)
                          with eq_refl => I end
    end;
  strconv_Quote s := String (ascii_of_N 34) s ++ String (ascii_of_N 34) EmptyString
|}.

(** A world where nothing is scripted: the network is down and no file
    exists. *)
Definition offline (readings : list Z) : script :=
  {| clock := readings; files := []; answers := []; sizes := [] |}.

(** The state of the scripted collaborators of [handle]: the retriever
    fails [failing] more times before it succeeds; [posted] are the
    comments created so far; [posting] is what creating a comment
    returns. *)
Record stage : Type := {
  failing : nat;
  posted : list string;
  posting : option error
}.

#[local] Instance flaky : clowder stage := {
  readCat _ _ s :=
    match failing s with
    | O => (("![cat image](https://cats.example/1.jpg)", None), s)
    | S n =>
        (("", Some "no cats in response"),
         {| failing := n; posted := posted s; posting := posting s |})
    end
}.

#[local] Instance github : scmProviderClient stage := {
  CreateComment _ _ _ _ comment s :=
    (posting s,
     {| failing := failing s; posted := (posted s ++ [comment])%list;
        posting := posting s |});
  QuoteAuthorForComment login s := ("@" ++ login, s)
}.

Definition quoteReply (body link login reply : string) : string :=
  login ++ ": " ++ reply ++ " (in response to " ++ link ++ ": " ++ body ++ ")".

Definition comment : GenericCommentEvent :=
  {| Namespace := "jenkins-x"; Name := "lighthouse"; Number := 5; IsPR := true;
     Body := "/meow"; Link := "https://github.example/5#c1"; Login := "alice" |}.

(** The libraries as the tests need them: no body decodes and a URL
    prints as it was given, but for the case of its scheme. *)
Definition plain : Env script := env [].

Definition keyFile : string := "/etc/cat/api-key".

(** A world with a key file, padded with blanks and ended by a line feed. *)
Definition keyed (readings : list Z) : script :=
  {| clock := readings;
     files := [(keyFile, "  s3cr3t " ++ String Regexp.LF EmptyString)];
     answers := []; sizes := [] |}.

(** Three invocations: at 5 s, half a second later, and 62 s after the
    first one (in nanoseconds). *)
Definition burst : list Z :=
  [5000000000; 5000000001; 5500000000; 67000000000; 67000000002]%Z.

(** A double quote. *)
Definition q : string := String (ascii_of_N 34) EmptyString.

(** The JSON array of one image with the URL [u]. *)
Definition jsonCats (u : string) : string :=
  "[{" ++ q ++ "url" ++ q ++ ":" ++ q ++ u ++ q ++ "}]".

(** The libraries with a decoder that knows [jsonCats u]. *)
Definition decoding (u : string) : Env script :=
  env [(jsonCats u, [{| Image := u |}])].

(** A world where the API answers once, with [jsonCats u], and the size
    check says [size] of [u]. *)
Definition online (u : string) (size : bool * option error) : script :=
  {| clock := []; files := [];
     answers := [Ok {| http.StatusCode := 200; http.Body := jsonCats u |}];
     sizes := [(u, size)] |}.

Definition catURL : string := "https://cdn2.thecatapi.com/images/abc.jpg".

(** The same image, with its scheme in upper case. *)
Definition shoutedURL : string := "HTTPS://cdn2.thecatapi.com/images/abc.jpg".

(** The same image, with an empty fragment. *)
Definition anchoredURL : string := "https://cdn2.thecatapi.com/images/abc.jpg#".

(** An image URL with a line feed in its path. *)
Definition brokenURL : string :=
  "https://cdn2.thecatapi.com/images/a" ++ String Regexp.LF "bc.jpg".

(** A world without network where even the size check cannot connect. *)
Definition unplugged : script :=
  {| clock := []; files := []; answers := [];
     sizes := [(grumpyURL, (true, Some "HEAD error: dial tcp: no route to host"))] |}.

(** A code host that accepts every comment, over the state of the real
    retriever. *)
Definition silent : scmProviderClient (Sys script) := {|
  CreateComment _ _ _ _ _ s := (None, s);
  QuoteAuthorForComment login s := ("@" ++ login, s)
|}.

(** The plugin at start-up in a world where the only answer of the API is
    an image the size check finds too big. *)
Definition oversized : Sys script :=
  {| cat := meow; world := online catURL (true, None); io := [] |}.

(** A world whose key file holds blanks and line ends only. *)
Definition blankKey (readings : list Z) : script :=
  {| clock := readings;
     files := [(keyFile, GoTrim.bytes [32; 9; 13; 10; 194; 160; 10]%N)];
     answers := []; sizes := [] |}.

(** Three invocations within one second: at 5 s, 5.5 s and 6 s. *)
Definition calm : list Z := [5000000000; 5000000001; 5500000000; 6000000000]%Z.

End Fake.

(** * Properties *)

(** ** Strings *)

Lemma append_nil_r (s : string) : s ++ "" = s.
Proof. induction s; simpl; congruence. Qed.

Lemma append_assoc (a b c : string) : (a ++ b) ++ c = a ++ (b ++ c).
Proof. induction a; simpl; congruence. Qed.

Lemma prefix_app (p s : string) : prefix p (p ++ s) = true.
Proof.
  induction p as [|c p IH]; simpl.
  - now destruct s.
  - destruct (ascii_dec c c); [assumption | congruence].
Qed.

Lemma Contains_unfold (s sub : string) :
  Contains s sub = prefix sub s || match s with
                                   | EmptyString => false
                                   | String _ t => Contains t sub
                                   end.
Proof. destruct s; reflexivity. Qed.

Lemma Contains_occurs (sub s : string) : occurs_in sub s -> Contains s sub = true.
Proof.
  intros (a & b & ->). induction a as [|c a IH].
  - rewrite Contains_unfold. simpl append. now rewrite prefix_app.
  - rewrite Contains_unfold.
    change (String c a ++ sub ++ b) with (String c (a ++ sub ++ b)).
    cbv iota. rewrite IH. apply orb_true_r.
Qed.

Lemma single_line_app (a b : string) :
  single_line (a ++ b) = single_line a && single_line b.
Proof.
  induction a as [|c a IH]; simpl; [reflexivity|].
  now rewrite IH, andb_assoc.
Qed.

(** ** The pattern [grumpyKeywords] *)

Module GrumpyFacts.
Import Grumpy.

Lemma run_word (w : string) :
  forall kw rest prev k,
    lower kw = lower w ->
    run (word w) prev (kw ++ rest) k = k (last_byte prev kw) rest.
Proof.
  induction w as [|c w IH]; intros [|d kw] rest prev k E; simpl in *;
    try discriminate; [reflexivity|].
  injection E as E1 E2.
  rewrite E1, Ascii.eqb_refl. simpl. now apply IH.
Qed.

Lemma star_spaces (k : option ascii -> string -> bool) :
  forall ws rest prev,
    all_space ws = true ->
    k (last_byte prev ws) rest = true ->
    star k Space prev (ws ++ rest) = true.
Proof.
  induction ws as [|c ws IH]; intros rest prev A K; simpl in *.
  - destruct rest; simpl; rewrite K; reflexivity.
  - apply andb_true_iff in A as [A1 A2].
    rewrite A1, (IH _ _ A2 K). apply orb_true_r.
Qed.

Lemma run_grumpy (kw ws rest : string) (prev : option ascii) :
  at_bol prev = true ->
  lower kw = "no" \/ lower kw = "grumpy" ->
  all_space ws = true ->
  at_eol rest = true ->
  run grumpyKeywords prev (kw ++ ws ++ rest) (fun _ _ => true) = true.
Proof.
  intros B K A E. unfold grumpyKeywords. cbn [run]. rewrite B. cbn [andb].
  assert (T : forall p, star (fun p s => at_eol s && true) Space p (ws ++ rest) = true).
  { intro p. apply star_spaces; [assumption | now rewrite E]. }
  destruct K as [K|K].
  - rewrite (run_word "no") by exact K. now rewrite T.
  - rewrite (run_word "grumpy" kw) by exact K. rewrite T. apply orb_true_r.
Qed.

Lemma last_byte_app (a b : string) (prev : option ascii) :
  last_byte prev (a ++ b) = last_byte (last_byte prev a) b.
Proof. revert prev. induction a; intro; simpl; auto. Qed.

Lemma search_unfold (r : regex) (prev : option ascii) (s : string) :
  search r prev s =
  run r prev s (fun _ _ => true) ||
  match s with
  | EmptyString => false
  | String c t => search r (Some c) t
  end.
Proof. destruct s; reflexivity. Qed.

Lemma search_app (r : regex) (a s : string) :
  forall prev,
    run r (last_byte prev a) s (fun _ _ => true) = true ->
    search r prev (a ++ s) = true.
Proof.
  induction a as [|c a IH]; intros prev R.
  - rewrite search_unfold. simpl in *. now rewrite R.
  - rewrite search_unfold. simpl in *. rewrite (IH _ R). apply orb_true_r.
Qed.

Lemma lines_head (s : string) :
  forall l ls, lines s = l :: ls -> exists b, s = l ++ b /\ at_eol b = true.
Proof.
  induction s as [|c t IH]; intros l ls L; simpl in L.
  - injection L as <- _. now exists "".
  - destruct (Ascii.eqb c LF) eqn:C.
    + injection L as <- _. exists (String c t). simpl. now rewrite C.
    + destruct (lines t) as [|l0 ls0] eqn:T.
      * injection L as <- _. exists t. split; [reflexivity|].
        destruct t as [|d t']; [reflexivity|]. simpl in T.
        destruct (Ascii.eqb d LF); [discriminate|].
        destruct (lines t'); discriminate.
      * injection L as <- _. destruct (IH _ _ eq_refl) as (b & -> & B).
        now exists b.
Qed.

Lemma lines_tail (s : string) :
  forall l, In l (tl (lines s)) ->
            exists a b, s = a ++ String LF (l ++ b) /\ at_eol b = true.
Proof.
  induction s as [|c t IH]; intros l I; simpl in I; [contradiction|].
  destruct (Ascii.eqb c LF) eqn:C.
  - apply Ascii.eqb_eq in C. subst c. simpl in I.
    destruct (lines t) as [|l0 ls0] eqn:T; [contradiction|].
    destruct I as [<-|I].
    + destruct (lines_head _ T) as (b & -> & B). now exists "", b.
    + destruct (IH l) as (a & b & -> & B); [exact I|].
      now exists (String LF a), b.
  - destruct (lines t) as [|l0 ls0] eqn:T; [contradiction|]. simpl in I.
    destruct (IH l) as (a & b & -> & B); [exact I|].
    now exists (String c a), b.
Qed.

(** A line that reads as a keyword makes the whole text match. *)
Lemma keyword_line_matches (category l : string) :
  In l (lines category) -> keyword_line l ->
  MatchString grumpyKeywords category = true.
Proof.
  intros I (kw & ws & -> & K & A). unfold MatchString.
  destruct (lines category) as [|l0 ls0] eqn:L; [contradiction|].
  destruct I as [->|I].
  - destruct (lines_head _ L) as (b & -> & B).
    rewrite search_unfold, append_assoc, run_grumpy by auto. reflexivity.
  - assert (I' : In (kw ++ ws) (tl (lines category))) by now rewrite L.
    destruct (lines_tail _ _ I') as (a & b & -> & B).
    change (a ++ String LF ((kw ++ ws) ++ b))
      with (a ++ String LF "" ++ ((kw ++ ws) ++ b)).
    rewrite <- append_assoc. apply search_app.
    rewrite last_byte_app, append_assoc. simpl last_byte.
    now apply run_grumpy.
Qed.

(** *** The converse: a match comes from a keyword line *)

Lemma run_word_inv (w : string) :
  forall s prev k,
    run (word w) prev s k = true ->
    exists kw rest,
      s = kw ++ rest /\ lower kw = lower w /\ k (last_byte prev kw) rest = true.
Proof.
  induction w as [|c w IH]; intros s prev k R; cbn [word run] in R.
  - exists "", s. auto.
  - destruct s as [|d s]; [discriminate|].
    apply andb_true_iff in R as [M R].
    apply IH in R as (kw & rest & -> & L & K).
    exists (String d kw), rest. simpl in *. apply Ascii.eqb_eq in M.
    repeat split; auto. now rewrite M, L.
Qed.

Lemma star_inv (k : option ascii -> string -> bool) :
  forall s prev,
    star k Space prev s = true ->
    exists ws rest,
      s = ws ++ rest /\ all_space ws = true /\ k (last_byte prev ws) rest = true.
Proof.
  induction s as [|c s IH]; intros prev R; cbn [star] in R.
  - rewrite orb_false_r in R. exists "", "". auto.
  - apply orb_true_iff in R as [R|R].
    + exists "", (String c s). auto.
    + apply andb_true_iff in R as [M R].
      apply IH in R as (ws & rest & -> & A & K).
      exists (String c ws), rest. simpl in *. rewrite M. auto.
Qed.

Lemma run_grumpy_inv (s : string) (prev : option ascii) :
  run grumpyKeywords prev s (fun _ _ => true) = true ->
  at_bol prev = true
  /\ exists kw ws rest,
      s = kw ++ ws ++ rest
      /\ (lower kw = "no" \/ lower kw = "grumpy")
      /\ all_space ws = true
      /\ at_eol rest = true.
Proof.
  unfold grumpyKeywords. cbn [run]. intro R.
  apply andb_true_iff in R as [B R]. split; [exact B|].
  apply orb_true_iff in R as [R|R];
    apply run_word_inv in R as (kw & r1 & -> & L & R);
    apply star_inv in R as (ws & rest & -> & A & R);
    apply andb_true_iff in R as [E _];
    exists kw, ws, rest; auto.
Qed.

Lemma search_inv (r : regex) :
  forall s prev,
    search r prev s = true ->
    exists a b, s = a ++ b /\ run r (last_byte prev a) b (fun _ _ => true) = true.
Proof.
  induction s as [|c s IH]; intros prev R; rewrite search_unfold in R.
  - rewrite orb_false_r in R. exists "", "". auto.
  - apply orb_true_iff in R as [R|R].
    + exists "", (String c s). auto.
    + apply IH in R as (a & b & -> & R). exists (String c a), b. auto.
Qed.

Lemma toLower_LF (c : ascii) : Ascii.eqb (toLower c) LF = Ascii.eqb c LF.
Proof. destruct c as [[] [] [] [] [] [] [] []]; vm_compute; reflexivity. Qed.

Lemma no_LF_lower (s : string) : no_LF (lower s) = no_LF s.
Proof. induction s as [|c s IH]; simpl; [reflexivity|]. now rewrite toLower_LF, IH. Qed.

Lemma no_LF_app (a b : string) : no_LF (a ++ b) = no_LF a && no_LF b.
Proof. induction a as [|c a IH]; simpl; [reflexivity|]. now rewrite IH, andb_assoc. Qed.

Lemma keyword_no_LF (kw : string) :
  lower kw = "no" \/ lower kw = "grumpy" -> no_LF kw = true.
Proof. intros [K|K]; rewrite <- no_LF_lower, K; reflexivity. Qed.

Lemma lines_no_LF (l : string) : no_LF l = true -> lines l = [l].
Proof.
  induction l as [|c l IH]; simpl; [reflexivity|]. intro N.
  apply andb_true_iff in N as [N1 N2]. apply negb_true_iff in N1.
  now rewrite N1, (IH N2).
Qed.

(** [strings.Split] over a line feed. *)
Lemma lines_app_LF (x y : string) :
  lines (x ++ String LF y) = (lines x ++ lines y)%list.
Proof.
  induction x as [|c x IH]; simpl; [reflexivity|].
  destruct (Ascii.eqb c LF); rewrite IH; [reflexivity|].
  destruct (lines x) eqn:L; [|reflexivity].
  destruct x as [|d x']; [discriminate|]. simpl in L.
  destruct (Ascii.eqb d LF); [discriminate|]. destruct (lines x'); discriminate.
Qed.

Lemma spaces_to_LF (ws : string) :
  all_space ws = true ->
  no_LF ws = true
  \/ exists w1 w2, ws = w1 ++ String LF w2 /\ no_LF w1 = true /\ all_space w1 = true.
Proof.
  induction ws as [|c ws IH]; simpl; intro A; [now left|].
  apply andb_true_iff in A as [A1 A2].
  destruct (Ascii.eqb c LF) eqn:C.
  - right. apply Ascii.eqb_eq in C. subst c. now exists "", ws.
  - destruct (IH A2) as [N|(w1 & w2 & -> & N & S)].
    + left. now rewrite N.
    + right. exists (String c w1), w2. simpl. now rewrite C, N, A1, S.
Qed.

Lemma at_bol_last (a : string) :
  at_bol (last_byte None a) = true -> a = "" \/ exists a', a = a' ++ String LF "".
Proof.
  assert (G : forall a p, at_bol (last_byte (Some p) a) = true ->
                          (a = "" /\ p = LF) \/ exists a', a = a' ++ String LF "").
  { clear a. induction a as [|c a IH]; intros p B; simpl in B.
    - left. apply Ascii.eqb_eq in B. auto.
    - right. destruct (IH _ B) as [[-> ->]|(a' & ->)].
      + now exists "".
      + now exists (String c a'). }
  destruct a as [|c a]; [now left|]. intro B. right.
  destruct (G _ _ B) as [[-> ->]|(a' & ->)]; [now exists ""|now exists (String c a')].
Qed.

(** The first line of a text that starts with a keyword and whitespace up
    to the end of a line is a keyword line. *)
Lemma keyword_head (kw ws rest : string) :
  lower kw = "no" \/ lower kw = "grumpy" ->
  all_space ws = true ->
  at_eol rest = true ->
  exists l ls, lines (kw ++ ws ++ rest) = l :: ls /\ keyword_line l.
Proof.
  intros K A E. pose proof (keyword_no_LF kw K) as NK.
  destruct (spaces_to_LF ws A) as [N|(w1 & w2 & -> & N & S)].
  - assert (KL : keyword_line (kw ++ ws)) by (exists kw, ws; auto).
    assert (NL : no_LF (kw ++ ws) = true) by now rewrite no_LF_app, NK, N.
    destruct rest as [|c rest].
    + rewrite append_nil_r, (lines_no_LF _ NL). eauto.
    + simpl in E. apply Ascii.eqb_eq in E. subst c.
      rewrite <- append_assoc, lines_app_LF, (lines_no_LF _ NL). simpl. eauto.
  - assert (KL : keyword_line (kw ++ w1)) by (exists kw, w1; auto).
    assert (NL : no_LF (kw ++ w1) = true) by now rewrite no_LF_app, NK, N.
    replace (kw ++ (w1 ++ String LF w2) ++ rest)
      with ((kw ++ w1) ++ String LF (w2 ++ rest))
      by (now rewrite !append_assoc).
    rewrite lines_app_LF, (lines_no_LF _ NL). simpl. eauto.
Qed.

(** The pattern matches exactly the texts with a keyword line. *)
Theorem grumpy_match_iff (category : string) :
  MatchString grumpyKeywords category = true
  <-> exists l, In l (lines category) /\ keyword_line l.
Proof.
  split; [|intros (l & I & K); exact (keyword_line_matches category I K)].
  unfold MatchString. intro R.
  apply search_inv in R as (a & b & -> & R).
  apply run_grumpy_inv in R as (B & kw & ws & rest & -> & K & A & E).
  destruct (keyword_head kw ws rest K A E) as (l & ls & L & KL).
  exists l. split; [|exact KL].
  destruct (at_bol_last a B) as [->|(a' & ->)].
  - simpl. rewrite L. now left.
  - rewrite append_assoc. simpl append. rewrite lines_app_LF, L.
    apply in_or_app. right. now left.
Qed.

End GrumpyFacts.

(** ** The request URL *)

Module URLFacts.
Import URLEscape URLSpec.

Lemma all_bytes_app (p : ascii -> bool) (a b : string) :
  all_bytes p (a ++ b) = all_bytes p a && all_bytes p b.
Proof. induction a; simpl; [reflexivity|]. now rewrite IHa, andb_assoc. Qed.

Lemma escape_byte_safe (c : ascii) : all_bytes query_safe (escape_byte c) = true.
Proof.
  destruct c as [[] [] [] [] [] [] [] []]; vm_compute; reflexivity.
Qed.

(** An escaped value holds no [&], [=], [#] or space: it cannot end its
    parameter or start another one. *)
Lemma QueryEscape_safe (s : string) : all_bytes query_safe (QueryEscape s) = true.
Proof.
  induction s as [|c t IH]; simpl; [reflexivity|].
  now rewrite all_bytes_app, escape_byte_safe, IH.
Qed.

(** Unreserved bytes are left as they are. *)
Lemma escape_byte_unreserved (c : ascii) :
  shouldEscape c = false -> escape_byte c = String c EmptyString.
Proof.
  intro U. unfold escape_byte. rewrite U.
  destruct (Ascii.eqb c " ") eqn:S; [|reflexivity].
  apply Ascii.eqb_eq in S. subst c. discriminate.
Qed.

(** Reading an escaped byte gives the byte back. *)
Lemma unescape_escape_byte (c : ascii) (rest : string) :
  Escaped.unescape (escape_byte c ++ rest)
  = option_map (String c) (Escaped.unescape rest).
Proof. destruct c as [[] [] [] [] [] [] [] []]; reflexivity. Qed.

Lemma unescape_QueryEscape (s : string) :
  Escaped.unescape (QueryEscape s) = Some s.
Proof.
  induction s as [|c t IH]; [reflexivity|].
  cbn [QueryEscape]. now rewrite unescape_escape_byte, IH.
Qed.

Lemma QueryEscape_unreserved (s : string) :
  all_bytes Escaped.unreserved s = true -> QueryEscape s = s.
Proof.
  induction s as [|c t IH]; [reflexivity|]. cbn [all_bytes QueryEscape]. intro U.
  apply andb_true_iff in U as [U1 U2]. rewrite (IH U2), escape_byte_unreserved.
  - reflexivity.
  - unfold shouldEscape. unfold Escaped.unreserved in U1.
    destruct (isLower c || isUpper c || isDigit c); [reflexivity|].
    simpl in U1. now rewrite U1.
Qed.

(** [QueryEscape s] is an escaped form of [s]. *)
Lemma QueryEscape_escapes (s : string) : Escaped.escapes (QueryEscape s) s.
Proof.
  split; [apply unescape_QueryEscape|].
  split; [apply QueryEscape_safe | apply QueryEscape_unreserved].
Qed.

End URLFacts.

(** C6: for every category, cached key and movie flag, the URL built by
    [URL] is the base endpoint, then [&category=] and the escaped category
    exactly when the category is not empty, then [&api_key=] and the escaped
    key exactly when the cached key is not empty, then [&mime_types=gif]
    exactly when the movie flag is set, in this order.  Escaped means: the
    text that is put in the URL stands for the value, byte for byte, when
    [+] is read as a space and [%XY] as the byte of hexadecimal value
    [XY]; it holds only letters, digits and [-], [_], [.], [~], [+], [%],
    hence no [&], [=], [#] or space; and a value made of letters, digits
    and [-], [_], [.], [~] is put as it is. *)
Theorem URL_layout (c : realClowder) (category : string) (movieCat : bool) :
  exists ecategory ekey : string,
    RealClowder.URL c category movieCat =
    url c
    ++ param (negb (category =? "")) ("&category=" ++ ecategory)
    ++ param (negb (key c =? "")) ("&api_key=" ++ ekey)
    ++ param movieCat "&mime_types=gif"
    /\ Escaped.escapes ecategory category
    /\ Escaped.escapes ekey (key c).
Proof.
  exists (URLEscape.QueryEscape category), (URLEscape.QueryEscape (key c)).
  split; [|split; apply URLFacts.QueryEscape_escapes].
  unfold RealClowder.URL, param.
  destruct (category =? ""), (key c =? ""), movieCat; simpl negb; cbv iota;
    rewrite ?append_assoc, ?append_nil_r; reflexivity.
Qed.

Lemma URL_layout_witness :
  let c := with_key meow "k/1 ~" in
  RealClowder.URL c "a b&api_key=x" true
  = url c ++ "&category=a+b%26api_key%3Dx" ++ "&api_key=k%2F1+~" ++ "&mime_types=gif"
  /\ exists ecategory ekey : string,
      RealClowder.URL c "a b&api_key=x" true =
      url c ++ ("&category=" ++ ecategory) ++ ("&api_key=" ++ ekey) ++ "&mime_types=gif"
      /\ Escaped.escapes ecategory "a b&api_key=x"
      /\ Escaped.escapes ekey "k/1 ~".
Proof.
  intro c. split; [reflexivity|].
  exact (URL_layout c "a b&api_key=x" true).
Defined.

(** ** [strings.TrimSpace] *)

Module TrimFacts.
Import GoTrim TrimSpec.

Lemma strip_prefix_spec (p : string) :
  forall s s', strip_prefix p s = Some s' <-> s = p ++ s'.
Proof.
  induction p as [|a p IH]; intros s s'; simpl.
  - split; [now intros [= ->] | now intros ->].
  - destruct s as [|b s]; [split; discriminate|].
    destruct (Ascii.eqb_spec a b) as [->|NE].
    + rewrite IH. split; [now intros -> | now intros [= ->]].
    + split; [discriminate | intros [= E _]; congruence].
Qed.

Lemma strip_any_some (ps : list string) :
  forall s s', strip_any ps s = Some s' -> exists p, In p ps /\ s = p ++ s'.
Proof.
  induction ps as [|p ps IH]; intros s s' E; simpl in E; [discriminate|].
  destruct (strip_prefix p s) as [x|] eqn:P.
  - injection E as ->. apply strip_prefix_spec in P. exists p. simpl. auto.
  - destruct (IH _ _ E) as (p' & I & ->). exists p'. simpl. auto.
Qed.

Lemma strip_any_none (ps : list string) (s : string) :
  strip_any ps s = None -> starts_with_none ps s.
Proof.
  induction ps as [|p ps IH]; intros E r rest I; simpl in *; [contradiction|].
  destruct (strip_prefix p s) as [x|] eqn:P; [discriminate|].
  destruct I as [->|I]; [|exact (IH E r rest I)].
  intro X. apply strip_prefix_spec in X. congruence.
Qed.

Lemma length_append (a b : string) :
  String.length (a ++ b) = String.length a + String.length b.
Proof. induction a; simpl; auto. Qed.

(** What [trim_left] drops is a run of runes. *)
Lemma trim_left_run (runes : list string) (fuel : nat) :
  forall s, exists l, s = l ++ trim_left runes fuel s /\ run_of runes l.
Proof.
  induction fuel as [|fuel IH]; intro s; simpl.
  - exists "". split; [reflexivity | constructor].
  - destruct (strip_any runes s) as [s'|] eqn:E.
    + destruct (strip_any_some _ _ E) as (p & I & ->).
      destruct (IH s') as (l & L & R). exists (p ++ l).
      split; [now rewrite append_assoc, <- L | now constructor].
    + exists "". split; [reflexivity | constructor].
Qed.

(** With fuel for every byte, [trim_left] stops at a byte that starts no
    rune. *)
Lemma trim_left_done (runes : list string) (fuel : nat) :
  (forall r, In r runes -> r <> "") ->
  forall s, String.length s <= fuel ->
            starts_with_none runes (trim_left runes fuel s).
Proof.
  intro NE. induction fuel as [|fuel IH]; intros s L; simpl.
  - destruct s; [|simpl in L; lia]. intros r rest I X.
    destruct r; [exact (NE _ I eq_refl) | discriminate].
  - destruct (strip_any runes s) as [s'|] eqn:E.
    + apply IH. destruct (strip_any_some _ _ E) as (p & I & ->).
      rewrite length_append in L. specialize (NE _ I).
      destruct p; [congruence | simpl in L; lia].
    + now apply strip_any_none.
Qed.

Lemma list_of_append (a b : string) :
  list_ascii_of_string (a ++ b)
  = (list_ascii_of_string a ++ list_ascii_of_string b)%list.
Proof. induction a; simpl; congruence. Qed.

Lemma string_of_app (a b : list ascii) :
  string_of_list_ascii (a ++ b) = string_of_list_ascii a ++ string_of_list_ascii b.
Proof. induction a; simpl; congruence. Qed.

Lemma rev_string_append (a b : string) :
  rev_string (a ++ b) = rev_string b ++ rev_string a.
Proof. unfold rev_string. now rewrite list_of_append, rev_app_distr, string_of_app. Qed.

Lemma rev_string_involutive (s : string) : rev_string (rev_string s) = s.
Proof.
  unfold rev_string.
  now rewrite list_ascii_of_string_of_list_ascii, rev_involutive,
    string_of_list_ascii_of_string.
Qed.

Lemma rev_string_length (s : string) : String.length (rev_string s) = String.length s.
Proof.
  assert (L : forall l, String.length (string_of_list_ascii l) = List.length l)
    by (induction l; simpl; auto).
  assert (L' : forall s, List.length (list_ascii_of_string s) = String.length s)
    by (clear s; induction s; simpl; auto).
  unfold rev_string. now rewrite L, length_rev, L'.
Qed.

Lemma run_of_app (runes : list string) (a b : string) :
  run_of runes a -> run_of runes b -> run_of runes (a ++ b).
Proof.
  induction 1 as [|r s I R IH]; intro B; [exact B|].
  rewrite append_assoc. constructor; auto.
Qed.

(** Reversing a run of reversed runes gives a run of runes. *)
Lemma run_of_rev (runes : list string) (l : string) :
  run_of (map rev_string runes) l -> run_of runes (rev_string l).
Proof.
  induction 1 as [|r s I R IH]; [constructor|].
  rewrite rev_string_append. apply run_of_app; [exact IH|].
  apply in_map_iff in I as (r0 & <- & I0). rewrite rev_string_involutive.
  rewrite <- (append_nil_r r0). constructor; [exact I0 | constructor].
Qed.

Lemma spaceRunes_nonempty (r : string) : In r spaceRunes -> r <> "".
Proof.
  intro I. vm_compute in I.
  repeat (destruct I as [<-|I]; [discriminate|]). contradiction.
Qed.

(** [TrimSpace s] is [s] without a run of space runes at each end, and
    neither starts nor ends with a space rune. *)
Theorem TrimSpace_spec (s : string) :
  (exists l r, s = l ++ TrimSpace s ++ r
               /\ run_of spaceRunes l /\ run_of spaceRunes r)
  /\ starts_with_none spaceRunes (TrimSpace s)
  /\ ends_with_none spaceRunes (TrimSpace s).
Proof.
  unfold TrimSpace, TrimRightSpace.
  set (m := TrimLeftSpace s).
  destruct (trim_left_run spaceRunes (String.length s) s) as (l & L & RL).
  fold (TrimLeftSpace s) in L. fold m in L.
  destruct (trim_left_run (map rev_string spaceRunes) (String.length m) (rev_string m))
    as (r' & R & RR).
  set (t := trim_left (map rev_string spaceRunes) (String.length m) (rev_string m)) in *.
  assert (M : m = rev_string t ++ rev_string r').
  { rewrite <- (rev_string_involutive m), R. apply rev_string_append. }
  split; [|split].
  - exists l, (rev_string r'). split; [now rewrite <- M|].
    split; [exact RL | now apply run_of_rev].
  - intros r rest I X.
    assert (D : starts_with_none spaceRunes m)
      by (apply trim_left_done; [exact spaceRunes_nonempty | lia]).
    apply (D r (rest ++ rev_string r') I).
    now rewrite M, X, append_assoc.
  - intros r front I X.
    assert (D : starts_with_none (map rev_string spaceRunes) t).
    { apply trim_left_done; [|now rewrite rev_string_length].
      intros x Ix E. apply in_map_iff in Ix as (x0 & <- & I0).
      apply (spaceRunes_nonempty I0).
      now rewrite <- (rev_string_involutive x0), E. }
    apply (D (rev_string r) (rev_string front)); [now apply in_map|].
    now rewrite <- (rev_string_involutive t), X, rev_string_append.
Qed.

End TrimFacts.

(** ** The credential cache *)

Module RefreshFacts.
Import Refresh.

Section WithEnv.
Context {W : Type} `{Env W}.

(** An invocation before the deadline leaves the cache as it is and
    only reads the clock. *)
Lemma setKey_limited (c : realClowder) (keyPath : string) (w w1 : W) (t1 : Z) :
  time_Now w = (t1, w1) ->
  After t1 (update c) = false ->
  RealClowder.setKey c keyPath w = (c, w1, [IoNow t1]).
Proof.
  intros N A. unfold RealClowder.setKey, bind, RealClowder.Now.
  rewrite N, A. reflexivity.
Qed.

(** What an invocation after the deadline does. *)
Lemma setKey_due (c : realClowder) (keyPath : string)
      (w w1 w2 w3 : W) (t1 t2 : Z) (r : result string) :
  time_Now w = (t1, w1) ->
  After t1 (update c) = true ->
  time_Now w1 = (t2, w2) ->
  os_ReadFile keyPath w2 = (r, w3) ->
  RealClowder.setKey c keyPath w =
  if keyPath =? "" then
    (with_key (with_update c (t2 + Minute)) "", w2, [IoNow t1; IoNow t2])
  else
    match r with
    | Ok b =>
        (with_key (with_update c (t2 + Minute)) (GoTrim.TrimSpace b), w3,
         [IoNow t1; IoNow t2; IoReadFile keyPath r])
    | Err err =>
        (with_key (with_update c (t2 + Minute)) "", w3,
         [IoNow t1; IoNow t2; IoReadFile keyPath r;
          IoLogError ("failed to read key at " ++ keyPath) err])
    end.
Proof.
  intros N1 A N2 R.
  unfold RealClowder.setKey, bind, RealClowder.Now, RealClowder.ReadFile,
    RealClowder.LogError, emit, ret.
  rewrite N1, A. cbn. rewrite N2.
  destruct (keyPath =? ""); [reflexivity|].
  cbn. rewrite R. destruct r; reflexivity.
Qed.

End WithEnv.
End RefreshFacts.

(** C5: when [setKey] is not rate limited (its clock reading is after
    the deadline), an empty key path clears the cached key without reading
    any file; a failed read is logged and clears the cached key; a
    successful read stores the content of the file with the surrounding
    whitespace trimmed.  In each case [setKey] returns, with the next
    deadline one minute after its second clock reading. *)
Theorem setKey_refresh {W : Type} `{Env W}
        (c : realClowder) (keyPath : string)
        (w w1 w2 w3 : W) (t1 t2 : Z) (r : result string) :
  time_Now w = (t1, w1) ->
  After t1 (update c) = true ->
  time_Now w1 = (t2, w2) ->
  os_ReadFile keyPath w2 = (r, w3) ->
  let out := RealClowder.setKey c keyPath w in
  update (value_of out) = (t2 + Minute)%Z
  /\ (keyPath = "" ->
      key (value_of out) = "" /\ Refresh.fileReads (trace_of out) = 0)
  /\ (keyPath <> "" ->
      match r with
      | Ok b => key (value_of out) = GoTrim.TrimSpace b
      | Err err =>
          key (value_of out) = ""
          /\ In (IoLogError ("failed to read key at " ++ keyPath) err) (trace_of out)
      end).
Proof.
  intros N1 A N2 R out. subst out.
  rewrite (RefreshFacts.setKey_due c keyPath _ N1 A N2 R).
  destruct (String.eqb_spec keyPath "") as [->|NE].
  - repeat split; try reflexivity. intro X. now contradiction X.
  - destruct r; (split; [reflexivity|split; [intro; contradiction|intros _]]).
    + reflexivity.
    + split; [reflexivity|]. simpl. auto.
Qed.

(** ** Refreshes and the one-minute window *)

Module WindowFacts.
Import Refresh.

Section WithEnv.
Context {W : Type} `{Env W}.

(** The two shapes of the trace of an invocation. *)
Lemma setKey_trace (c : realClowder) (keyPath : string) (w : W) :
  exists t1,
    started (trace_of (RealClowder.setKey c keyPath w)) = t1
    /\ ((After t1 (update c) = false
         /\ RealClowder.setKey c keyPath w = (c, snd (time_Now w), [IoNow t1]))
        \/ (After t1 (update c) = true
            /\ exists t2 rest,
                trace_of (RealClowder.setKey c keyPath w) = IoNow t1 :: IoNow t2 :: rest
                /\ clockReadings rest = []
                /\ update (value_of (RealClowder.setKey c keyPath w)) = (t2 + Minute)%Z
                /\ fileReads rest = if keyPath =? "" then 0 else 1)).
Proof.
  destruct (time_Now w) as [t1 w1] eqn:N1. exists t1.
  destruct (After t1 (update c)) eqn:A.
  - destruct (time_Now w1) as [t2 w2] eqn:N2.
    destruct (os_ReadFile keyPath w2) as [r w3] eqn:R.
    rewrite (RefreshFacts.setKey_due c keyPath _ N1 A N2 R).
    destruct (keyPath =? "").
    + split; [reflexivity|]. right. split; [reflexivity|].
      exists t2, []. repeat split.
    + destruct r; (split; [reflexivity|]); right; (split; [reflexivity|]).
      * exists t2, [IoReadFile keyPath (Ok a)]. repeat split.
      * exists t2, [IoReadFile keyPath (Err e);
                    IoLogError ("failed to read key at " ++ keyPath) e].
        repeat split.
  - rewrite (RefreshFacts.setKey_limited c keyPath _ N1 A).
    split; [reflexivity|]. left. split; reflexivity.
Qed.

Lemma clockReadings_app (a b : list io_event) :
  clockReadings (a ++ b) = (clockReadings a ++ clockReadings b)%list.
Proof. apply flat_map_app. Qed.

Lemma setKeys_cons (p : string) (ps : list string) (c : realClowder) (w : W) :
  fst (fst (setKeys (p :: ps) c w)) =
  {| before := c; path := p; events := trace_of (RealClowder.setKey c p w) |}
    :: fst (fst (setKeys ps (value_of (RealClowder.setKey c p w))
                         (state_of (RealClowder.setKey c p w)))).
Proof.
  simpl. destruct (RealClowder.setKey c p w) as [[c1 w1] t].
  unfold value_of, state_of, trace_of. simpl.
  destruct (setKeys ps c1 w1) as [[rest c2] w2]. reflexivity.
Qed.

Lemma monotonic_app_r (a b : list Z) : monotonic (a ++ b) -> monotonic b.
Proof.
  induction a as [|x a IH]; [auto|]. intro S. inversion S. auto.
Qed.

(** No invocation reads more than one file. *)
Lemma reads_at_most_one (c : realClowder) (keyPath : string) (w : W) :
  fileReads (trace_of (RealClowder.setKey c keyPath w)) <= 1.
Proof.
  destruct (setKey_trace c keyPath w) as (t1 & _ & [[_ E]|[_ (t2 & rest & E & _ & _ & R)]]).
  - rewrite E. unfold fileReads. simpl. lia.
  - rewrite E. change (fileReads (IoNow t1 :: IoNow t2 :: rest)) with (fileReads rest).
    rewrite R. destruct (keyPath =? ""); lia.
Qed.

(** With a clock that never runs backwards, an invocation that reads a
    file comes after the deadline the run started with. *)
Lemma read_after_deadline (paths : list string) :
  forall (c : realClowder) (w : W) (inv : invocation),
    monotonic (readings (fst (fst (setKeys paths c w)))) ->
    In inv (fst (fst (setKeys paths c w))) ->
    1 <= fileReads (events inv) ->
    (update c < started (events inv))%Z.
Proof.
  induction paths as [|p ps IH]; intros c w inv MO I R; [contradiction|].
  rewrite setKeys_cons in MO, I.
  unfold readings in MO. simpl flat_map in MO. rewrite clockReadings_app in MO.
  destruct (setKey_trace c p w) as (t1 & ST & [[A E]|[A (t2 & rest & E & NR & U & FR)]]).
  - destruct I as [<-|I].
    + simpl in R. rewrite E in R. unfold fileReads in R. simpl in R. lia.
    + rewrite E in I. unfold value_of, state_of in I. simpl fst in I. simpl snd in I.
      eapply IH; eauto. rewrite E in MO. unfold value_of, state_of; simpl.
      exact (monotonic_app_r _ _ MO).
  - destruct I as [<-|I].
    + simpl events. rewrite ST. unfold After in A. apply Z.ltb_lt in A. exact A.
    + assert (L : (update c < update (value_of (RealClowder.setKey c p w)))%Z).
      { rewrite U. rewrite E in MO. simpl in MO. rewrite NR in MO. simpl in MO.
        inversion MO as [|? ? _ F]. inversion F as [|? ? LE _].
        unfold After in A. apply Z.ltb_lt in A. unfold Minute. lia. }
      eapply Z.lt_trans; [exact L|].
      eapply IH; eauto. exact (monotonic_app_r _ _ MO).
Qed.

End WithEnv.
End WindowFacts.

Module OncePerWindow.
Import Refresh WindowFacts.

Section WithEnv.
Context {W : Type} `{Env W}.

(** What an invocation reads is decided by its clock reading, the deadline
    it finds and its key path. *)
Lemma reads_of_invocation (paths : list string) :
  forall (c : realClowder) (w : W) (a : invocation),
    In a (fst (fst (setKeys paths c w))) ->
    fileReads (events a) =
    if After (started (events a)) (update (before a)) && negb (path a =? "")
    then 1 else 0.
Proof.
  induction paths as [|p ps IH]; intros c w a I; [contradiction|].
  rewrite setKeys_cons in I. destruct I as [<-|I]; [|eapply IH; eauto].
  simpl events. simpl before. simpl path.
  destruct (setKey_trace c p w) as (t1 & ST & [[A E]|[A (t2 & rest & E & _ & _ & R)]]).
  - rewrite ST, A, E. reflexivity.
  - rewrite ST, A, E.
    change (fileReads (IoNow t1 :: IoNow t2 :: rest)) with (fileReads rest).
    rewrite R. now destruct (p =? "").
Qed.

Lemma reads_bound (paths : list string) (c : realClowder) (w : W) (a : invocation) :
  In a (fst (fst (setKeys paths c w))) -> fileReads (events a) <= 1.
Proof.
  intro I. rewrite (reads_of_invocation _ _ _ _ I).
  destruct (_ && _); lia.
Qed.

Lemma window_reads (paths : list string) :
  forall (c : realClowder) (w : W) (i j : nat) (a b : invocation),
    monotonic (readings (fst (fst (setKeys paths c w)))) ->
    i < j ->
    nth_error (fst (fst (setKeys paths c w))) i = Some a ->
    nth_error (fst (fst (setKeys paths c w))) j = Some b ->
    (started (events b) <= started (events a) + Minute)%Z ->
    fileReads (events a) + fileReads (events b) <= 1.
Proof.
  induction paths as [|p ps IH]; intros c w i j a b MO LT Ia Ib WIN.
  - destruct i; discriminate.
  - rewrite setKeys_cons in MO, Ia, Ib.
    unfold readings in MO. simpl flat_map in MO. rewrite clockReadings_app in MO.
    destruct j as [|j]; [lia|]. simpl in Ib.
    destruct i as [|i].
    + simpl in Ia. injection Ia as <-. simpl events in *.
      pose proof (reads_bound _ _ _ _ (nth_error_In _ _ Ib)) as Bb.
      destruct (setKey_trace c p w)
        as (t1 & ST & [[A E]|[A (t2 & rest & E & NR & U & FR)]]).
      * rewrite E. unfold fileReads at 1. simpl. lia.
      * destruct (Nat.eq_dec (fileReads (events b)) 0) as [Z0|NZ].
        { rewrite Z0, Nat.add_0_r. apply reads_at_most_one. }
        exfalso.
        assert (D : (update (value_of (RealClowder.setKey c p w))
                     < started (events b))%Z).
        { eapply read_after_deadline; [| eapply nth_error_In; exact Ib | lia].
          exact (monotonic_app_r _ _ MO). }
        rewrite U in D. rewrite ST in WIN.
        rewrite E in MO. simpl in MO. rewrite NR in MO. simpl in MO.
        inversion MO as [|? ? _ F]. inversion F as [|? ? LE _]. lia.
    + simpl in Ia. eapply (IH _ _ i j); eauto; [|lia].
      exact (monotonic_app_r _ _ MO).
Qed.

(** The deadline an invocation finds is the end of the window that the
    earlier invocations leave open. *)
Lemma window_end_found (paths : list string) :
  forall (c : realClowder) (w : W) (pre post : list invocation) (b : invocation),
    fst (fst (setKeys paths c w)) = (pre ++ b :: post)%list ->
    update (before b) = window_end (update c) pre.
Proof.
  induction paths as [|p ps IH]; intros c w pre post b E.
  - destruct pre; discriminate.
  - rewrite setKeys_cons in E. destruct pre as [|a pre].
    + injection E as <- _. reflexivity.
    + injection E as <- E. rewrite (IH _ _ _ _ _ E). cbn [window_end events].
      f_equal.
      destruct (setKey_trace c p w)
        as (t1 & _ & [[_ Q]|[_ (t2 & rest & Q & _ & U & _)]]).
      * now rewrite Q.
      * rewrite U, Q. reflexivity.
Qed.

End WithEnv.
End OncePerWindow.

(** C4, amended: in any sequence of [setKey] invocations read off a clock
    that never runs backwards, two invocations made within one minute of
    each other read at most one file in total, so that no window sees more
    than one read however often [setKey] is called.  A window ends one
    minute after the second clock reading of the invocation that opened
    it: an invocation that starts after the end of the window left open by
    the invocations before it reads exactly one file when its key path is
    not empty and none when it is empty, and an invocation that starts no
    later than that reads none. *)
Theorem refresh_once_per_window {W : Type} `{Env W}
        (paths : list string) (c : realClowder) (w : W) :
  let run := fst (fst (Refresh.setKeys paths c w)) in
  Refresh.monotonic (Refresh.readings run) ->
  (forall (i j : nat) (a b : Refresh.invocation),
      i < j -> nth_error run i = Some a -> nth_error run j = Some b ->
      (Refresh.started (Refresh.events b)
       <= Refresh.started (Refresh.events a) + Minute)%Z ->
      Refresh.fileReads (Refresh.events a) + Refresh.fileReads (Refresh.events b) <= 1)
  /\ (forall (pre post : list Refresh.invocation) (b : Refresh.invocation),
         run = (pre ++ b :: post)%list ->
         Refresh.fileReads (Refresh.events b) =
         if (Refresh.window_end (update c) pre <? Refresh.started (Refresh.events b))%Z
         then (if Refresh.path b =? "" then 0 else 1)
         else 0).
Proof.
  intros run MO. split.
  - intros i j a b LT Ia Ib WIN.
    exact (OncePerWindow.window_reads paths c w MO LT Ia Ib WIN).
  - intros pre post b E.
    assert (I : In b (fst (fst (Refresh.setKeys paths c w)))).
    { fold run. rewrite E. apply in_or_app. right. now left. }
    rewrite (OncePerWindow.reads_of_invocation _ _ _ _ I).
    rewrite (OncePerWindow.window_end_found paths c w pre post b E).
    unfold After.
    destruct (_ <? _)%Z, (Refresh.path b =? ""); reflexivity.
Qed.

Lemma refresh_once_per_window_witness :
  let run := fst (fst (@Refresh.setKeys _ Fake.plain
                         [Fake.keyFile; Fake.keyFile; Fake.keyFile] meow
                         (Fake.keyed Fake.burst))) in
  let b := nth 2 run {| Refresh.before := meow; Refresh.path := "";
                        Refresh.events := [] |} in
  Refresh.monotonic (Refresh.readings run)
  /\ map (fun a => Refresh.fileReads (Refresh.events a)) run = [1; 0; 1]
  /\ (forall (i j : nat) (a b : Refresh.invocation),
         i < j -> nth_error run i = Some a -> nth_error run j = Some b ->
         (Refresh.started (Refresh.events b)
          <= Refresh.started (Refresh.events a) + Minute)%Z ->
         Refresh.fileReads (Refresh.events a) + Refresh.fileReads (Refresh.events b) <= 1)
  /\ Refresh.window_end (update meow) (firstn 2 run) = (5000000001 + Minute)%Z
  /\ Refresh.started (Refresh.events b) = 67000000000%Z
  /\ Refresh.fileReads (Refresh.events b) = 1.
Proof.
  intros run b.
  assert (MO : Refresh.monotonic (Refresh.readings run)).
  { unfold Refresh.monotonic. vm_compute Refresh.readings.
    repeat constructor; lia. }
  destruct (@refresh_once_per_window _ Fake.plain
              [Fake.keyFile; Fake.keyFile; Fake.keyFile] meow
              (Fake.keyed Fake.burst) MO) as [P Q].
  split; [exact MO|]. split; [reflexivity|]. split; [exact P|].
  split; [reflexivity|]. split; [reflexivity|].
  exact (Q (firstn 2 run) [] b eq_refl).
Defined.

(** C4 as stated fails on an empty key path: the invocation comes after the
    deadline and reads no file. *)
Lemma refresh_without_path_reads_nothing :
  let out := @RealClowder.setKey _ Fake.plain meow "" (Fake.offline [5; 6]%Z) in
  After (Refresh.started (trace_of out)) (update meow) = true
  /\ Refresh.fileReads (trace_of out) = 0
  /\ Refresh.fileReads (trace_of out) <> 1.
Proof. vm_compute. repeat split. discriminate. Qed.

Lemma setKey_refresh_witness :
  let w := Fake.keyed [5; 6]%Z in
  let out := @RealClowder.setKey _ Fake.plain meow Fake.keyFile w in
  After 5 (update meow) = true
  /\ Fake.keyFile <> ""
  /\ key (value_of out) = "s3cr3t"
  /\ update (value_of out) = (6 + Minute)%Z.
Proof.
  intros w out.
  assert (NE : Fake.keyFile <> "") by discriminate.
  pose proof (@setKey_refresh _ Fake.plain meow Fake.keyFile
                w (Fake.keyed [6]%Z) (Fake.keyed []) (Fake.keyed []) 5%Z 6%Z
                (Ok ("  s3cr3t " ++ String Regexp.LF EmptyString))
                eq_refl eq_refl eq_refl eq_refl) as (U & _ & K).
  split; [reflexivity|]. split; [exact NE|]. split; [exact (K NE) | exact U].
Defined.

(** ** The retriever *)

Module RetrievalFacts.
Import Retrieval.

Section WithEnv.
Context {W : Type} `{Env W}.

(** What [checkCat] does with an image that has a URL. *)
Lemma checkCat_image (uri : string) (a : catResult) (w w' : W)
      (r : bool * option error) :
  Image a <> "" ->
  ImageTooBig (Image a) w = (r, w') ->
  RealClowder.checkCat uri a w =
  (match r with
   | (_, Some err) =>
       ("", Some ("could not validate image size " ++ Image a ++ ": " ++ err))
   | (true, None) => ("", Some ("longcat is too long: " ++ Image a))
   | (false, None) => RealClowder.Format a
   end, w', [IoImageTooBig (Image a) r]).
Proof.
  intros NE T. unfold RealClowder.checkCat.
  destruct (String.eqb_spec (Image a) "") as [E|_]; [contradiction|].
  unfold bind, RealClowder.TooBig. rewrite T.
  destruct r as [[] [err|]]; reflexivity.
Qed.

Lemma checkCat_no_image (uri : string) (a : catResult) (w : W) :
  Image a = "" ->
  RealClowder.checkCat uri a w =
  ("", Some ("no image url in response from " ++ uri), w, []).
Proof. intro E. unfold RealClowder.checkCat. rewrite E. reflexivity. Qed.

(** The trace of [checkCat] holds at most the size check of its image. *)
Lemma checkCat_trace (uri : string) (a : catResult) (w : W) :
  trace_of (RealClowder.checkCat uri a w) = []
  \/ trace_of (RealClowder.checkCat uri a w) =
     [IoImageTooBig (Image a) (fst (ImageTooBig (Image a) w))].
Proof.
  destruct (String.eqb_spec (Image a) "") as [E|NE].
  - left. now rewrite checkCat_no_image.
  - right. destruct (ImageTooBig (Image a) w) as [r w'] eqn:T.
    now rewrite (@checkCat_image uri a w w' r NE T).
Qed.

(** On a category that matches, [readCat] goes straight to the grumpy image. *)
Lemma readCat_grumpy (c : realClowder) (category : string) (movieCat : bool) (w : W) :
  MatchString grumpyKeywords category = true ->
  RealClowder.readCat c category movieCat w =
  RealClowder.checkCat (RealClowder.URL c category movieCat) {| Image := grumpyURL |} w.
Proof. intro G. unfold RealClowder.readCat. now rewrite G. Qed.

(** On any other category, [readCat] asks the API first. *)
Lemma readCat_api (c : realClowder) (category : string) (movieCat : bool)
      (w w1 : W) (resp : result http.Response) :
  MatchString grumpyKeywords category = false ->
  http_Get (RealClowder.URL c category movieCat) w = (resp, w1) ->
  let uri := RealClowder.URL c category movieCat in
  RealClowder.readCat c category movieCat w =
  match resp with
  | Err err => ("", Some ("could not read cat from " ++ uri ++ ": " ++ err), w1,
                [IoHTTPGet uri resp])
  | Ok r =>
      if ((299 <? http.StatusCode r) || (http.StatusCode r <? 200))%Z
      then ("", Some ("failing " ++ itoa (http.StatusCode r) ++ " response from " ++ uri),
            w1, [IoHTTPGet uri resp])
      else
        match json_Decode (http.Body r) with
        | Err err => ("", Some err, w1, [IoHTTPGet uri resp])
        | Ok [] => ("", Some ("no cats in response from " ++ uri), w1,
                    [IoHTTPGet uri resp])
        | Ok (a :: _) =>
            let '(x, w2, t) := RealClowder.checkCat uri a w1 in
            (x, w2, IoHTTPGet uri resp :: t)
        end
  end.
Proof.
  intros G R uri. unfold RealClowder.readCat. rewrite G.
  fold uri. unfold bind, RealClowder.Get. fold uri in R. rewrite R.
  destruct resp as [r|err]; [|reflexivity].
  destruct ((299 <? http.StatusCode r) || (http.StatusCode r <? 200))%Z; [reflexivity|].
  destruct (json_Decode (http.Body r)) as [[|a rest]|err]; reflexivity.
Qed.

End WithEnv.
End RetrievalFacts.

Module OverrideFacts.
Import Retrieval RetrievalFacts.

Lemma keyword_text_matches (category : string) :
  keyword_text category -> MatchString grumpyKeywords category = true.
Proof.
  intros (kw & ws & -> & K & A). unfold MatchString.
  rewrite GrumpyFacts.search_unfold.
  rewrite <- (append_nil_r ws), GrumpyFacts.run_grumpy by auto. reflexivity.
Qed.

Section WithEnv.
Context {W : Type} `{Env W}.

Lemma Format_parsed (a : catResult) (printed : string) :
  Image a <> "" ->
  URLParse.Parse (Image a) = Ok printed ->
  RealClowder.Format a = (embed printed, None).
Proof.
  intros NE P. unfold RealClowder.Format.
  destruct (String.eqb_spec (Image a) "") as [E|_]; [contradiction|].
  now rewrite P.
Qed.

Lemma Format_rejected (a : catResult) (err : error) :
  Image a <> "" ->
  URLParse.Parse (Image a) = Err err ->
  RealClowder.Format a = ("", Some ("invalid image url " ++ Image a ++ ": " ++ err)).
Proof.
  intros NE P. unfold RealClowder.Format.
  destruct (String.eqb_spec (Image a) "") as [E|_]; [contradiction|].
  now rewrite P.
Qed.

(** What [readCat] does once the category has matched. *)
Lemma grumpy_run (c : realClowder) (category : string) (movieCat : bool) (w : W) :
  MatchString grumpyKeywords category = true ->
  let out := RealClowder.readCat c category movieCat w in
  trace_of out = [IoImageTooBig grumpyURL (fst (ImageTooBig grumpyURL w))]
  /\ httpGets (trace_of out) = 0
  /\ (fst (ImageTooBig grumpyURL w) = (false, None) ->
      value_of out = RealClowder.Format {| Image := grumpyURL |})
  /\ (fst (ImageTooBig grumpyURL w) <> (false, None) ->
      exists err, value_of out = ("", Some err)).
Proof.
  intros G out. subst out. rewrite (readCat_grumpy c _ movieCat w G).
  destruct (ImageTooBig grumpyURL w) as [r w'] eqn:T.
  assert (NE : Image {| Image := grumpyURL |} <> "") by discriminate.
  rewrite (@checkCat_image _ _ (RealClowder.URL c category movieCat) _ w w' r NE T).
  cbn [fst trace_of value_of snd Image]. repeat split.
  - intros ->. reflexivity.
  - intro D. destruct r as [[] [err|]]; eauto. now contradiction D.
Qed.

(** A size check that says too big is the error [longcat is too long]. *)
Lemma checkCat_too_big (uri u : string) (a : catResult) (w : W) :
  tooBig u (trace_of (RealClowder.checkCat uri a w)) ->
  value_of (RealClowder.checkCat uri a w) = ("", Some ("longcat is too long: " ++ u)).
Proof.
  unfold tooBig. intro I.
  destruct (String.eqb_spec (Image a) "") as [E|NE].
  - rewrite (checkCat_no_image uri a w E) in I. contradiction.
  - destruct (ImageTooBig (Image a) w) as [r w'] eqn:T.
    rewrite (@checkCat_image _ _ uri a w w' r NE T) in *.
    cbn [trace_of snd] in I. destruct I as [I|[]].
    injection I as E1 E2. subst u r. reflexivity.
Qed.

Lemma readCat_too_big (c : realClowder) (category u : string) (movieCat : bool) (w : W) :
  tooBig u (trace_of (RealClowder.readCat c category movieCat w)) ->
  value_of (RealClowder.readCat c category movieCat w)
  = ("", Some ("longcat is too long: " ++ u)).
Proof.
  destruct (MatchString grumpyKeywords category) eqn:G.
  - rewrite (readCat_grumpy c _ movieCat w G). apply checkCat_too_big.
  - destruct (http_Get (RealClowder.URL c category movieCat) w) as [resp w1] eqn:R.
    rewrite (readCat_api c _ movieCat w G R). cbv zeta.
    unfold tooBig.
    destruct resp as [r|err]; [|intros [I|[]]; discriminate].
    destruct (_ || _)%bool; [intros [I|[]]; discriminate|].
    destruct (json_Decode (http.Body r)) as [[|a rest]|err];
      try (intros [I|[]]; discriminate).
    pose proof (@checkCat_too_big (RealClowder.URL c category movieCat) u a w1) as K.
    destruct (RealClowder.checkCat (RealClowder.URL c category movieCat) a w1)
      as [[x w2] t].
    cbn [trace_of value_of fst snd] in *. intros [I|I]; [discriminate|].
    exact (K I).
Qed.

End WithEnv.
End OverrideFacts.

Module PaddingFacts.
Import Grumpy GrumpyFacts.

(** Two ways of cutting one text in two: one cut comes first. *)
Lemma append_split (a : string) :
  forall b x y,
    a ++ x = b ++ y ->
    (exists m, b = a ++ m /\ x = m ++ y) \/ (exists m, a = b ++ m /\ y = m ++ x).
Proof.
  induction a as [|c a IH]; intros b x y E.
  - left. exists b. auto.
  - destruct b as [|d b].
    + right. exists (String c a). auto.
    + simpl in E. injection E as -> E.
      destruct (IH _ _ _ E) as [(m & -> & ->)|(m & -> & ->)];
        [left | right]; exists m; auto.
Qed.

Lemma all_space_app (a b : string) :
  all_space (a ++ b) = all_space a && all_space b.
Proof. induction a as [|c a IH]; simpl; [reflexivity|]. now rewrite IH, andb_assoc. Qed.

(** A keyword starts with a letter. *)
Lemma keyword_starts (kw : string) :
  keyword kw -> exists k t, kw = String k t /\ isSpace k = false.
Proof.
  intros [K|K]; (destruct kw as [|k t]; [discriminate|]); exists k, t;
    (split; [reflexivity|]); simpl in K; injection K as K _;
    destruct k as [[] [] [] [] [] [] [] []]; try reflexivity;
    vm_compute in K; discriminate.
Qed.

(** A keyword at the start of a line, followed by whitespace only, matches. *)
Lemma padded_matches (pre kw ws : string) :
  line_start pre = true -> keyword kw -> all_space ws = true ->
  MatchString grumpyKeywords (pre ++ kw ++ ws) = true.
Proof.
  intros L K A. unfold MatchString. apply search_app.
  rewrite <- (append_nil_r ws). now apply run_grumpy.
Qed.

(** After whitespace that does not end a line, a keyword does not match. *)
Lemma padded_elsewhere (pre kw ws : string) :
  all_space pre = true -> line_start pre = false -> keyword kw ->
  all_space ws = true ->
  MatchString grumpyKeywords (pre ++ kw ++ ws) = false.
Proof.
  intros AP L K A.
  destruct (MatchString grumpyKeywords (pre ++ kw ++ ws)) eqn:M; [exfalso|reflexivity].
  unfold MatchString in M. apply search_inv in M as (a & b & E & R).
  apply run_grumpy_inv in R as (B & kw' & ws' & rest & -> & K' & _ & _).
  destruct (keyword_starts K') as (k & t & -> & NS).
  assert (START : forall m, a = pre ++ m -> m <> "" ->
                            exists m', m = m' ++ String LF "").
  { intros [|c m] -> NE; [contradiction|].
    rewrite last_byte_app in B.
    change (last_byte (last_byte None pre) (String c m))
      with (last_byte None (String c m)) in B.
    destruct (at_bol_last _ B) as [D|D]; [discriminate | exact D]. }
  symmetry in E. apply append_split in E as [(m & E1 & E2)|(m & E1 & E2)].
  - destruct m as [|c m].
    + rewrite append_nil_r in E1. subst a. unfold line_start in L.
      unfold at_bol in B. congruence.
    + simpl in E2. injection E2 as -> _. subst pre.
      rewrite all_space_app in AP. simpl in AP.
      apply andb_true_iff in AP as [_ AP]. apply andb_true_iff in AP as [AP _].
      congruence.
  - destruct (string_dec m "") as [->|NE].
    + rewrite append_nil_r in E1. subst a. unfold line_start in L.
      unfold at_bol in B. congruence.
    + destruct (START m E1 NE) as (m' & ->).
      apply append_split in E2 as [(m2 & E3 & E4)|(m2 & E3 & E4)].
      * subst ws. rewrite all_space_app in A. simpl in A.
        apply andb_true_iff in A as [_ A]. apply andb_true_iff in A as [A _].
        congruence.
      * pose proof (keyword_no_LF kw K) as N. rewrite E3, !no_LF_app in N.
        simpl in N. now rewrite andb_false_r in N.
Qed.

End PaddingFacts.

(** C1, amended: for every category that reads [no] or [grumpy], in any
    case, with whitespace around it, and for every movie flag and cached
    key: when the whitespace before the keyword is empty or ends with a
    line feed, so that the keyword starts a line, [readCat] sends no HTTP
    GET to the image API and runs only the size check of the fixed grumpy
    URL; it returns the embed of that URL, without error, when that check
    reports neither an error nor an oversized image, and an error when it
    does not.  With any other whitespace before the keyword the pattern
    does not match and [readCat] asks the API first. *)
Theorem grumpy_override {W : Type} `{Env W}
        (c : realClowder) (pre kw ws : string) (movieCat : bool) (w : W) :
  Grumpy.all_space pre = true ->
  Grumpy.keyword kw ->
  Grumpy.all_space ws = true ->
  let category := pre ++ kw ++ ws in
  let out := RealClowder.readCat c category movieCat w in
  let check := fst (ImageTooBig grumpyURL w) in
  (Grumpy.line_start pre = true ->
   Retrieval.httpGets (trace_of out) = 0
   /\ trace_of out = [IoImageTooBig grumpyURL check]
   /\ (check = (false, None) -> value_of out = (Retrieval.embed grumpyURL, None))
   /\ (check <> (false, None) -> exists err, value_of out = ("", Some err)))
  /\ (Grumpy.line_start pre = false ->
      MatchString grumpyKeywords category = false
      /\ exists r t,
          trace_of out = IoHTTPGet (RealClowder.URL c category movieCat) r :: t).
Proof.
  intros AP K A category out check. split.
  - intro L.
    destruct (OverrideFacts.grumpy_run c category movieCat w
                (@PaddingFacts.padded_matches pre kw ws L K A)) as (T & G & S & F).
    split; [exact G|]. split; [exact T|]. split; [|exact F].
    intro Z. fold out in S. rewrite (S Z).
    apply OverrideFacts.Format_parsed; [discriminate | reflexivity].
  - intro L. pose proof (@PaddingFacts.padded_elsewhere pre kw ws AP L K A) as G.
    split; [exact G|]. subst out. fold category in G.
    destruct (http_Get (RealClowder.URL c category movieCat) w) as [resp w1] eqn:R.
    rewrite (RetrievalFacts.readCat_api c category movieCat w G R). cbv zeta.
    exists resp.
    destruct resp as [resp|err]; [|eexists; reflexivity].
    destruct ((299 <? http.StatusCode resp) || (http.StatusCode resp <? 200))%Z;
      [eexists; reflexivity|].
    destruct (json_Decode (http.Body resp)) as [[|a rest]|err];
      try (eexists; reflexivity).
    destruct (RealClowder.checkCat (RealClowder.URL c category movieCat) a w1)
      as [[x w2] t].
    eexists; reflexivity.
Qed.

Lemma grumpy_override_witness :
  let pre := String " " (String LF "") in
  let out := @RealClowder.readCat _ Fake.plain meow (pre ++ "GRUMPY" ++ "  ") true
                                  (Fake.offline []) in
  Grumpy.all_space pre = true
  /\ Grumpy.keyword "GRUMPY"
  /\ Grumpy.line_start pre = true
  /\ Retrieval.httpGets (trace_of out) = 0
  /\ value_of out = (Retrieval.embed grumpyURL, None).
Proof.
  intros pre out.
  assert (K : Grumpy.keyword "GRUMPY") by (right; reflexivity).
  destruct (@grumpy_override _ Fake.plain meow pre "GRUMPY" "  " true
              (Fake.offline []) eq_refl K eq_refl) as [P _].
  destruct (P eq_refl) as (G & _ & S & _).
  split; [reflexivity|]. split; [exact K|]. split; [reflexivity|].
  split; [exact G | exact (S eq_refl)].
Defined.

(** C1 as stated fails twice.  A blank before the keyword is whitespace
    that does not end a line: the pattern does not match, the API is
    called, and the call fails without network.  And a category that does
    match still depends on the size check of the grumpy URL, which fails
    without network. *)
Lemma grumpy_claim_fails :
  (MatchString grumpyKeywords " no" = false
   /\ Retrieval.httpGets
        (trace_of (@RealClowder.readCat _ Fake.plain meow " no" false (Fake.offline [])))
      = 1
   /\ snd (value_of (@RealClowder.readCat _ Fake.plain meow " no" false (Fake.offline [])))
      <> None)
  /\ (MatchString grumpyKeywords "grumpy" = true
      /\ snd (value_of (@RealClowder.readCat _ Fake.plain meow "grumpy" false
                                             Fake.unplugged))
         <> None).
Proof. vm_compute. repeat split; discriminate. Qed.

(** C10: a category of several lines, one of which reads [no] or [grumpy]
    in any case followed by whitespace only, matches the pattern whatever
    the other lines hold, and [readCat] takes the grumpy image: it sends no
    HTTP GET to the API, runs the size check on the grumpy URL and hands
    that URL to [Format] when the check passes. *)
Theorem grumpy_line_overrides {W : Type} `{Env W}
        (c : realClowder) (category l : string) (movieCat : bool) (w : W) :
  In l (Grumpy.lines category) ->
  Grumpy.keyword_line l ->
  let out := RealClowder.readCat c category movieCat w in
  MatchString grumpyKeywords category = true
  /\ Retrieval.httpGets (trace_of out) = 0
  /\ trace_of out = [IoImageTooBig grumpyURL (fst (ImageTooBig grumpyURL w))]
  /\ (fst (ImageTooBig grumpyURL w) = (false, None) ->
      value_of out = RealClowder.Format {| Image := grumpyURL |}).
Proof.
  intros I K out.
  pose proof (GrumpyFacts.keyword_line_matches category I K) as G.
  destruct (OverrideFacts.grumpy_run c category movieCat w G) as (T & N & S & _).
  repeat split; assumption.
Qed.

Lemma grumpy_line_overrides_witness :
  let category := "please" ++ String LF "Grumpy " ++ String LF "and anything else" in
  let out := @RealClowder.readCat _ Fake.plain meow category false (Fake.offline []) in
  In "Grumpy " (Grumpy.lines category)
  /\ Grumpy.keyword_line "Grumpy "
  /\ MatchString grumpyKeywords category = true
  /\ Retrieval.httpGets (trace_of out) = 0.
Proof.
  intros category out.
  assert (I : In "Grumpy " (Grumpy.lines category)) by (vm_compute; auto).
  assert (K : Grumpy.keyword_line "Grumpy ").
  { exists "Grumpy", " ". repeat split. right. reflexivity. }
  destruct (@grumpy_line_overrides _ Fake.plain meow category "Grumpy " false
              (Fake.offline []) I K) as (G & N & _).
  split; [exact I|]. split; [exact K|]. split; [exact G | exact N].
Defined.

(** ** URLs that do not parse *)

Module EmbedFacts.
Section WithEnv.
Context {W : Type} `{Env W}.

(** Whatever the rest of [url.Parse] does, a control byte before the
    fragment is an error. *)
Lemma Parse_control_byte (u : string) :
  URLParse.stringContainsCTLByte (fst (URLParse.cut_hash u)) = true ->
  exists err, URLParse.Parse u = Err err.
Proof.
  intro C. unfold URLParse.Parse.
  destruct (URLParse.cut_hash u) as [v frag]. cbn [fst] in C. rewrite C. eauto.
Qed.

(** A scheme is printed in lower case, whatever follows it. *)
Lemma Parse_lowers_scheme (u printed : string) :
  URLParse.Parse u = Ok printed ->
  forall scheme rest,
    URLParse.getScheme (fst (URLParse.cut_hash u)) = Ok (scheme, rest) ->
    scheme <> "" ->
    exists tail, printed = lower scheme ++ ":" ++ tail.
Proof.
  unfold URLParse.Parse. destruct (URLParse.cut_hash u) as [v frag]. cbn [fst].
  destruct (URLParse.stringContainsCTLByte v); [discriminate|].
  intros P scheme rest G NE. rewrite G in P.
  destruct (negb (scheme =? "") && (frag =? "") && URLParse.plain rest).
  { injection P as <-. now exists rest. }
  destruct (url_rest (negb (scheme =? "")) rest frag) as [p|]; [|discriminate].
  injection P as <-. exists p.
  destruct (String.eqb_spec scheme ""); [contradiction|].
  now rewrite append_assoc.
Qed.

(** A line feed is a control byte. *)
Lemma line_feed_is_control (a b : string) :
  URLSpec.all_bytes (fun c => negb (Ascii.eqb c "#")) a = true ->
  URLParse.stringContainsCTLByte (fst (URLParse.cut_hash (a ++ String LF b))) = true.
Proof.
  induction a as [|c a IH]; simpl; intro A.
  - destruct (URLParse.cut_hash b). reflexivity.
  - apply andb_true_iff in A as [A1 A2].
    apply negb_true_iff in A1. rewrite A1. specialize (IH A2).
    destruct (URLParse.cut_hash (a ++ String LF b)) as [v frag]. simpl in *.
    rewrite IH. now rewrite !orb_true_r.
Qed.

(** An image whose URL does not parse is an error of [readCat], even
    after a successful answer and a size check that passes. *)
Lemma api_image_rejected (c : realClowder) (category : string) (movieCat : bool)
      (w w1 w2 : W) (resp : http.Response) (a : catResult)
      (rest : list catResult) (err : error) :
  MatchString grumpyKeywords category = false ->
  http_Get (RealClowder.URL c category movieCat) w = (Ok resp, w1) ->
  (200 <= http.StatusCode resp <= 299)%Z ->
  json_Decode (http.Body resp) = Ok (a :: rest) ->
  Image a <> "" ->
  ImageTooBig (Image a) w1 = ((false, None), w2) ->
  URLParse.Parse (Image a) = Err err ->
  value_of (RealClowder.readCat c category movieCat w)
  = ("", Some ("invalid image url " ++ Image a ++ ": " ++ err)).
Proof.
  intros G R SC D NE T P.
  rewrite (RetrievalFacts.readCat_api c category movieCat w G R). cbv zeta.
  replace ((299 <? http.StatusCode resp) || (http.StatusCode resp <? 200))%Z
    with false by (symmetry; apply orb_false_iff; split; apply Z.ltb_ge; lia).
  rewrite D.
  rewrite (@RetrievalFacts.checkCat_image _ _ (RealClowder.URL c category movieCat)
             a w1 w2 (false, None) NE T).
  cbn [value_of fst snd]. exact (OverrideFacts.Format_rejected a NE P).
Qed.

(** *** What [url.Parse] prints is a single line *)

Lemma control_free_line (u : string) :
  URLParse.stringContainsCTLByte u = false -> single_line u = true.
Proof.
  induction u as [|c u IH]; [reflexivity|]. cbn [URLParse.stringContainsCTLByte single_line].
  intro C. apply orb_false_iff in C as [C1 C2]. rewrite (IH C2), andb_true_r.
  apply orb_false_iff in C1 as [C1 _].
  destruct (Ascii.eqb_spec c "010") as [->|_]; [discriminate C1 | reflexivity].
Qed.

Lemma single_line_lower (s : string) : single_line (lower s) = single_line s.
Proof.
  induction s as [|c s IH]; [reflexivity|]. cbn [lower single_line].
  rewrite IH. f_equal. f_equal. apply GrumpyFacts.toLower_LF.
Qed.

Lemma schemeLoop_parts (s : string) :
  forall first scheme rest,
    URLParse.schemeLoop first s = Some (scheme, rest) ->
    s = scheme ++ String ":" rest.
Proof.
  induction s as [|c s IH]; intros first scheme rest E; [discriminate|].
  cbn [URLParse.schemeLoop] in E.
  destruct (isLower c || isUpper c).
  - destruct (URLParse.schemeLoop false s) as [[sch r]|] eqn:L; [|discriminate].
    injection E as <- <-. simpl. f_equal. exact (IH _ _ _ L).
  - destruct (isDigit c || Ascii.eqb c "+" || Ascii.eqb c "-" || Ascii.eqb c ".").
    + destruct first; [discriminate|].
      destruct (URLParse.schemeLoop false s) as [[sch r]|] eqn:L; [|discriminate].
      injection E as <- <-. simpl. f_equal. exact (IH _ _ _ L).
    + destruct (Ascii.eqb_spec c ":") as [->|_]; [|discriminate].
      destruct first; [discriminate|]. now injection E as <- <-.
Qed.

(** The scheme and what follows it are parts of the text. *)
Lemma getScheme_parts (u scheme rest : string) :
  URLParse.getScheme u = Ok (scheme, rest) ->
  (scheme = "" /\ rest = u) \/ u = scheme ++ String ":" rest.
Proof.
  unfold URLParse.getScheme. destruct u as [|c u]; [intro E; injection E as <- <-; auto|].
  destruct (Ascii.eqb c ":"); [discriminate|].
  destruct (URLParse.schemeLoop true (String c u)) as [[sch r]|] eqn:L; intro E.
  - injection E as <- <-. right. exact (schemeLoop_parts _ _ L).
  - injection E as <- <-. auto.
Qed.

Lemma Parse_single_line (u printed : string) :
  URLParse.Parse u = Ok printed -> single_line printed = true.
Proof.
  unfold URLParse.Parse. destruct (URLParse.cut_hash u) as [v frag].
  destruct (URLParse.stringContainsCTLByte v) eqn:C; [discriminate|].
  apply control_free_line in C.
  destruct (URLParse.getScheme v) as [[scheme rest]|err] eqn:G; [|discriminate].
  assert (P : single_line scheme = true /\ single_line rest = true).
  { destruct (getScheme_parts _ G) as [[E1 E2]|E].
    - subst scheme rest. now split.
    - subst v. rewrite single_line_app in C. apply andb_true_iff in C as [C1 C2].
      simpl in C2. now split. }
  destruct P as [P1 P2].
  destruct (negb (scheme =? "") && (frag =? "") && URLParse.plain rest).
  - intro E. injection E as <-.
    rewrite single_line_app, single_line_lower, P1. exact P2.
  - destruct (url_rest (negb (scheme =? "")) rest frag) as [p|] eqn:R; [|discriminate].
    intro E. injection E as <-.
    rewrite single_line_app, (url_rest_line _ _ _ P2 R), andb_true_r.
    destruct (scheme =? ""); [reflexivity|].
    now rewrite single_line_app, single_line_lower, P1.
Qed.

(** *** Plain URLs are printed as they are *)

Lemma url_char_ok (c : ascii) :
  PlainURL.url_char c = true ->
  Ascii.eqb c "#" = false
  /\ ((N_of_ascii c <? 32)%N || (N_of_ascii c =? 127)%N) = false.
Proof.
  destruct c as [[] [] [] [] [] [] [] []]; vm_compute; intro E;
    (discriminate E || (split; reflexivity)).
Qed.

Lemma cut_hash_none (u : string) :
  URLSpec.all_bytes PlainURL.url_char u = true -> URLParse.cut_hash u = (u, "").
Proof.
  induction u as [|c u IH]; [reflexivity|]. cbn [URLSpec.all_bytes URLParse.cut_hash].
  intro A. apply andb_true_iff in A as [A1 A2].
  destruct (url_char_ok _ A1) as [-> _]. now rewrite (IH A2).
Qed.

Lemma control_free (u : string) :
  URLSpec.all_bytes PlainURL.url_char u = true -> URLParse.stringContainsCTLByte u = false.
Proof.
  induction u as [|c u IH]; [reflexivity|].
  cbn [URLSpec.all_bytes URLParse.stringContainsCTLByte].
  intro A. apply andb_true_iff in A as [A1 A2].
  destruct (url_char_ok _ A1) as [_ ->]. exact (IH A2).
Qed.

Lemma all_bytes_impl (p q : ascii -> bool) (s : string) :
  (forall c, p c = true -> q c = true) ->
  URLSpec.all_bytes p s = true -> URLSpec.all_bytes q s = true.
Proof.
  intros PQ. induction s as [|c s IH]; [reflexivity|]. simpl. intro A.
  apply andb_true_iff in A as [A1 A2]. now rewrite (PQ _ A1), (IH A2).
Qed.

Lemma lower_letters (s : string) :
  URLSpec.all_bytes isLower s = true -> lower s = s.
Proof.
  induction s as [|c s IH]; [reflexivity|]. simpl. intro A.
  apply andb_true_iff in A as [A1 A2]. rewrite (IH A2). f_equal.
  revert A1. destruct c as [[] [] [] [] [] [] [] []]; vm_compute; intro E;
    (discriminate E || reflexivity).
Qed.

Lemma schemeLoop_letters (scheme rest : string) :
  forall first,
    URLSpec.all_bytes isLower scheme = true ->
    (first = true -> scheme <> "") ->
    URLParse.schemeLoop first (scheme ++ String ":" rest) = Some (scheme, rest).
Proof.
  induction scheme as [|c scheme IH]; intros first A NE.
  - destruct first; [now contradiction NE|]. reflexivity.
  - simpl in A. apply andb_true_iff in A as [A1 A2].
    cbn [append URLParse.schemeLoop]. rewrite A1. cbn [orb].
    rewrite (IH false A2); [reflexivity | discriminate].
Qed.

Lemma plainPath_all (p : string) :
  URLSpec.all_bytes (fun c => Escaped.unreserved c || Ascii.eqb c "/") p = true ->
  URLParse.plainPath p = true.
Proof.
  induction p as [|c p IH]; [reflexivity|]. simpl. intro A.
  apply andb_true_iff in A as [A1 A2]. rewrite (IH A2), andb_true_r. exact A1.
Qed.

Lemma unreserved_not_slash (c : ascii) :
  Escaped.unreserved c = true -> Ascii.eqb c "/" = false.
Proof.
  destruct c as [[] [] [] [] [] [] [] []]; vm_compute; intro E;
    (discriminate E || reflexivity).
Qed.

Lemma plainHost_app (host path : string) :
  forall first,
    URLSpec.all_bytes Escaped.unreserved host = true ->
    (first = true -> host <> "") ->
    URLParse.plainHost false path = true ->
    URLParse.plainHost first (host ++ path) = true.
Proof.
  induction host as [|c host IH]; intros first A NE P.
  - destruct first; [now contradiction NE | exact P].
  - simpl in A. apply andb_true_iff in A as [A1 A2].
    cbn [append URLParse.plainHost]. rewrite (unreserved_not_slash _ A1).
    change (URLParse.unreserved c) with (Escaped.unreserved c). rewrite A1.
    apply IH; [exact A2 | discriminate | exact P].
Qed.

(** A plain URL with a scheme in lower case is printed as it was given. *)
Lemma canonical_parse (u : string) :
  PlainURL.canonical u -> URLParse.Parse u = Ok u.
Proof.
  intros (scheme & host & path & -> & NS & AS & NH & AH & PP).
  assert (PATH : URLParse.plainHost false path = true
                 /\ URLSpec.all_bytes PlainURL.url_char path = true).
  { destruct PP as [->|(p & -> & AP)]; [now split|]. split.
    - cbn [URLParse.plainHost]. now rewrite (plainPath_all _ AP).
    - cbn [URLSpec.all_bytes]. apply andb_true_iff. split; [reflexivity|].
      apply (all_bytes_impl _ PlainURL.url_char p) in AP; [exact AP|].
      intros c E. unfold PlainURL.url_char. now rewrite E. }
  assert (CH : URLSpec.all_bytes PlainURL.url_char (scheme ++ "://" ++ host ++ path) = true).
  { rewrite !URLFacts.all_bytes_app.
    rewrite (all_bytes_impl isLower PlainURL.url_char scheme), (proj2 PATH),
      (all_bytes_impl Escaped.unreserved PlainURL.url_char host); auto.
    - intros c E. unfold PlainURL.url_char. now rewrite E.
    - intros c. destruct c as [[] [] [] [] [] [] [] []]; vm_compute; intro E;
        (discriminate E || reflexivity). }
  unfold URLParse.Parse. rewrite (cut_hash_none _ CH), (control_free _ CH).
  assert (G : URLParse.getScheme (scheme ++ "://" ++ host ++ path)
              = Ok (scheme, "//" ++ host ++ path)).
  { unfold URLParse.getScheme. destruct scheme as [|c scheme]; [contradiction|].
    cbn [append]. simpl in AS. apply andb_true_iff in AS as [A1 A2].
    assert (NC : Ascii.eqb c ":" = false).
    { revert A1. destruct c as [[] [] [] [] [] [] [] []]; vm_compute; intro E;
        (discriminate E || reflexivity). }
    rewrite NC.
    change (String c (scheme ++ String ":" (String "/" (String "/" (host ++ path)))))
      with (String c scheme ++ String ":" ("//" ++ host ++ path)).
    rewrite schemeLoop_letters; [reflexivity | | discriminate].
    simpl. now rewrite A1, A2. }
  rewrite G.
  assert (PL : URLParse.plain ("//" ++ host ++ path) = true).
  { cbn [append URLParse.plain Ascii.eqb]. simpl.
    apply plainHost_app; [exact AH | intros _; exact NH | exact (proj1 PATH)]. }
  rewrite PL. destruct (String.eqb_spec scheme "") as [E|_]; [contradiction|].
  cbn [negb String.eqb andb]. now rewrite (lower_letters _ AS).
Qed.

End WithEnv.
End EmbedFacts.

(** C8, amended: for every successful API response whose decoded array
    starts with a non-empty URL that passes the size check and that
    [url.Parse] accepts, [readCat] returns without error the image embed of
    the URL as [url.Parse] prints it, and this embed is a single line.  It
    holds the URL of the response character for character when that URL is
    written [scheme://host] or [scheme://host/path] with a scheme of
    lower-case letters, a host of letters, digits and [-], [_], [.], [~],
    and a path of these bytes and [/]. *)
Theorem api_image_embedded {W : Type} `{Env W}
        (c : realClowder) (category : string) (movieCat : bool)
        (w w1 w2 : W) (resp : http.Response) (a : catResult)
        (rest : list catResult) (printed : string) :
  MatchString grumpyKeywords category = false ->
  http_Get (RealClowder.URL c category movieCat) w = (Ok resp, w1) ->
  (200 <= http.StatusCode resp <= 299)%Z ->
  json_Decode (http.Body resp) = Ok (a :: rest) ->
  Image a <> "" ->
  ImageTooBig (Image a) w1 = ((false, None), w2) ->
  URLParse.Parse (Image a) = Ok printed ->
  let out := RealClowder.readCat c category movieCat w in
  value_of out = (Retrieval.embed printed, None)
  /\ single_line (fst (value_of out)) = true
  /\ (PlainURL.canonical (Image a) ->
      printed = Image a /\ occurs_in (Image a) (fst (value_of out))).
Proof.
  intros G R SC D NE T P out. subst out.
  rewrite (RetrievalFacts.readCat_api c category movieCat w G R). cbv zeta.
  replace ((299 <? http.StatusCode resp) || (http.StatusCode resp <? 200))%Z
    with false by (symmetry; apply orb_false_iff; split; apply Z.ltb_ge; lia).
  rewrite D.
  rewrite (@RetrievalFacts.checkCat_image _ _ (RealClowder.URL c category movieCat)
             a w1 w2 (false, None) NE T).
  cbn [value_of fst snd]. rewrite (OverrideFacts.Format_parsed a NE P).
  split; [reflexivity|]. split.
  - cbn [fst]. unfold Retrieval.embed.
    rewrite !single_line_app, (EmbedFacts.Parse_single_line _ P). reflexivity.
  - intro CA. pose proof (EmbedFacts.canonical_parse CA) as Q.
    rewrite P in Q. injection Q as ->.
    split; [reflexivity|]. exists "![cat image](", ")". reflexivity.
Qed.

Lemma api_image_embedded_witness :
  let out := @RealClowder.readCat _ (Fake.decoding Fake.catURL) meow "boxes" false
                                  (Fake.online Fake.catURL (false, None)) in
  MatchString grumpyKeywords "boxes" = false
  /\ Fake.catURL <> ""
  /\ PlainURL.canonical Fake.catURL
  /\ value_of out = (Retrieval.embed Fake.catURL, None)
  /\ occurs_in Fake.catURL (fst (value_of out))
  /\ single_line (fst (value_of out)) = true.
Proof.
  intro out.
  assert (G : MatchString grumpyKeywords "boxes" = false) by reflexivity.
  assert (NE : Fake.catURL <> "") by discriminate.
  assert (SC : (200 <= 200 <= 299)%Z) by lia.
  assert (CA : PlainURL.canonical Fake.catURL).
  { exists "https", "cdn2.thecatapi.com", "/images/abc.jpg".
    split; [reflexivity|]. split; [discriminate|]. split; [reflexivity|].
    split; [discriminate|]. split; [reflexivity|].
    right. exists "images/abc.jpg". split; reflexivity. }
  destruct (@api_image_embedded _ (Fake.decoding Fake.catURL) meow "boxes" false
              (Fake.online Fake.catURL (false, None))
              {| Fake.clock := []; Fake.files := []; Fake.answers := [];
                 Fake.sizes := [(Fake.catURL, (false, None))] |}
              {| Fake.clock := []; Fake.files := []; Fake.answers := [];
                 Fake.sizes := [(Fake.catURL, (false, None))] |}
              {| http.StatusCode := 200; http.Body := Fake.jsonCats Fake.catURL |}
              {| Image := Fake.catURL |} [] Fake.catURL
              G eq_refl SC eq_refl NE eq_refl eq_refl) as (V & L & O).
  split; [exact G|]. split; [exact NE|]. split; [exact CA|]. split; [exact V|].
  split; [exact (proj2 (O CA)) | exact L].
Defined.

(** C8 as stated fails three times.  On a URL that does not parse: the
    API answers 200 with one image whose URL holds a line feed, the size
    check passes, and [readCat] returns the error of [Format].  On a URL
    with a scheme in upper case: the scheme comes out in lower case, and
    the embed does not hold the URL of the response.  And on a URL that
    ends with [#]: the empty fragment is not printed, and the embed does
    not hold the URL of the response either. *)
Lemma embed_claim_fails :
  (let E := Fake.decoding Fake.brokenURL in
   let w := Fake.online Fake.brokenURL (false, None) in
   let out := @RealClowder.readCat _ E meow "boxes" false w in
   trace_of out =
     [IoHTTPGet (RealClowder.URL meow "boxes" false)
                (Ok {| http.StatusCode := 200;
                       http.Body := Fake.jsonCats Fake.brokenURL |});
      IoImageTooBig Fake.brokenURL (false, None)]
   /\ @json_Decode _ E (Fake.jsonCats Fake.brokenURL) = Ok [{| Image := Fake.brokenURL |}]
   /\ Fake.brokenURL <> ""
   /\ fst (value_of out) = ""
   /\ snd (value_of out) <> None)
  /\ (let E := Fake.decoding Fake.shoutedURL in
      let w := Fake.online Fake.shoutedURL (false, None) in
      let out := @RealClowder.readCat _ E meow "boxes" false w in
      value_of out = (Retrieval.embed Fake.catURL, None)
      /\ ~ occurs_in Fake.shoutedURL (fst (value_of out)))
  /\ (let E := Fake.decoding Fake.anchoredURL in
      let w := Fake.online Fake.anchoredURL (false, None) in
      let out := @RealClowder.readCat _ E meow "boxes" false w in
      value_of out = (Retrieval.embed Fake.catURL, None)
      /\ ~ occurs_in Fake.anchoredURL (fst (value_of out))).
Proof.
  split; [|split].
  - vm_compute. repeat split; discriminate.
  - split; [vm_compute; reflexivity|].
    intro O. apply Contains_occurs in O. vm_compute in O. discriminate.
  - split; [vm_compute; reflexivity|].
    intro O. apply Contains_occurs in O. vm_compute in O. discriminate.
Qed.

(** ** The retry loop *)

Module HandleFacts.
Import Attempts.

Section Loop.
Context {St : Type} {C : clowder St} {P : scmProviderClient St}.
Variable F : string -> string -> string -> string -> string.
Variables (movieCat : bool) (category : string) (e : GenericCommentEvent).

Lemma respond_run (reply : string) (s s1 s2 : St) (quoted : string)
      (perr : option error) :
  QuoteAuthorForComment (Login e) s = (quoted, s1) ->
  CreateComment (Namespace e) (Name e) (Number e) (IsPR e)
                (F (Body e) (Link e) quoted reply) s1 = (perr, s2) ->
  respond F e reply s =
  (perr, s2, [CallQuoteAuthor (Login e) quoted;
              CallCreateComment (Namespace e) (Name e) (Number e) (IsPR e)
                                (F (Body e) (Link e) quoted reply) perr]).
Proof.
  intros Q K. unfold respond, bind, doQuoteAuthor, doCreateComment.
  now rewrite Q, K.
Qed.

(** One iteration whose retrieval fails goes on with the next one. *)
Lemma attempts_step_fail (n : nat) (s s1 : St) (resp : string) (err : error) :
  readCat category movieCat s = ((resp, Some err), s1) ->
  attempts F (S n) movieCat category e s =
  let '(x, s2, t) := attempts F n movieCat category e s1 in
  (x, s2, CallReadCat category movieCat (resp, Some err)
            :: CallLogError "Failed to get cat img" err :: t).
Proof.
  intro R. cbn [attempts]. unfold bind at 1. unfold doReadCat. rewrite R.
  unfold bind at 1. unfold emit.
  destruct (attempts F n movieCat category e s1) as [[x s2] t]. reflexivity.
Qed.

(** One iteration whose retrieval succeeds responds and leaves the loop. *)
Lemma attempts_step_success (n : nat) (s s1 : St) (resp : string) :
  readCat category movieCat s = ((resp, None), s1) ->
  attempts F (S n) movieCat category e s =
  let '(x, s2, t) := respond F e resp s1 in
  (Some x, s2, CallReadCat category movieCat (resp, None) :: t).
Proof.
  intro R. cbn [attempts]. unfold bind at 1. unfold doReadCat. rewrite R.
  unfold bind at 1.
  destruct (respond F e resp s1) as [[x s2] t]. unfold ret.
  now rewrite app_nil_r.
Qed.

(** After [j] failed retrievals the loop is where it would be had it
    started with [j] iterations less, in the state these calls leave. *)
Lemma attempts_after_failures (j : nat) :
  forall (n : nat) (s : St),
    forallb failed (fst (calls j category movieCat s)) = true ->
    attempts F (j + n) movieCat category e s =
    let '(x, s2, t) := attempts F n movieCat category e
                                (snd (calls j category movieCat s)) in
    (x, s2, (loop_trace category movieCat (fst (calls j category movieCat s)) ++ t)%list).
Proof.
  induction j as [|j IH]; intros n s A.
  - simpl. now destruct (attempts F n movieCat category e s) as [[x s2] t].
  - cbn [calls] in *.
    destruct (readCat category movieCat s) as [[resp oerr] s1] eqn:R.
    destruct (calls j category movieCat s1) as [rs s2] eqn:CJ.
    cbn [fst snd forallb] in *. apply andb_true_iff in A as [A1 A2].
    destruct oerr as [err|]; [|discriminate].
    change (S j + n) with (S (j + n)).
    rewrite (attempts_step_fail (j + n) s R), IH by (now rewrite CJ).
    rewrite CJ. cbn [fst snd].
    now destruct (attempts F n movieCat category e s2) as [[x s3] t].
Qed.

Lemma calls_length (n : nat) :
  forall s : St, List.length (fst (calls n category movieCat s)) = n.
Proof.
  induction n as [|n IH]; intro s; [reflexivity|]. cbn [calls].
  destruct (readCat category movieCat s) as [r s1].
  specialize (IH s1). destruct (calls n category movieCat s1) as [rs s2].
  simpl in *. now rewrite IH.
Qed.

Lemma last_three {A : Type} (l : list A) (x a b c d : A) :
  last (x :: l ++ [a; b; c]) d = c.
Proof.
  change (x :: l ++ [a; b; c])%list with ((x :: l) ++ [a; b; c])%list.
  replace ((x :: l) ++ [a; b; c])%list with (((x :: l) ++ [a; b]) ++ [c])%list
    by (rewrite <- app_assoc; reflexivity).
  apply last_last.
Qed.

Lemma retrievals_app (a b : list call) :
  retrievals (a ++ b) = (retrievals a ++ retrievals b)%list.
Proof. apply flat_map_app. Qed.

Lemma comments_app (a b : list call) :
  comments (a ++ b) = (comments a ++ comments b)%list.
Proof. apply flat_map_app. Qed.

Lemma retrievals_loop (rs : list (string * option error)) :
  retrievals (loop_trace category movieCat rs) = rs.
Proof.
  induction rs as [|[resp [err|]] rs IH]; simpl; now rewrite ?IH.
Qed.

Lemma comments_loop (rs : list (string * option error)) :
  comments (loop_trace category movieCat rs) = [].
Proof.
  induction rs as [|[resp [err|]] rs IH]; simpl; now rewrite ?IH.
Qed.

(** The loop calls the retriever at most once for each iteration. *)
Lemma attempts_bound (n : nat) :
  forall s : St,
    List.length (retrievals (trace_of (attempts F n movieCat category e s))) <= n.
Proof.
  induction n as [|n IH]; intro s; [simpl; lia|].
  destruct (readCat category movieCat s) as [[resp [err|]] s1] eqn:R.
  - rewrite (attempts_step_fail n s R). specialize (IH s1).
    destruct (attempts F n movieCat category e s1) as [[x s2] t].
    unfold trace_of in *. simpl in *. lia.
  - rewrite (attempts_step_success n s R).
    destruct (QuoteAuthorForComment (Login e) s1) as [quoted s2] eqn:Q.
    destruct (CreateComment (Namespace e) (Name e) (Number e) (IsPR e)
                            (F (Body e) (Link e) quoted resp) s2) as [perr s3] eqn:K.
    rewrite (respond_run resp s1 Q K). unfold trace_of. simpl. lia.
Qed.

End Loop.
End HandleFacts.

Module HandleRuns.
Import Attempts HandleFacts.

Section Runs.
Context {St : Type} {C : clowder St} {P : scmProviderClient St}.
Variable F : string -> string -> string -> string -> string.
Variables (movieCat : bool) (category : string) (e : GenericCommentEvent).
Variable setKey : St -> St.

Lemma handle_unfold (s : St) :
  handle F movieCat category e setKey s =
  let '(r, s2, t) := attempts F 3 movieCat category e (setKey s) in
  match r with
  | Some x => (x, s2, CallSetKey :: t)
  | None =>
      let '(x, s3, t') := respond F e (fallback category) s2 in
      (Some noValidCat, s3,
       CallSetKey :: (t ++ t' ++ match x with
                                 | Some err => [CallLogError "Failed to leave comment" err]
                                 | None => []
                                 end)%list)
  end.
Proof.
  unfold handle, bind, doSetKey.
  destruct (attempts F 3 movieCat category e (setKey s)) as [[[x|] s2] t].
  - unfold ret. now rewrite app_nil_r.
  - replace (if negb (category =? "") then badCategory else catAPIDown)
      with (fallback category)
      by (unfold fallback; now destruct (category =? "")).
    destruct (respond F e (fallback category) s2) as [[[err|] s3] t'];
      unfold emit, ret; cbn; now rewrite ?app_nil_r.
Qed.

(** The run of [handle] when the call after [j] failures succeeds. *)
Lemma handle_success (s s2 s3 s4 : St) (j : nat) (resp quoted : string)
      (perr : option error) :
  j < 3 ->
  forallb failed (fst (calls j category movieCat (setKey s))) = true ->
  readCat category movieCat (snd (calls j category movieCat (setKey s)))
  = ((resp, None), s2) ->
  QuoteAuthorForComment (Login e) s2 = (quoted, s3) ->
  CreateComment (Namespace e) (Name e) (Number e) (IsPR e)
                (F (Body e) (Link e) quoted resp) s3 = (perr, s4) ->
  handle F movieCat category e setKey s =
  (perr, s4,
   CallSetKey ::
   (loop_trace category movieCat (fst (calls j category movieCat (setKey s)))
    ++ [CallReadCat category movieCat (resp, None);
        CallQuoteAuthor (Login e) quoted;
        CallCreateComment (Namespace e) (Name e) (Number e) (IsPR e)
                          (F (Body e) (Link e) quoted resp) perr])%list).
Proof.
  intros J A R Q K. rewrite handle_unfold.
  replace 3 with (j + S (2 - j)) by lia.
  rewrite (attempts_after_failures F movieCat category e j _ _ A).
  rewrite (attempts_step_success F movieCat category e (2 - j) _ R).
  rewrite (respond_run F e resp s2 Q K). reflexivity.
Qed.

(** The run of [handle] when three calls in a row fail. *)
Lemma handle_exhausted (s s3 s4 : St) (quoted : string) (perr : option error) :
  forallb failed (fst (calls 3 category movieCat (setKey s))) = true ->
  QuoteAuthorForComment (Login e) (snd (calls 3 category movieCat (setKey s)))
  = (quoted, s3) ->
  CreateComment (Namespace e) (Name e) (Number e) (IsPR e)
                (F (Body e) (Link e) quoted (fallback category)) s3 = (perr, s4) ->
  handle F movieCat category e setKey s =
  (Some noValidCat, s4,
   CallSetKey ::
   (loop_trace category movieCat (fst (calls 3 category movieCat (setKey s)))
    ++ [CallQuoteAuthor (Login e) quoted;
        CallCreateComment (Namespace e) (Name e) (Number e) (IsPR e)
                          (F (Body e) (Link e) quoted (fallback category)) perr]
    ++ match perr with
       | Some err => [CallLogError "Failed to leave comment" err]
       | None => []
       end)%list).
Proof.
  intros A Q K. rewrite handle_unfold.
  change 3 with (3 + 0) at 1.
  rewrite (attempts_after_failures F movieCat category e 3 _ _ A).
  cbn [attempts]. unfold ret. rewrite app_nil_r.
  rewrite (respond_run F e (fallback category) _ Q K). reflexivity.
Qed.

(** [handle] never calls the retriever more than three times. *)
Lemma handle_bound (s : St) :
  List.length (retrievals (trace_of (handle F movieCat category e setKey s))) <= 3.
Proof.
  rewrite handle_unfold.
  pose proof (attempts_bound F movieCat category e 3 (setKey s)) as B.
  destruct (attempts F 3 movieCat category e (setKey s)) as [[[x|] s2] t].
  - exact B.
  - destruct (QuoteAuthorForComment (Login e) s2) as [quoted s3] eqn:Q.
    destruct (CreateComment (Namespace e) (Name e) (Number e) (IsPR e)
                (F (Body e) (Link e) quoted (fallback category)) s3) as [perr s4] eqn:K.
    rewrite (respond_run F e (fallback category) s2 Q K).
    unfold trace_of in *. cbn [snd] in *.
    change (retrievals (CallSetKey :: ?l)) with (retrievals l).
    rewrite retrievals_app, length_app.
    destruct perr; simpl; lia.
Qed.

End Runs.
End HandleRuns.

(** C2: [handle] calls the retriever at most three times, whatever the
    retriever is; and when the call that follows [j] failed calls, [j < 3],
    succeeds, [handle] makes exactly these [j + 1] calls, creates exactly
    one comment, the formatted result of that call, and returns what
    creating it returned: no error when the posting call succeeds.  No
    fallback message is posted. *)
Theorem retry_until_success {St : Type} {C : clowder St} {P : scmProviderClient St}
        (F : string -> string -> string -> string -> string)
        (movieCat : bool) (category : string) (e : GenericCommentEvent)
        (setKey : St -> St) (s : St) :
  List.length (Attempts.retrievals
                 (trace_of (handle F movieCat category e setKey s))) <= 3
  /\ forall (j : nat) (resp quoted : string) (perr : option error) (s2 s3 s4 : St),
      j < 3 ->
      forallb Attempts.failed
              (fst (Attempts.calls j category movieCat (setKey s))) = true ->
      readCat category movieCat (snd (Attempts.calls j category movieCat (setKey s)))
      = ((resp, None), s2) ->
      QuoteAuthorForComment (Login e) s2 = (quoted, s3) ->
      CreateComment (Namespace e) (Name e) (Number e) (IsPR e)
                    (F (Body e) (Link e) quoted resp) s3 = (perr, s4) ->
      let out := handle F movieCat category e setKey s in
      Attempts.retrievals (trace_of out)
      = (fst (Attempts.calls j category movieCat (setKey s)) ++ [(resp, None)])%list
      /\ List.length (Attempts.retrievals (trace_of out)) = j + 1
      /\ Attempts.comments (trace_of out) = [(F (Body e) (Link e) quoted resp, perr)]
      /\ (perr = None -> value_of out = None).
Proof.
  split; [apply HandleRuns.handle_bound|].
  intros j resp quoted perr s2 s3 s4 J A R Q K out. subst out.
  rewrite (HandleRuns.handle_success F movieCat category e setKey s J A R Q K).
  unfold trace_of, value_of. cbn [fst snd].
  change (Attempts.retrievals (CallSetKey :: ?l)) with (Attempts.retrievals l).
  change (Attempts.comments (CallSetKey :: ?l)) with (Attempts.comments l).
  rewrite HandleFacts.retrievals_app, HandleFacts.comments_app,
    HandleFacts.retrievals_loop, HandleFacts.comments_loop.
  repeat split.
  - rewrite length_app, HandleFacts.calls_length. reflexivity.
  - auto.
Qed.

Lemma retry_until_success_witness :
  let s := {| Fake.failing := 2; Fake.posted := []; Fake.posting := None |} in
  let out := @handle _ Fake.flaky Fake.github Fake.quoteReply false "" Fake.comment
                     (fun s => s) s in
  2 < 3
  /\ forallb Attempts.failed
             (fst (@Attempts.calls _ Fake.flaky 2 "" false s)) = true
  /\ List.length (Attempts.retrievals (trace_of out)) = 3
  /\ List.length (Attempts.comments (trace_of out)) = 1
  /\ value_of out = None.
Proof.
  intros s out.
  assert (J : 2 < 3) by lia.
  assert (A : forallb Attempts.failed
                      (fst (@Attempts.calls _ Fake.flaky 2 "" false s)) = true)
    by reflexivity.
  destruct (proj2 (@retry_until_success _ Fake.flaky Fake.github Fake.quoteReply
                     false "" Fake.comment (fun s => s) s)
                  2 "![cat image](https://cats.example/1.jpg)" "@alice" None
                  {| Fake.failing := 0; Fake.posted := []; Fake.posting := None |}
                  {| Fake.failing := 0; Fake.posted := []; Fake.posting := None |}
                  {| Fake.failing := 0;
                     Fake.posted :=
                       [Fake.quoteReply "/meow" "https://github.example/5#c1" "@alice"
                                        "![cat image](https://cats.example/1.jpg)"];
                     Fake.posting := None |}
                  J A eq_refl eq_refl eq_refl) as (_ & L & K & V).
  split; [exact J|]. split; [exact A|]. split; [exact L|].
  split; [|exact (V eq_refl)].
  fold out in K. rewrite K. reflexivity.
Defined.

(** C9: when the call that follows [j] failed calls, [j < 3], succeeds and
    creating the comment fails with [err], [handle] returns [err] itself.
    It makes no further retriever call; the only comment is the formatted
    result, no fallback message; and the failure is not turned into the
    error [could not find a valid cat image]. *)
Theorem posting_error_returned {St : Type} {C : clowder St} {P : scmProviderClient St}
        (F : string -> string -> string -> string -> string)
        (movieCat : bool) (category : string) (e : GenericCommentEvent)
        (setKey : St -> St) (s s2 s3 s4 : St)
        (j : nat) (resp quoted : string) (err : error) :
  j < 3 ->
  forallb Attempts.failed
          (fst (Attempts.calls j category movieCat (setKey s))) = true ->
  readCat category movieCat (snd (Attempts.calls j category movieCat (setKey s)))
  = ((resp, None), s2) ->
  QuoteAuthorForComment (Login e) s2 = (quoted, s3) ->
  CreateComment (Namespace e) (Name e) (Number e) (IsPR e)
                (F (Body e) (Link e) quoted resp) s3 = (Some err, s4) ->
  let out := handle F movieCat category e setKey s in
  value_of out = Some err
  /\ List.length (Attempts.retrievals (trace_of out)) = j + 1
  /\ Attempts.comments (trace_of out) = [(F (Body e) (Link e) quoted resp, Some err)]
  /\ last (trace_of out) CallSetKey
     = CallCreateComment (Namespace e) (Name e) (Number e) (IsPR e)
                         (F (Body e) (Link e) quoted resp) (Some err).
Proof.
  intros J A R Q K out. subst out.
  rewrite (HandleRuns.handle_success F movieCat category e setKey s J A R Q K).
  unfold trace_of, value_of. cbn [fst snd].
  change (Attempts.retrievals (CallSetKey :: ?l)) with (Attempts.retrievals l).
  change (Attempts.comments (CallSetKey :: ?l)) with (Attempts.comments l).
  rewrite HandleFacts.retrievals_app, HandleFacts.comments_app,
    HandleFacts.retrievals_loop, HandleFacts.comments_loop.
  repeat split.
  - rewrite length_app, HandleFacts.calls_length. reflexivity.
  - apply HandleFacts.last_three.
Qed.

Lemma posting_error_returned_witness :
  let s := {| Fake.failing := 1; Fake.posted := [];
              Fake.posting := Some "403 Forbidden" |} in
  let out := @handle _ Fake.flaky Fake.github Fake.quoteReply true "boxes" Fake.comment
                     (fun s => s) s in
  1 < 3
  /\ forallb Attempts.failed
             (fst (@Attempts.calls _ Fake.flaky 1 "boxes" true s)) = true
  /\ value_of out = Some "403 Forbidden"
  /\ List.length (Attempts.retrievals (trace_of out)) = 2.
Proof.
  intros s out.
  assert (J : 1 < 3) by lia.
  assert (A : forallb Attempts.failed
                      (fst (@Attempts.calls _ Fake.flaky 1 "boxes" true s)) = true)
    by reflexivity.
  destruct (@posting_error_returned _ Fake.flaky Fake.github Fake.quoteReply
              true "boxes" Fake.comment (fun s => s) s
              {| Fake.failing := 0; Fake.posted := [];
                 Fake.posting := Some "403 Forbidden" |}
              {| Fake.failing := 0; Fake.posted := [];
                 Fake.posting := Some "403 Forbidden" |}
              {| Fake.failing := 0;
                 Fake.posted :=
                   [Fake.quoteReply "/meow" "https://github.example/5#c1" "@alice"
                                    "![cat image](https://cats.example/1.jpg)"];
                 Fake.posting := Some "403 Forbidden" |}
              1 "![cat image](https://cats.example/1.jpg)" "@alice" "403 Forbidden"
              J A eq_refl eq_refl eq_refl) as (V & L & _).
  split; [exact J|]. split; [exact A|]. split; [exact V | exact L].
Defined.

(** C3: when three retriever calls in a row fail, [handle] creates exactly
    one comment, the formatted fallback message: the hint at the list of
    categories when the category argument is not empty, the notice that the
    service appears to be down when it is empty, two different messages.
    It returns the error [could not find a valid cat image] whatever
    creating that comment returned. *)
Theorem fallback_after_three_failures
        {St : Type} {C : clowder St} {P : scmProviderClient St}
        (F : string -> string -> string -> string -> string)
        (movieCat : bool) (category : string) (e : GenericCommentEvent)
        (setKey : St -> St) (s s3 s4 : St) (quoted : string) (perr : option error) :
  forallb Attempts.failed
          (fst (Attempts.calls 3 category movieCat (setKey s))) = true ->
  QuoteAuthorForComment (Login e) (snd (Attempts.calls 3 category movieCat (setKey s)))
  = (quoted, s3) ->
  CreateComment (Namespace e) (Name e) (Number e) (IsPR e)
                (F (Body e) (Link e) quoted (Attempts.fallback category)) s3
  = (perr, s4) ->
  let out := handle F movieCat category e setKey s in
  List.length (Attempts.retrievals (trace_of out)) = 3
  /\ Attempts.comments (trace_of out)
     = [(F (Body e) (Link e) quoted (Attempts.fallback category), perr)]
  /\ value_of out = Some noValidCat
  /\ (category <> "" -> Attempts.fallback category = badCategory)
  /\ (category = "" -> Attempts.fallback category = catAPIDown)
  /\ badCategory <> catAPIDown.
Proof.
  intros A Q K out. subst out.
  rewrite (HandleRuns.handle_exhausted F movieCat category e setKey s A Q K).
  unfold trace_of, value_of. cbn [fst snd].
  change (Attempts.retrievals (CallSetKey :: ?l)) with (Attempts.retrievals l).
  change (Attempts.comments (CallSetKey :: ?l)) with (Attempts.comments l).
  rewrite !HandleFacts.retrievals_app, !HandleFacts.comments_app,
    HandleFacts.retrievals_loop, HandleFacts.comments_loop.
  split; [|split; [|split; [reflexivity|split; [|split]]]].
  - rewrite !length_app, HandleFacts.calls_length. destruct perr; reflexivity.
  - destruct perr; reflexivity.
  - intro NE. unfold Attempts.fallback.
    destruct (String.eqb_spec category ""); [contradiction | reflexivity].
  - intros ->. reflexivity.
  - discriminate.
Qed.

Lemma fallback_after_three_failures_witness :
  let s := {| Fake.failing := 3; Fake.posted := [];
              Fake.posting := Some "502 Bad Gateway" |} in
  let out := @handle _ Fake.flaky Fake.github Fake.quoteReply false "boxes" Fake.comment
                     (fun s => s) s in
  forallb Attempts.failed
          (fst (@Attempts.calls _ Fake.flaky 3 "boxes" false s)) = true
  /\ List.length (Attempts.retrievals (trace_of out)) = 3
  /\ Attempts.comments (trace_of out)
     = [(Fake.quoteReply "/meow" "https://github.example/5#c1" "@alice" badCategory,
         Some "502 Bad Gateway")]
  /\ value_of out = Some noValidCat.
Proof.
  intros s out.
  assert (A : forallb Attempts.failed
                      (fst (@Attempts.calls _ Fake.flaky 3 "boxes" false s)) = true)
    by reflexivity.
  destruct (@fallback_after_three_failures _ Fake.flaky Fake.github Fake.quoteReply
              false "boxes" Fake.comment (fun s => s) s
              {| Fake.failing := 0; Fake.posted := [];
                 Fake.posting := Some "502 Bad Gateway" |}
              {| Fake.failing := 0;
                 Fake.posted :=
                   [Fake.quoteReply "/meow" "https://github.example/5#c1" "@alice"
                                    badCategory];
                 Fake.posting := Some "502 Bad Gateway" |}
              "@alice" (Some "502 Bad Gateway") A eq_refl eq_refl)
    as (L & K & V & _).
  split; [exact A|]. split; [exact L|]. split; [exact K | exact V].
Defined.

Module RetryFacts.
Import Attempts HandleFacts HandleRuns.

Section Runs.
Context {St : Type} {C : clowder St} {P : scmProviderClient St}.
Variable F : string -> string -> string -> string -> string.
Variables (movieCat : bool) (category : string) (e : GenericCommentEvent).
Variable setKey : St -> St.

(** One more call after [j] calls. *)
Lemma calls_snoc (j : nat) :
  forall s : St,
    calls (S j) category movieCat s =
    let (rs, sj) := calls j category movieCat s in
    let (r, s') := readCat category movieCat sj in
    ((rs ++ [r])%list, s').
Proof.
  induction j as [|j IH]; intro s.
  - cbn [calls]. now destruct (readCat category movieCat s).
  - change (calls (S (S j)) category movieCat s)
      with (let (r, s1) := readCat category movieCat s in
            let (rs, s2) := calls (S j) category movieCat s1 in
            (r :: rs, s2)).
    destruct (readCat category movieCat s) as [r s1] eqn:R.
    rewrite IH. cbn [calls]. rewrite R.
    destruct (calls j category movieCat s1) as [rs sj].
    now destruct (readCat category movieCat sj).
Qed.

(** A loop with an iteration left calls the retriever. *)
Lemma attempts_calls_once (n : nat) (s : St) :
  1 <= List.length
         (retrievals (trace_of (attempts F (S n) movieCat category e s))).
Proof.
  destruct (readCat category movieCat s) as [[resp [err|]] s1] eqn:R.
  - rewrite (attempts_step_fail F movieCat category e n s R).
    destruct (attempts F n movieCat category e s1) as [[x s2] t].
    unfold trace_of. simpl. lia.
  - rewrite (attempts_step_success F movieCat category e n s R).
    destruct (respond F e resp s1) as [[x s2] t].
    unfold trace_of. simpl. lia.
Qed.

(** After [j] failed calls, [handle] has logged each of them and goes on:
    with another call when [j < 3], with the fallback when [j = 3]. *)
Lemma handle_after_failures (j : nat) (s : St) :
  j <= 3 ->
  forallb failed (fst (calls j category movieCat (setKey s))) = true ->
  exists t,
    trace_of (handle F movieCat category e setKey s)
    = CallSetKey
        :: (loop_trace category movieCat (fst (calls j category movieCat (setKey s)))
            ++ t)%list
    /\ (j < 3 -> 1 <= List.length (retrievals t))
    /\ (j = 3 -> value_of (handle F movieCat category e setKey s) = Some noValidCat).
Proof.
  intros J A. rewrite handle_unfold.
  pose proof (attempts_after_failures F movieCat category e j (3 - j) (setKey s) A)
    as AF.
  replace (j + (3 - j)) with 3 in AF by lia. rewrite AF. clear AF.
  pose proof (attempts_calls_once (2 - j) (snd (calls j category movieCat (setKey s))))
    as ONCE.
  destruct (Nat.eq_dec j 3) as [->|NE].
  - cbn [Nat.sub attempts]. unfold ret.
    destruct (respond F e (fallback category) _) as [[x s3] t'].
    eexists. split; [unfold trace_of; cbn [snd]; rewrite app_nil_r; reflexivity|].
    split; [lia | reflexivity].
  - replace (3 - j) with (S (2 - j)) by lia.
    destruct (attempts F (S (2 - j)) movieCat category e _)
      as [[[x|] s2] t0]; unfold trace_of in ONCE; cbn [snd] in ONCE.
    + exists t0. split; [reflexivity|]. split; [auto | lia].
    + destruct (respond F e (fallback category) s2) as [[x s3] t'].
      eexists. split; [unfold trace_of; cbn [snd]; rewrite <- app_assoc; reflexivity|].
      split; [|lia]. intros _. rewrite retrievals_app, length_app. lia.
Qed.

End Runs.
End RetryFacts.

(** C7: whenever the size check reports an image as too big, [readCat]
    returns the error [longcat is too long: ] followed by the URL of the
    image, a message that holds the URL and the words [too long]; and
    [handle] takes this failure like any other one: it logs the error and,
    unless this was the third call, calls the retriever again rather than
    returning; after the third call it posts the fallback. *)
Theorem oversized_image_retried {W : Type} `{Env W} :
  (forall (c : realClowder) (category u : string) (movieCat : bool) (w : W),
      Retrieval.tooBig u (trace_of (RealClowder.readCat c category movieCat w)) ->
      value_of (RealClowder.readCat c category movieCat w)
      = ("", Some ("longcat is too long: " ++ u))
      /\ Contains ("longcat is too long: " ++ u) u = true
      /\ Contains ("longcat is too long: " ++ u) "too long" = true)
  /\ (forall (P : scmProviderClient (Sys W))
             (F : string -> string -> string -> string -> string)
             (name arg keyPath : string) (e : GenericCommentEvent)
             (s : Sys W) (j : nat) (u : string),
         let movieCat := name =? "meowvie" in
         let s1 := meowSetKey keyPath s in
         let sj := snd (Attempts.calls j arg movieCat s1) in
         j < 3 ->
         forallb Attempts.failed (fst (Attempts.calls j arg movieCat s1)) = true ->
         Retrieval.tooBig
           u (trace_of (RealClowder.readCat (cat sj) arg movieCat (world sj))) ->
         let out := handleGenericComment F name arg keyPath e s in
         nth_error (Attempts.retrievals (trace_of out)) j
         = Some ("", Some ("longcat is too long: " ++ u))
         /\ In (CallLogError "Failed to get cat img" ("longcat is too long: " ++ u))
               (trace_of out)
         /\ (j < 2 -> j + 2 <= List.length (Attempts.retrievals (trace_of out)))
         /\ (j = 2 -> value_of out = Some noValidCat)).
Proof.
  split.
  - intros c category u movieCat w T.
    split; [exact (OverrideFacts.readCat_too_big c category u movieCat w T)|].
    split; apply Contains_occurs.
    + exists "longcat is too long: ", "". now rewrite append_nil_r.
    + exists "longcat is ", (": " ++ u). reflexivity.
  - intros P F name arg keyPath e s j u movieCat s1 sj J A T out.
    pose proof (OverrideFacts.readCat_too_big (cat sj) arg u movieCat (world sj) T) as V.
    pose proof (RetryFacts.calls_snoc movieCat arg j s1) as SN.
    fold sj in SN.
    destruct (Attempts.calls j arg movieCat s1) as [rs sj0] eqn:CJ.
    cbn [fst snd] in A. subst sj. cbn [snd] in *.
    assert (R : fst (readCat arg movieCat sj0)
                = ("", Some ("longcat is too long: " ++ u))).
    { cbn [readCat realClowder_clowder].
      destruct (RealClowder.readCat (cat sj0) arg movieCat (world sj0)) as [[r w'] t].
      exact V. }
    destruct (readCat arg movieCat sj0) as [r s'] eqn:RC. cbn [fst] in R. subst r.
    assert (A' : forallb Attempts.failed
                         (fst (Attempts.calls (S j) arg movieCat s1)) = true).
    { rewrite SN. cbn [fst]. rewrite forallb_app, A. reflexivity. }
    destruct (@RetryFacts.handle_after_failures _ _ P F movieCat arg e
                (meowSetKey keyPath) (S j) s J A') as (t & TR & MORE & LAST).
    fold s1 in TR. rewrite SN in TR. cbn [fst] in TR.
    unfold out, handleGenericComment. fold movieCat. rewrite TR.
    change (Attempts.retrievals (CallSetKey :: ?l)) with (Attempts.retrievals l).
    rewrite HandleFacts.retrievals_app, HandleFacts.retrievals_loop.
    assert (LJ : List.length rs = j).
    { pose proof (HandleFacts.calls_length movieCat arg j s1) as L.
      now rewrite CJ in L. }
    split; [|split; [|split]].
    + rewrite <- app_assoc, nth_error_app2 by lia.
      rewrite LJ, Nat.sub_diag. reflexivity.
    + right. apply in_or_app. left. unfold Attempts.loop_trace.
      rewrite flat_map_app. apply in_or_app. right. simpl. auto.
    + intro J2. rewrite !length_app, LJ. simpl. specialize (MORE ltac:(lia)). lia.
    + intro J2. apply LAST. lia.
Qed.

Lemma oversized_image_retried_witness :
  let E := Fake.decoding Fake.catURL in
  let s1 := @meowSetKey _ E "" Fake.oversized in
  let out := @handleGenericComment _ E Fake.silent Fake.quoteReply
                                   "meow" "" "" Fake.comment Fake.oversized in
  0 < 3
  /\ Retrieval.tooBig
       Fake.catURL
       (trace_of (@RealClowder.readCat _ E (cat s1) "" false (world s1)))
  /\ nth_error (Attempts.retrievals (trace_of out)) 0
     = Some ("", Some ("longcat is too long: " ++ Fake.catURL))
  /\ 2 <= List.length (Attempts.retrievals (trace_of out)).
Proof.
  intros E s1 out.
  assert (J : 0 < 3) by lia.
  assert (T : Retrieval.tooBig
                Fake.catURL
                (trace_of (@RealClowder.readCat _ E (cat s1) "" false (world s1)))).
  { vm_compute. right. left. reflexivity. }
  destruct (proj2 (@oversized_image_retried _ E) Fake.silent Fake.quoteReply
                  "meow" "" "" Fake.comment Fake.oversized 0 Fake.catURL
                  J eq_refl T) as (N & _ & M & _).
  split; [exact J|]. split; [exact T|]. split; [exact N|].
  exact (M ltac:(lia)).
Defined.

(** * Further properties *)

(** ** What one retrieval does *)

Module FootprintFacts.
Import Retrieval Footprint RetrievalFacts.

Section WithEnv.
Context {W : Type} `{Env W}.

(** [checkCat] fails with an empty text, or has seen the size check pass
    and returns the embed of the parsed URL. *)
Lemma checkCat_outcome (uri : string) (a : catResult) (w : W) :
  match value_of (RealClowder.checkCat uri a w) with
  | (text, Some _) => text = ""
  | (text, None) =>
      Image a <> ""
      /\ In (IoImageTooBig (Image a) (false, None))
            (trace_of (RealClowder.checkCat uri a w))
      /\ exists printed,
          URLParse.Parse (Image a) = Ok printed /\ text = embed printed
  end.
Proof.
  destruct (String.eqb_spec (Image a) "") as [E|NE].
  - now rewrite (checkCat_no_image uri a w E).
  - destruct (ImageTooBig (Image a) w) as [r w'] eqn:T.
    rewrite (@checkCat_image _ _ uri a w w' r NE T).
    cbn [value_of trace_of fst snd].
    destruct r as [[] [err|]]; try reflexivity.
    unfold RealClowder.Format.
    destruct (String.eqb_spec (Image a) "") as [E|_]; [contradiction|].
    destruct (URLParse.Parse (Image a)) as [printed|err]; [|reflexivity].
    split; [exact NE|]. split; [now left|]. now exists printed.
Qed.

(** The shapes of the trace of [checkCat]. *)
Lemma checkCat_footprint (uri : string) (a : catResult) (w : W) :
  trace_of (RealClowder.checkCat uri a w) = []
  \/ exists r, trace_of (RealClowder.checkCat uri a w) = [IoImageTooBig (Image a) r]
               /\ Image a <> "".
Proof.
  destruct (String.eqb_spec (Image a) "") as [E|NE].
  - left. now rewrite (checkCat_no_image uri a w E).
  - right. destruct (ImageTooBig (Image a) w) as [r w'] eqn:T.
    rewrite (@checkCat_image _ _ uri a w w' r NE T). now exists r.
Qed.

Lemma status_in_range (sc : Z) :
  ((299 <? sc) || (sc <? 200))%Z = false -> (200 <= sc <= 299)%Z.
Proof. intro E. apply orb_false_iff in E as [A B]. apply Z.ltb_ge in A, B. lia. Qed.

End WithEnv.
End FootprintFacts.

(** X1: a retrieval that returns an error returns the empty text with it;
    a retrieval that succeeds has seen the size check pass, without error,
    on a non-empty URL that is the fixed grumpy URL (category matched) or
    the first URL of the decoded array of a 2xx answer (category not
    matched), and it returns the embed of that URL as [url.Parse] prints
    it. *)
Theorem readCat_outcome {W : Type} `{Env W}
        (c : realClowder) (category : string) (movieCat : bool) (w : W) :
  let out := RealClowder.readCat c category movieCat w in
  match value_of out with
  | (text, Some _) => text = ""
  | (text, None) =>
      exists u printed,
        Footprint.origin c category movieCat w u
        /\ u <> ""
        /\ In (IoImageTooBig u (false, None)) (trace_of out)
        /\ URLParse.Parse u = Ok printed
        /\ text = Retrieval.embed printed
  end.
Proof.
  intro out. subst out.
  destruct (MatchString grumpyKeywords category) eqn:G.
  - rewrite (RetrievalFacts.readCat_grumpy c category movieCat w G).
    pose proof (FootprintFacts.checkCat_outcome
                  (RealClowder.URL c category movieCat) {| Image := grumpyURL |} w) as O.
    destruct (value_of (RealClowder.checkCat _ _ w)) as [text [err|]]; [exact O|].
    destruct O as (NE & I & printed & P & T).
    exists grumpyURL, printed.
    split; [left; split; [exact G | reflexivity]|]. auto.
  - destruct (http_Get (RealClowder.URL c category movieCat) w) as [resp w1] eqn:R.
    rewrite (RetrievalFacts.readCat_api c category movieCat w G R). cbv zeta.
    destruct resp as [resp|err]; [|reflexivity].
    destruct ((299 <? http.StatusCode resp) || (http.StatusCode resp <? 200))%Z eqn:SC;
      [reflexivity|].
    destruct (json_Decode (http.Body resp)) as [[|a rest]|err] eqn:D; try reflexivity.
    pose proof (FootprintFacts.checkCat_outcome
                  (RealClowder.URL c category movieCat) a w1) as O.
    destruct (RealClowder.checkCat (RealClowder.URL c category movieCat) a w1)
      as [[[text oerr] w2] t].
    cbn [value_of trace_of fst snd] in *.
    destruct oerr as [err|]; [exact O|].
    destruct O as (NE & I & printed & P & T).
    exists (Image a), printed.
    split; [|split; [exact NE|split; [now right|split; [exact P | exact T]]]].
    right. split; [exact G|].
    exists resp, w1, a, rest.
    split; [exact R|]. split; [exact (FootprintFacts.status_in_range _ SC)|].
    split; [exact D | reflexivity].
Qed.

(** X2: a retrieval sends no HTTP GET to the image API exactly when some
    line of the category reads [no] or [grumpy], in any case, followed by
    whitespace only; on every other category it sends exactly one. *)
Theorem api_called_unless_keyword_line {W : Type} `{Env W}
        (c : realClowder) (category : string) (movieCat : bool) (w : W) :
  let t := trace_of (RealClowder.readCat c category movieCat w) in
  (Retrieval.httpGets t = 0
   <-> exists l, In l (Grumpy.lines category) /\ Grumpy.keyword_line l)
  /\ (Retrieval.httpGets t = 0 \/ Retrieval.httpGets t = 1).
Proof.
  intro t. subst t.
  destruct (MatchString grumpyKeywords category) eqn:G.
  - destruct (OverrideFacts.grumpy_run c category movieCat w G) as (_ & N & _).
    split; [|now left]. split; [|intros _; exact N].
    intros _. now apply GrumpyFacts.grumpy_match_iff.
  - assert (ONE : Retrieval.httpGets
                    (trace_of (RealClowder.readCat c category movieCat w)) = 1).
    { destruct (http_Get (RealClowder.URL c category movieCat) w) as [resp w1] eqn:R.
      rewrite (RetrievalFacts.readCat_api c category movieCat w G R). cbv zeta.
      destruct resp as [resp|err]; [|reflexivity].
      destruct ((299 <? http.StatusCode resp) || (http.StatusCode resp <? 200))%Z;
        [reflexivity|].
      destruct (json_Decode (http.Body resp)) as [[|a rest]|err]; try reflexivity.
      destruct (FootprintFacts.checkCat_footprint
                  (RealClowder.URL c category movieCat) a w1) as [E|(r & E & _)];
        destruct (RealClowder.checkCat (RealClowder.URL c category movieCat) a w1)
        as [[x w2] t]; cbn [trace_of snd] in *; subst t; reflexivity. }
    split; [|now right]. rewrite ONE. split; [discriminate|].
    intro K. apply GrumpyFacts.grumpy_match_iff in K. congruence.
Qed.

(** X3: a retrieval makes at most one HTTP GET, for the URL that [URL]
    builds from the category, the cached key and the movie flag, and at
    most one size check, which comes after the GET when there is one and
    only follows an answer; on a category that matches it is the size
    check of the grumpy URL alone.  It reads no clock and no file and logs
    nothing. *)
Theorem readCat_footprint {W : Type} `{Env W}
        (c : realClowder) (category : string) (movieCat : bool) (w : W) :
  let t := trace_of (RealClowder.readCat c category movieCat w) in
  let uri := RealClowder.URL c category movieCat in
  (exists r, t = [IoImageTooBig grumpyURL r])
  \/ (exists r, t = [IoHTTPGet uri r])
  \/ (exists resp u r, t = [IoHTTPGet uri (Ok resp); IoImageTooBig u r] /\ u <> "").
Proof.
  intros t uri. subst t uri.
  destruct (MatchString grumpyKeywords category) eqn:G.
  - left. destruct (OverrideFacts.grumpy_run c category movieCat w G) as (T & _).
    eauto.
  - right.
    destruct (http_Get (RealClowder.URL c category movieCat) w) as [resp w1] eqn:R.
    rewrite (RetrievalFacts.readCat_api c category movieCat w G R). cbv zeta.
    destruct resp as [resp|err]; [|left; eexists; reflexivity].
    destruct ((299 <? http.StatusCode resp) || (http.StatusCode resp <? 200))%Z;
      [left; eexists; reflexivity|].
    destruct (json_Decode (http.Body resp)) as [[|a rest]|err];
      try (left; eexists; reflexivity).
    destruct (FootprintFacts.checkCat_footprint
                (RealClowder.URL c category movieCat) a w1) as [E|(r & E & NE)];
      destruct (RealClowder.checkCat (RealClowder.URL c category movieCat) a w1)
      as [[x w2] t]; cbn [trace_of snd] in *; subst t.
    + left. eexists. reflexivity.
    + right. exists resp, (Image a), r. auto.
Qed.

(** ** Request URLs and their parameters *)

Module EscapedFacts.
Import URLEscape URLSpec Escaped URLFacts.

Lemma unescape_head_escape (c : ascii) (rest : string) :
  unescape_head (escape_byte c ++ rest) = Some (c, rest).
Proof. destruct c as [[] [] [] [] [] [] [] []]; reflexivity. Qed.

Lemma escape_byte_head (c : ascii) :
  exists h tl, escape_byte c = String h tl /\ query_safe h = true.
Proof.
  pose proof (escape_byte_safe c) as S.
  destruct (escape_byte c) as [|h tl] eqn:E.
  - pose proof (unescape_head_escape c "") as U. rewrite E in U. discriminate.
  - simpl in S. apply andb_true_iff in S as [S _]. eauto.
Qed.

Lemma escaped_not_next (c : ascii) (x t : string) :
  next_parameter t -> t <> escape_byte c ++ x.
Proof.
  destruct (escape_byte_head c) as (h & tl & E & S). rewrite E.
  intros [->|(t' & ->)]; [discriminate|].
  simpl. intros [= <- _]. discriminate.
Qed.

(** Two escaped values followed by further parameters are equal only when
    the values and what follows are. *)
Lemma QueryEscape_tail_inj (a : string) :
  forall b t1 t2,
    next_parameter t1 -> next_parameter t2 ->
    QueryEscape a ++ t1 = QueryEscape b ++ t2 ->
    a = b /\ t1 = t2.
Proof.
  induction a as [|c a IH]; intros [|d b] t1 t2 N1 N2 E; simpl in E.
  - auto.
  - rewrite append_assoc in E. now apply escaped_not_next in E.
  - rewrite append_assoc in E. symmetry in E. now apply escaped_not_next in E.
  - rewrite !append_assoc in E.
    apply (f_equal unescape_head) in E. rewrite !unescape_head_escape in E.
    injection E as -> E. destruct (IH _ _ _ N1 N2 E) as [-> ->]. auto.
Qed.

Lemma QueryEscape_inj (a b : string) : QueryEscape a = QueryEscape b -> a = b.
Proof.
  intro E.
  apply (@QueryEscape_tail_inj a b "" ""); try (now left).
  now rewrite !append_nil_r.
Qed.

Lemma append_inv_head (a x y : string) : a ++ x = a ++ y -> x = y.
Proof. induction a as [|c a IH]; simpl; [auto|]. intros [= E]. auto. Qed.

(** The text [URL] builds, part by part. *)
Lemma URL_parts (c : realClowder) (category : string) (movieCat : bool) :
  RealClowder.URL c category movieCat =
  url c
  ++ param (negb (category =? "")) ("&category=" ++ QueryEscape category)
  ++ param (negb (key c =? "")) ("&api_key=" ++ QueryEscape (key c))
  ++ param movieCat "&mime_types=gif".
Proof.
  unfold RealClowder.URL, param.
  destruct (category =? ""), (key c =? ""), movieCat; cbn [negb];
    rewrite ?append_assoc, ?append_nil_r; reflexivity.
Qed.

Lemma all_bytes_weaken (p q : ascii -> bool) (s : string) :
  (forall c, p c = true -> q c = true) ->
  all_bytes p s = true -> all_bytes q s = true.
Proof.
  intro PQ. induction s as [|c s IH]; simpl; [auto|]. intro A.
  apply andb_true_iff in A as [A1 A2]. now rewrite (PQ _ A1), (IH A2).
Qed.

Lemma count_app (p : ascii -> bool) (a b : string) :
  count p (a ++ b) = count p a + count p b.
Proof. induction a as [|c a IH]; simpl; [reflexivity|]. rewrite IH. lia. Qed.

Lemma count_none (p q : ascii -> bool) (s : string) :
  (forall c, p c = true -> q c = false) ->
  all_bytes p s = true -> count q s = 0.
Proof.
  intro PQ. induction s as [|c s IH]; simpl; [auto|]. intro A.
  apply andb_true_iff in A as [A1 A2]. now rewrite (PQ _ A1), (IH A2).
Qed.

Lemma safe_not_amp (c : ascii) : query_safe c = true -> is_amp c = false.
Proof. destruct c as [[] [] [] [] [] [] [] []]; vm_compute; congruence. Qed.

Lemma safe_not_equals (c : ascii) : query_safe c = true -> is_equals c = false.
Proof. destruct c as [[] [] [] [] [] [] [] []]; vm_compute; congruence. Qed.

Lemma safe_url_byte (c : ascii) : query_safe c = true -> url_byte c = true.
Proof. unfold url_byte. now intros ->. Qed.

End EscapedFacts.

(** X4: for a given cache, [URL] sends different categories and different
    movie flags to different request URLs: no escaped category reads as
    another category, and none reads as the start of the key or of the
    format parameter. *)
Theorem URL_injective (c : realClowder) (a b : string) (m1 m2 : bool) :
  RealClowder.URL c a m1 = RealClowder.URL c b m2 -> a = b /\ m1 = m2.
Proof.
  rewrite !EscapedFacts.URL_parts. intro E.
  apply EscapedFacts.append_inv_head in E.
  set (K := param (negb (key c =? "")) ("&api_key=" ++ URLEscape.QueryEscape (key c))) in *.
  assert (NK : forall m, Escaped.next_parameter (K ++ param m "&mime_types=gif")).
  { intro m. unfold K, param.
    destruct (negb (key c =? "")); [right; simpl; eauto|].
    destruct m; [right; simpl; eauto | now left]. }
  assert (M : forall x y, K ++ param x "&mime_types=gif" = K ++ param y "&mime_types=gif"
                          -> x = y).
  { intros x y Q. apply EscapedFacts.append_inv_head in Q.
    destruct x, y; try reflexivity; discriminate. }
  assert (CAT : forall s m t, K ++ param m "&mime_types=gif"
                              <> "&category=" ++ URLEscape.QueryEscape s ++ t).
  { intros s m t. unfold K, param.
    destruct (negb (key c =? "")); [discriminate|].
    destruct m; discriminate. }
  destruct (String.eqb_spec a "") as [->|NA], (String.eqb_spec b "") as [->|NB];
    cbn [negb param] in E.
  - split; [reflexivity | exact (M _ _ E)].
  - rewrite append_assoc in E. now apply CAT in E.
  - rewrite append_assoc in E. symmetry in E. now apply CAT in E.
  - rewrite !append_assoc in E. apply (EscapedFacts.append_inv_head "&category=") in E.
    destruct (@EscapedFacts.QueryEscape_tail_inj a b _ _ (NK m1) (NK m2) E) as [-> Q].
    split; [reflexivity | exact (M _ _ Q)].
Qed.

(** X5: what [URL] appends to the base endpoint holds only unreserved
    bytes, [+], [%], [&] and [=], whatever bytes the category and the key
    hold, and it holds as many [&] and as many [=] as there are parameters:
    a category or a key cannot end the URL, add a line or add a parameter
    of its own. *)
Theorem URL_parameters_safe (c : realClowder) (category : string) (movieCat : bool) :
  exists suffix,
    RealClowder.URL c category movieCat = url c ++ suffix
    /\ URLSpec.all_bytes Escaped.url_byte suffix = true
    /\ Escaped.count Escaped.is_amp suffix = Escaped.parameters c category movieCat
    /\ Escaped.count Escaped.is_equals suffix = Escaped.parameters c category movieCat.
Proof.
  eexists. split; [apply EscapedFacts.URL_parts|].
  pose proof (URLFacts.QueryEscape_safe category) as SC.
  pose proof (URLFacts.QueryEscape_safe (key c)) as SK.
  unfold Escaped.parameters, param.
  rewrite !URLFacts.all_bytes_app, !EscapedFacts.count_app.
  destruct (negb (category =? "")), (negb (key c =? "")), movieCat;
    rewrite ?URLFacts.all_bytes_app, ?EscapedFacts.count_app;
    rewrite ?(EscapedFacts.all_bytes_weaken _ _ _ EscapedFacts.safe_url_byte SC),
      ?(EscapedFacts.all_bytes_weaken _ _ _ EscapedFacts.safe_url_byte SK),
      ?(EscapedFacts.count_none _ _ _ EscapedFacts.safe_not_amp SC),
      ?(EscapedFacts.count_none _ _ _ EscapedFacts.safe_not_amp SK),
      ?(EscapedFacts.count_none _ _ _ EscapedFacts.safe_not_equals SC),
      ?(EscapedFacts.count_none _ _ _ EscapedFacts.safe_not_equals SK);
    repeat split; reflexivity.
Qed.

Lemma URL_injective_witness :
  RealClowder.URL meow "boxes" true = RealClowder.URL meow "boxes" true
  /\ "boxes" = "boxes" /\ true = true.
Proof.
  assert (E : RealClowder.URL meow "boxes" true = RealClowder.URL meow "boxes" true)
    by reflexivity.
  split; [exact E | exact (@URL_injective meow "boxes" "boxes" true true E)].
Defined.

(** ** The cache between refreshes *)

Module CacheFacts.
Import Refresh WindowFacts.

Section WithEnv.
Context {W : Type} `{Env W}.

(** The start of an invocation is one of its clock readings. *)
Lemma started_in_events (c : realClowder) (keyPath : string) (w : W) :
  In (started (trace_of (RealClowder.setKey c keyPath w)))
     (clockReadings (trace_of (RealClowder.setKey c keyPath w))).
Proof.
  destruct (setKey_trace c keyPath w)
    as (t1 & ST & [[_ E]|[_ (t2 & rest & E & _)]]);
    rewrite E; unfold started, trace_of; simpl; auto.
Qed.

Lemma started_in_readings (paths : list string) :
  forall (c : realClowder) (w : W) (b : invocation),
    In b (fst (fst (setKeys paths c w))) ->
    In (started (events b)) (readings (fst (fst (setKeys paths c w)))).
Proof.
  induction paths as [|p ps IH]; intros c w b I; [contradiction|].
  rewrite setKeys_cons in *. unfold readings. simpl flat_map.
  rewrite clockReadings_app. apply in_or_app.
  destruct I as [<-|I]; [left; apply started_in_events | right; now apply IH].
Qed.

(** The deadline an invocation finds is the one the run started with, or
    one minute after an earlier clock reading. *)
Lemma deadline_source (paths : list string) :
  forall (c : realClowder) (w : W) (pre post : list invocation) (b : invocation),
    fst (fst (setKeys paths c w)) = (pre ++ b :: post)%list ->
    update (before b) = update c
    \/ exists r, In r (readings pre) /\ update (before b) = (r + Minute)%Z.
Proof.
  induction paths as [|p ps IH]; intros c w pre post b E.
  - destruct pre; discriminate.
  - rewrite setKeys_cons in E. destruct pre as [|a pre].
    + injection E as <- _. now left.
    + injection E as <- E.
      destruct (IH _ _ _ _ _ E) as [U|(r & I & U)].
      * rewrite U.
        destruct (setKey_trace c p w)
          as (t1 & _ & [[_ Q]|[_ (t2 & rest & Q & _ & D & _)]]).
        -- left. now rewrite Q.
        -- right. exists t2. split; [|exact D].
           unfold readings. simpl. rewrite clockReadings_app, Q. simpl. auto.
      * right. exists r. split; [|exact U].
        unfold readings in *. simpl. rewrite clockReadings_app.
        apply in_or_app. now right.
Qed.

(** An invocation that starts no later than the deadline the run started
    with finds the cache the run started with. *)
Lemma limited_run (paths : list string) :
  forall (c : realClowder) (w : W) (b : invocation),
    monotonic (readings (fst (fst (setKeys paths c w)))) ->
    In b (fst (fst (setKeys paths c w))) ->
    (started (events b) <= update c)%Z ->
    before b = c.
Proof.
  induction paths as [|p ps IH]; intros c w b MO I L; [contradiction|].
  pose proof (started_in_readings _ _ _ _ I) as SR.
  rewrite setKeys_cons in MO, I.
  destruct I as [<-|I]; [reflexivity|].
  pose proof (started_in_readings _ _ _ _ I) as SB.
  unfold readings in MO. simpl flat_map in MO. rewrite clockReadings_app in MO.
  destruct (setKey_trace c p w)
    as (t1 & ST & [[A Q]|[A (t2 & rest & Q & _)]]).
  - rewrite Q in I. unfold value_of, state_of in I. cbn [fst snd] in I.
    eapply IH; eauto. rewrite Q in MO. unfold value_of, state_of. cbn [fst snd].
    exact (monotonic_app_r _ _ MO).
  - exfalso. rewrite Q in MO. simpl in MO.
    inversion MO as [|? ? _ F]. rewrite Forall_forall in F.
    assert (LE : (t1 <= started (events b))%Z).
    { apply F. right. apply in_or_app. right. exact SB. }
    unfold After in A. apply Z.ltb_lt in A. lia.
Qed.

End WithEnv.
End CacheFacts.

(** X6: the cache cannot stay stale: in any sequence of [setKey]
    invocations, one that starts after the deadline the sequence began with
    and more than a minute after every earlier clock reading is not rate
    limited; it reads the key file when its key path is not empty. *)
Theorem refresh_after_quiet_minute {W : Type} `{Env W}
        (paths : list string) (c : realClowder) (w : W)
        (pre post : list Refresh.invocation) (b : Refresh.invocation) :
  fst (fst (Refresh.setKeys paths c w)) = (pre ++ b :: post)%list ->
  (update c < Refresh.started (Refresh.events b))%Z ->
  (forall r, In r (Refresh.readings pre) ->
             (r + Minute < Refresh.started (Refresh.events b))%Z) ->
  After (Refresh.started (Refresh.events b)) (update (Refresh.before b)) = true
  /\ Refresh.fileReads (Refresh.events b) = if Refresh.path b =? "" then 0 else 1.
Proof.
  intros E U Q.
  assert (A : After (Refresh.started (Refresh.events b))
                    (update (Refresh.before b)) = true).
  { unfold After. apply Z.ltb_lt.
    destruct (CacheFacts.deadline_source paths c w pre post b E) as [->|(r & I & ->)];
      [exact U | exact (Q r I)]. }
  split; [exact A|].
  assert (I : In b (fst (fst (Refresh.setKeys paths c w))))
    by (rewrite E; apply in_or_app; right; now left).
  rewrite (OncePerWindow.reads_of_invocation _ _ _ _ I), A.
  now destruct (Refresh.path b =? "").
Qed.

Lemma refresh_after_quiet_minute_witness :
  let run := fst (fst (@Refresh.setKeys _ Fake.plain
                         [Fake.keyFile; Fake.keyFile; Fake.keyFile] meow
                         (Fake.keyed Fake.burst))) in
  let b := nth 2 run {| Refresh.before := meow; Refresh.path := "";
                        Refresh.events := [] |} in
  run = (firstn 2 run ++ [b])%list
  /\ (update meow < Refresh.started (Refresh.events b))%Z
  /\ Refresh.fileReads (Refresh.events b) = 1.
Proof.
  intros run b.
  assert (E : run = (firstn 2 run ++ b :: [])%list) by reflexivity.
  assert (U : (update meow < Refresh.started (Refresh.events b))%Z) by reflexivity.
  assert (Q : forall r, In r (Refresh.readings (firstn 2 run)) ->
                        (r + Minute < Refresh.started (Refresh.events b))%Z).
  { intros r I. vm_compute in I.
    repeat (destruct I as [<-|I]; [reflexivity|]). contradiction. }
  split; [exact E|]. split; [exact U|].
  exact (proj2 (@refresh_after_quiet_minute _ Fake.plain
                  [Fake.keyFile; Fake.keyFile; Fake.keyFile] meow
                  (Fake.keyed Fake.burst) (firstn 2 run) [] b E U Q)).
Defined.

(** X7: for one minute after a refresh the cache is frozen: with a clock
    that never runs backwards, an invocation that starts no later than one
    minute after the start of an invocation that was not rate limited finds
    the cache, key and deadline, exactly as that invocation left it,
    whatever has happened to the key file or the key path since. *)
Theorem cache_frozen_within_window {W : Type} `{Env W}
        (paths : list string) (c : realClowder) (w : W)
        (i j : nat) (a a' b : Refresh.invocation) :
  let run := fst (fst (Refresh.setKeys paths c w)) in
  Refresh.monotonic (Refresh.readings run) ->
  nth_error run i = Some a ->
  nth_error run (S i) = Some a' ->
  nth_error run j = Some b ->
  i < j ->
  After (Refresh.started (Refresh.events a)) (update (Refresh.before a)) = true ->
  (Refresh.started (Refresh.events b)
   <= Refresh.started (Refresh.events a) + Minute)%Z ->
  Refresh.before b = Refresh.before a'.
Proof.
  cbv zeta. revert c w i j.
  induction paths as [|p ps IH]; intros c w i j MO Ia Ia' Ib LT A WIN.
  - destruct i; discriminate.
  - rewrite WindowFacts.setKeys_cons in MO, Ia, Ia', Ib.
    unfold Refresh.readings in MO. simpl flat_map in MO.
    rewrite WindowFacts.clockReadings_app in MO.
    pose proof (WindowFacts.monotonic_app_r _ _ MO) as MO'.
    destruct j as [|j]; [lia|]. cbn [nth_error] in Ia', Ib.
    destruct i as [|i].
    + cbn [nth_error] in Ia. injection Ia as <-.
      cbn [Refresh.events Refresh.before] in *.
      destruct (WindowFacts.setKey_trace c p w)
        as (t1 & ST & [[A' _]|[_ (t2 & rest & Q & NR & U & _)]]);
        [rewrite ST in A; congruence|].
      assert (LE : (t1 <= t2)%Z).
      { rewrite Q in MO. simpl in MO. rewrite NR in MO. simpl in MO.
        inversion MO as [|? ? _ F]. now inversion F. }
      assert (Ba' : Refresh.before a' = value_of (RealClowder.setKey c p w)).
      { destruct ps as [|p' ps']; [discriminate|].
        rewrite WindowFacts.setKeys_cons in Ia'. now injection Ia' as <-. }
      rewrite Ba'.
      eapply CacheFacts.limited_run;
        [exact MO' | eapply nth_error_In; exact Ib | rewrite U; lia].
    + cbn [nth_error] in Ia. eapply (IH _ _ i j); eauto. lia.
Qed.

Lemma cache_frozen_within_window_witness :
  let run := fst (fst (@Refresh.setKeys _ Fake.plain
                         [Fake.keyFile; ""; Fake.keyFile] meow
                         (Fake.keyed Fake.calm))) in
  let dummy := {| Refresh.before := meow; Refresh.path := ""; Refresh.events := [] |} in
  Refresh.monotonic (Refresh.readings run)
  /\ key (Refresh.before (nth 1 run dummy)) = "s3cr3t"
  /\ Refresh.before (nth 2 run dummy) = Refresh.before (nth 1 run dummy).
Proof.
  intros run dummy.
  assert (MO : Refresh.monotonic (Refresh.readings run)).
  { unfold Refresh.monotonic. vm_compute Refresh.readings.
    repeat constructor; lia. }
  split; [exact MO|]. split; [reflexivity|].
  refine (@cache_frozen_within_window _ Fake.plain
            [Fake.keyFile; ""; Fake.keyFile] meow (Fake.keyed Fake.calm)
            0 2 (nth 0 run dummy) (nth 1 run dummy) (nth 2 run dummy)
            MO eq_refl eq_refl eq_refl _ eq_refl _); [lia|].
  vm_compute. discriminate.
Defined.

(** ** The key a refresh stores *)

Module KeyFacts.
Import GoTrim TrimSpec TrimFacts Runes.

Lemma prefix_common (p : string) :
  forall q x y, p ++ x = q ++ y -> prefix p q = true \/ prefix q p = true.
Proof.
  induction p as [|a p IH]; intros q x y E.
  - left. now destruct q.
  - destruct q as [|b q]; [now right|].
    simpl in E. injection E as -> E. simpl.
    destruct (ascii_dec b b); [|congruence]. exact (IH _ _ _ E).
Qed.

Lemma prefix_free_unique (runes : list string) (p q x y : string) :
  prefix_free runes = true ->
  In p runes -> In q runes -> p ++ x = q ++ y -> p = q.
Proof.
  unfold prefix_free. rewrite forallb_forall. intros PF Ip Iq E.
  pose proof (PF _ Ip) as Fp. pose proof (PF _ Iq) as Fq.
  rewrite forallb_forall in Fp, Fq.
  specialize (Fp _ Iq). specialize (Fq _ Ip).
  destruct (prefix_common _ _ _ _ E) as [P|P]; rewrite P in *;
    rewrite orb_false_r in *.
  - now apply String.eqb_eq.
  - symmetry. now apply String.eqb_eq.
Qed.

Lemma strip_any_first (runes : list string) (r s : string) :
  prefix_free runes = true -> In r runes ->
  strip_any runes (r ++ s) = Some s.
Proof.
  intros PF I.
  destruct (strip_any runes (r ++ s)) as [s'|] eqn:E.
  - destruct (strip_any_some _ _ E) as (p & Ip & Q).
    pose proof (prefix_free_unique runes r p s s' PF I Ip Q) as <-.
    f_equal. symmetry. exact (EscapedFacts.append_inv_head _ _ _ Q).
  - exfalso. exact (@strip_any_none runes (r ++ s) E r s I eq_refl).
Qed.

(** A run of runes is trimmed away. *)
Lemma trim_left_run_of (runes : list string) (s : string) :
  prefix_free runes = true ->
  (forall r, In r runes -> r <> "") ->
  run_of runes s ->
  forall fuel, String.length s <= fuel -> trim_left runes fuel s = "".
Proof.
  intros PF NE R. induction R as [|r s I R IH]; intros fuel L.
  - destruct fuel as [|fuel]; [reflexivity|]. simpl.
    destruct (strip_any runes "") as [s'|] eqn:E; [|reflexivity].
    destruct (strip_any_some _ _ E) as (p & Ip & Q).
    destruct p; [now contradiction (NE _ Ip) | discriminate].
  - destruct fuel as [|fuel].
    + destruct r; [now contradiction (NE _ I) | simpl in L; lia].
    + simpl. rewrite (strip_any_first _ _ _ PF I). apply IH.
      rewrite length_append in L. specialize (NE _ I).
      destruct r; [congruence | simpl in L; lia].
Qed.

Lemma TrimSpace_blank (s : string) : run_of spaceRunes s -> TrimSpace s = "".
Proof.
  intro R. unfold TrimSpace, TrimLeftSpace.
  rewrite (@trim_left_run_of spaceRunes s eq_refl spaceRunes_nonempty R);
    [reflexivity | lia].
Qed.

End KeyFacts.

(** X8: after a refresh that read the key file, the cached key is the
    content of the file without a run of white space at each end, and the
    key neither starts nor ends with white space, where white space is any
    rune of [unicode.IsSpace]. *)
Theorem refreshed_key_trimmed {W : Type} `{Env W}
        (c : realClowder) (keyPath b : string)
        (w w1 w2 w3 : W) (t1 t2 : Z) :
  time_Now w = (t1, w1) ->
  After t1 (update c) = true ->
  time_Now w1 = (t2, w2) ->
  keyPath <> "" ->
  os_ReadFile keyPath w2 = (Ok b, w3) ->
  let k := key (value_of (RealClowder.setKey c keyPath w)) in
  (exists l r, b = l ++ k ++ r
               /\ TrimSpec.run_of GoTrim.spaceRunes l
               /\ TrimSpec.run_of GoTrim.spaceRunes r)
  /\ TrimSpec.starts_with_none GoTrim.spaceRunes k
  /\ TrimSpec.ends_with_none GoTrim.spaceRunes k.
Proof.
  intros N1 A N2 NE R k. subst k.
  rewrite (RefreshFacts.setKey_due c keyPath _ N1 A N2 R).
  destruct (String.eqb_spec keyPath ""); [contradiction|].
  cbn [value_of fst key with_key]. apply TrimFacts.TrimSpace_spec.
Qed.

Lemma refreshed_key_trimmed_witness :
  let w := Fake.keyed [5; 6]%Z in
  let k := key (value_of (@RealClowder.setKey _ Fake.plain meow Fake.keyFile w)) in
  After 5 (update meow) = true
  /\ Fake.keyFile <> ""
  /\ k = "s3cr3t"
  /\ TrimSpec.starts_with_none GoTrim.spaceRunes k
  /\ TrimSpec.ends_with_none GoTrim.spaceRunes k.
Proof.
  intros w k.
  assert (NE : Fake.keyFile <> "") by discriminate.
  destruct (@refreshed_key_trimmed _ Fake.plain meow Fake.keyFile
              ("  s3cr3t " ++ String Regexp.LF EmptyString)
              w (Fake.keyed [6]%Z) (Fake.keyed []) (Fake.keyed []) 5%Z 6%Z
              eq_refl eq_refl eq_refl NE eq_refl) as (_ & S & E).
  split; [reflexivity|]. split; [exact NE|]. split; [reflexivity|].
  split; [exact S | exact E].
Defined.

(** X9: a key file that holds white space only gives an empty key: after
    the refresh the request URL carries no [api_key] parameter, as if no
    key path were configured. *)
Theorem blank_key_file_is_keyless {W : Type} `{Env W}
        (c : realClowder) (keyPath b : string)
        (w w1 w2 w3 : W) (t1 t2 : Z) :
  time_Now w = (t1, w1) ->
  After t1 (update c) = true ->
  time_Now w1 = (t2, w2) ->
  keyPath <> "" ->
  os_ReadFile keyPath w2 = (Ok b, w3) ->
  TrimSpec.run_of GoTrim.spaceRunes b ->
  let c' := value_of (RealClowder.setKey c keyPath w) in
  key c' = ""
  /\ forall category movieCat,
      RealClowder.URL c' category movieCat =
      url c
      ++ param (negb (category =? "")) ("&category=" ++ URLEscape.QueryEscape category)
      ++ param movieCat "&mime_types=gif".
Proof.
  intros N1 A N2 NE R B c'. subst c'.
  rewrite (RefreshFacts.setKey_due c keyPath _ N1 A N2 R).
  destruct (String.eqb_spec keyPath ""); [contradiction|].
  cbn [value_of fst]. rewrite (KeyFacts.TrimSpace_blank B).
  split; [reflexivity|]. intros category movieCat.
  rewrite EscapedFacts.URL_parts. reflexivity.
Qed.

Lemma blank_key_file_is_keyless_witness :
  let w := Fake.blankKey [5; 6]%Z in
  let c' := value_of (@RealClowder.setKey _ Fake.plain meow Fake.keyFile w) in
  After 5 (update meow) = true
  /\ Fake.keyFile <> ""
  /\ TrimSpec.run_of GoTrim.spaceRunes (GoTrim.bytes [32; 9; 13; 10; 194; 160; 10]%N)
  /\ key c' = "".
Proof.
  intros w c'.
  assert (NE : Fake.keyFile <> "") by discriminate.
  assert (B : TrimSpec.run_of GoTrim.spaceRunes
                (GoTrim.bytes [32; 9; 13; 10; 194; 160; 10]%N)).
  { change (GoTrim.bytes [32; 9; 13; 10; 194; 160; 10]%N)
      with (GoTrim.bytes [32]%N ++ GoTrim.bytes [9]%N ++ GoTrim.bytes [13]%N
            ++ GoTrim.bytes [10]%N ++ GoTrim.bytes [194; 160]%N
            ++ GoTrim.bytes [10]%N ++ "").
    repeat (constructor; [vm_compute; tauto|]). constructor. }
  destruct (@blank_key_file_is_keyless _ Fake.plain meow Fake.keyFile
              (GoTrim.bytes [32; 9; 13; 10; 194; 160; 10]%N)
              w (Fake.blankKey [6]%Z) (Fake.blankKey []) (Fake.blankKey []) 5%Z 6%Z
              eq_refl eq_refl eq_refl NE eq_refl B) as (K & _).
  split; [reflexivity|]. split; [exact NE|]. split; [exact B | exact K].
Defined.

(** ** Every run of the handler *)

Module ShapeFacts.
Import Attempts HandleFacts HandleRuns RetryFacts HandleTrace.

Section Runs.
Context {St : Type} {C : clowder St} {P : scmProviderClient St}.
Variable F : string -> string -> string -> string -> string.
Variables (movieCat : bool) (category : string) (e : GenericCommentEvent).
Variable setKey : St -> St.

(** Among [n] successive calls there is a first one that succeeds, or all
    of them fail. *)
Lemma calls_split (n : nat) :
  forall s : St,
    forallb failed (fst (calls n category movieCat s)) = true
    \/ exists j resp s2,
        j < n
        /\ forallb failed (fst (calls j category movieCat s)) = true
        /\ readCat category movieCat (snd (calls j category movieCat s))
           = ((resp, None), s2).
Proof.
  induction n as [|n IH]; intro s; [now left|].
  destruct (IH s) as [A|(j & resp & s2 & J & A & R)].
  - destruct (readCat category movieCat (snd (calls n category movieCat s)))
      as [[resp [err|]] s2] eqn:R.
    + left. rewrite (calls_snoc movieCat category n s).
      destruct (calls n category movieCat s) as [rs sj]. cbn [fst snd] in *.
      rewrite R. cbn [fst]. now rewrite forallb_app, A.
    + right. exists n, resp, s2. auto.
  - right. exists j, resp, s2. auto.
Qed.

(** Every run of [handle] is a run that ends on a success or a run that
    ends on the fallback. *)
Lemma handle_shape (s : St) :
  (exists j resp quoted perr,
      j < 3
      /\ forallb failed (fst (calls j category movieCat (setKey s))) = true
      /\ value_of (handle F movieCat category e setKey s) = perr
      /\ trace_of (handle F movieCat category e setKey s)
         = CallSetKey
             :: (loop_trace category movieCat
                            (fst (calls j category movieCat (setKey s)))
                 ++ tail_of_success F movieCat category e resp quoted perr)%list)
  \/ (exists quoted perr,
         forallb failed (fst (calls 3 category movieCat (setKey s))) = true
         /\ value_of (handle F movieCat category e setKey s) = Some noValidCat
         /\ trace_of (handle F movieCat category e setKey s)
            = CallSetKey
                :: (loop_trace category movieCat
                               (fst (calls 3 category movieCat (setKey s)))
                    ++ tail_of_fallback F category e quoted perr)%list).
Proof.
  destruct (calls_split 3 (setKey s)) as [A|(j & resp & s2 & J & A & R)].
  - right.
    destruct (QuoteAuthorForComment
                (Login e) (snd (calls 3 category movieCat (setKey s))))
      as [quoted s3] eqn:Q.
    destruct (CreateComment (Namespace e) (Name e) (Number e) (IsPR e)
                (F (Body e) (Link e) quoted (fallback category)) s3)
      as [perr s4] eqn:K.
    exists quoted, perr.
    rewrite (handle_exhausted F movieCat category e setKey s A Q K). auto.
  - left.
    destruct (QuoteAuthorForComment (Login e) s2) as [quoted s3] eqn:Q.
    destruct (CreateComment (Namespace e) (Name e) (Number e) (IsPR e)
                (F (Body e) (Link e) quoted resp) s3) as [perr s4] eqn:K.
    exists j, resp, quoted, perr.
    rewrite (handle_success F movieCat category e setKey s J A R Q K). auto.
Qed.

Lemma logged_app (msg : string) (a b : list call) :
  logged msg (a ++ b) = (logged msg a ++ logged msg b)%list.
Proof. apply flat_map_app. Qed.

Lemma logged_loop (rs : list (string * option error)) :
  logged "Failed to get cat img" (loop_trace category movieCat rs) = errors rs.
Proof.
  induction rs as [|[resp [err|]] rs IH]; simpl; now rewrite ?IH.
Qed.

Lemma not_logged_loop (rs : list (string * option error)) :
  logged "Failed to leave comment" (loop_trace category movieCat rs) = [].
Proof.
  induction rs as [|[resp [err|]] rs IH]; simpl; now rewrite ?IH.
Qed.

Lemma errors_app (a b : list (string * option error)) :
  errors (a ++ b) = (errors a ++ errors b)%list.
Proof. apply flat_map_app. Qed.

Lemma addressed_loop (rs : list (string * option error)) :
  forallb (addressed e) (loop_trace category movieCat rs) = true.
Proof.
  induction rs as [|[resp [err|]] rs IH]; simpl; now rewrite ?IH.
Qed.

Lemma asks_loop (rs : list (string * option error)) :
  forallb (asks category movieCat) (loop_trace category movieCat rs) = true.
Proof.
  induction rs as [|[resp [err|]] rs IH]; simpl;
    now rewrite ?String.eqb_refl, ?Bool.eqb_reflx, ?IH.
Qed.

Lemma setKeyCalls_loop (rs : list (string * option error)) :
  filter is_setKey (loop_trace category movieCat rs) = [].
Proof.
  induction rs as [|[resp [err|]] rs IH]; simpl; now rewrite ?IH.
Qed.

Lemma posts_loop (rs : list (string * option error)) :
  posts (loop_trace category movieCat rs) = [].
Proof.
  unfold posts. induction rs as [|[resp [err|]] rs IH]; simpl; now rewrite ?IH.
Qed.

Lemma addressed_event :
  (Namespace e =? Namespace e) && (Name e =? Name e) && (Number e =? Number e)%Z
  && Bool.eqb (IsPR e) (IsPR e) = true.
Proof. now rewrite !String.eqb_refl, Z.eqb_refl, Bool.eqb_reflx. Qed.

End Runs.
End ShapeFacts.

(** X10: whatever the retriever and the code host do, a run of [handle]
    quotes an author once and creates exactly one comment.  The author it
    asks the code host to quote is the author of the event; the comment
    goes to the issue or pull request of the event, and its text is the
    response that [FormatResponseRaw] builds from the body and the link of
    the event, the author as the code host quoted it, and a reply.  The
    reply is the image of the last retrieval when that retrieval
    succeeded, and the fallback message of the category after three
    retrievals that all failed: never both and never none. *)
Theorem handle_posts_once {St : Type} {C : clowder St} {P : scmProviderClient St}
        (F : string -> string -> string -> string -> string)
        (movieCat : bool) (category : string) (e : GenericCommentEvent)
        (setKey : St -> St) (s : St) :
  let t := trace_of (handle F movieCat category e setKey s) in
  exists quoted reply perr,
    HandleTrace.posts t
    = [CallQuoteAuthor (Login e) quoted;
       CallCreateComment (Namespace e) (Name e) (Number e) (IsPR e)
                         (F (Body e) (Link e) quoted reply) perr]
    /\ Attempts.comments t = [(F (Body e) (Link e) quoted reply, perr)]
    /\ ((last (Attempts.retrievals t) ("", Some noValidCat) = (reply, None))
        \/ (forallb Attempts.failed (Attempts.retrievals t) = true
            /\ List.length (Attempts.retrievals t) = 3
            /\ reply = Attempts.fallback category)).
Proof.
  intro t. subst t.
  destruct (ShapeFacts.handle_shape F movieCat category e setKey s)
    as [(j & resp & quoted & perr & _ & _ & _ & ->)|(quoted & perr & A & _ & ->)].
  - exists quoted, resp, perr.
    change (Attempts.comments (CallSetKey :: ?l)) with (Attempts.comments l).
    change (Attempts.retrievals (CallSetKey :: ?l)) with (Attempts.retrievals l).
    change (HandleTrace.posts (CallSetKey :: ?l)) with (HandleTrace.posts l).
    unfold HandleTrace.posts at 1. rewrite filter_app.
    fold (HandleTrace.posts (Attempts.loop_trace category movieCat
                               (fst (Attempts.calls j category movieCat (setKey s))))).
    rewrite ShapeFacts.posts_loop.
    rewrite HandleFacts.comments_app, HandleFacts.comments_loop,
      HandleFacts.retrievals_app, HandleFacts.retrievals_loop.
    split; [reflexivity|]. split; [reflexivity|].
    left. apply last_last.
  - exists quoted, (Attempts.fallback category), perr.
    change (Attempts.comments (CallSetKey :: ?l)) with (Attempts.comments l).
    change (Attempts.retrievals (CallSetKey :: ?l)) with (Attempts.retrievals l).
    change (HandleTrace.posts (CallSetKey :: ?l)) with (HandleTrace.posts l).
    unfold HandleTrace.posts at 1. rewrite filter_app.
    fold (HandleTrace.posts (Attempts.loop_trace category movieCat
                               (fst (Attempts.calls 3 category movieCat (setKey s))))).
    rewrite ShapeFacts.posts_loop.
    rewrite HandleFacts.comments_app, HandleFacts.comments_loop,
      HandleFacts.retrievals_app, HandleFacts.retrievals_loop.
    split; [destruct perr; reflexivity|]. split; [destruct perr; reflexivity|].
    right.
    assert (N : Attempts.retrievals (HandleTrace.tail_of_fallback F category e quoted perr)
                = []) by (destruct perr; reflexivity).
    rewrite N, app_nil_r. split; [exact A|]. split; [|reflexivity].
    apply HandleFacts.calls_length.
Qed.

(** X11: a run of [handle] calls the refresh callback exactly once, before
    anything else; it then calls the retriever at least once, and every
    retriever call asks for the category and the movie flag [handle] was
    given. *)
Theorem handle_refreshes_first {St : Type} {C : clowder St} {P : scmProviderClient St}
        (F : string -> string -> string -> string -> string)
        (movieCat : bool) (category : string) (e : GenericCommentEvent)
        (setKey : St -> St) (s : St) :
  exists t',
    trace_of (handle F movieCat category e setKey s) = CallSetKey :: t'
    /\ HandleTrace.setKeyCalls t' = 0
    /\ 1 <= List.length (Attempts.retrievals t')
    /\ forallb (HandleTrace.asks category movieCat) t' = true.
Proof.
  destruct (ShapeFacts.handle_shape F movieCat category e setKey s)
    as [(j & resp & quoted & perr & _ & _ & _ & ->)|(quoted & perr & _ & _ & ->)];
    eexists; (split; [reflexivity|]); unfold HandleTrace.setKeyCalls;
    rewrite filter_app, ShapeFacts.setKeyCalls_loop, HandleFacts.retrievals_app,
      HandleFacts.retrievals_loop, forallb_app, ShapeFacts.asks_loop.
  - simpl. rewrite String.eqb_refl, Bool.eqb_reflx, !length_app. simpl.
    repeat split; lia.
  - rewrite !length_app, HandleFacts.calls_length.
    destruct perr; simpl; repeat split; lia.
Qed.

(** X12: [handle] returns no error only when the last retriever call
    succeeded and the comment with its result was created without error. *)
Theorem handle_nil_means_posted {St : Type} {C : clowder St} {P : scmProviderClient St}
        (F : string -> string -> string -> string -> string)
        (movieCat : bool) (category : string) (e : GenericCommentEvent)
        (setKey : St -> St) (s : St) :
  let out := handle F movieCat category e setKey s in
  value_of out = None ->
  exists resp quoted,
    last (Attempts.retrievals (trace_of out)) ("", Some noValidCat) = (resp, None)
    /\ Attempts.comments (trace_of out) = [(F (Body e) (Link e) quoted resp, None)].
Proof.
  intros out V. subst out.
  destruct (ShapeFacts.handle_shape F movieCat category e setKey s)
    as [(j & resp & quoted & perr & _ & _ & VP & T)|(quoted & perr & _ & VN & _)];
    [|congruence].
  rewrite V in VP. subst perr. rewrite T. exists resp, quoted.
  change (Attempts.retrievals (CallSetKey :: ?l)) with (Attempts.retrievals l).
  change (Attempts.comments (CallSetKey :: ?l)) with (Attempts.comments l).
  rewrite HandleFacts.retrievals_app, HandleFacts.comments_app,
    HandleFacts.retrievals_loop, HandleFacts.comments_loop.
  split; [apply last_last | reflexivity].
Qed.

Lemma handle_nil_means_posted_witness :
  let s := {| Fake.failing := 2; Fake.posted := []; Fake.posting := None |} in
  let out := @handle _ Fake.flaky Fake.github Fake.quoteReply false "" Fake.comment
                     (fun s => s) s in
  value_of out = None
  /\ exists resp quoted,
      last (Attempts.retrievals (trace_of out)) ("", Some noValidCat) = (resp, None)
      /\ Attempts.comments (trace_of out)
         = [(Fake.quoteReply "/meow" "https://github.example/5#c1" quoted resp, None)].
Proof.
  intros s out.
  assert (V : value_of out = None) by reflexivity.
  split; [exact V|].
  exact (@handle_nil_means_posted _ Fake.flaky Fake.github Fake.quoteReply
           false "" Fake.comment (fun s => s) s V).
Defined.

(** X13: no error of a run of [handle] is dropped: the errors logged as
    [Failed to get cat img] are the errors of the failed retriever calls,
    in their order, and an error of creating the comment is returned by
    [handle] or logged as [Failed to leave comment]. *)
Theorem handle_reports_errors {St : Type} {C : clowder St} {P : scmProviderClient St}
        (F : string -> string -> string -> string -> string)
        (movieCat : bool) (category : string) (e : GenericCommentEvent)
        (setKey : St -> St) (s : St) :
  let out := handle F movieCat category e setKey s in
  HandleTrace.logged "Failed to get cat img" (trace_of out)
  = HandleTrace.errors (Attempts.retrievals (trace_of out))
  /\ forall body err,
      In (body, Some err) (Attempts.comments (trace_of out)) ->
      value_of out = Some err
      \/ HandleTrace.logged "Failed to leave comment" (trace_of out) = [err].
Proof.
  intro out. subst out.
  destruct (ShapeFacts.handle_shape F movieCat category e setKey s)
    as [(j & resp & quoted & perr & _ & _ & V & ->)|(quoted & perr & _ & V & ->)];
    change (Attempts.retrievals (CallSetKey :: ?l)) with (Attempts.retrievals l);
    change (Attempts.comments (CallSetKey :: ?l)) with (Attempts.comments l);
    change (HandleTrace.logged ?m (CallSetKey :: ?l)) with (HandleTrace.logged m l);
    rewrite HandleFacts.retrievals_app, HandleFacts.comments_app,
      HandleFacts.retrievals_loop, HandleFacts.comments_loop, !ShapeFacts.logged_app,
      ShapeFacts.logged_loop, ShapeFacts.not_logged_loop, ShapeFacts.errors_app.
  - split; [reflexivity|]. intros body err [I|[]]. injection I as _ <-. now left.
  - split; [destruct perr; reflexivity|].
    intros body err I. right.
    destruct perr as [err'|]; simpl in I; destruct I as [I|[]];
      [injection I as _ <-; reflexivity | discriminate].
Qed.

Lemma handle_reports_errors_witness :
  let s := {| Fake.failing := 3; Fake.posted := [];
              Fake.posting := Some "502 Bad Gateway" |} in
  let out := @handle _ Fake.flaky Fake.github Fake.quoteReply false "boxes" Fake.comment
                     (fun s => s) s in
  HandleTrace.logged "Failed to get cat img" (trace_of out)
  = ["no cats in response"; "no cats in response"; "no cats in response"]
  /\ HandleTrace.logged "Failed to leave comment" (trace_of out) = ["502 Bad Gateway"]
  /\ (value_of out = Some "502 Bad Gateway"
      \/ HandleTrace.logged "Failed to leave comment" (trace_of out) = ["502 Bad Gateway"]).
Proof.
  intros s out.
  split; [reflexivity|]. split; [reflexivity|].
  refine (proj2 (@handle_reports_errors _ Fake.flaky Fake.github Fake.quoteReply
                   false "boxes" Fake.comment (fun s => s) s)
                (Fake.quoteReply "/meow" "https://github.example/5#c1" "@alice"
                                 badCategory)
                "502 Bad Gateway" _).
  left. reflexivity.
Defined.

(** ** The handler over the real retriever *)

Module SystemFacts.
Import Attempts HandleFacts HandleRuns RetryFacts ShapeFacts HandleTrace Retrieval.

Section Generic.
Context {St : Type} {C : clowder St} {P : scmProviderClient St}.
Variable F : string -> string -> string -> string -> string.
Variables (movieCat : bool) (category : string) (e : GenericCommentEvent).
Variable setKey : St -> St.

(** A quantity of the state that no collaborator changes is the same
    after a run of [handle]. *)
Lemma handle_preserves {A : Type} (g : St -> A) (s : St) :
  g (setKey s) = g s ->
  (forall x, g (snd (readCat category movieCat x)) = g x) ->
  (forall owner repo number pr comment x,
      g (snd (CreateComment owner repo number pr comment x)) = g x) ->
  (forall login x, g (snd (QuoteAuthorForComment login x)) = g x) ->
  g (state_of (handle F movieCat category e setKey s)) = g s.
Proof.
  intros GS GR GC GQ.
  assert (GN : forall n x, g (snd (calls n category movieCat x)) = g x).
  { induction n as [|n IH]; intro x; [reflexivity|]. cbn [calls].
    specialize (GR x). destruct (readCat category movieCat x) as [r x1].
    specialize (IH x1). destruct (calls n category movieCat x1) as [rs x2].
    cbn [snd] in *. congruence. }
  destruct (calls_split movieCat category 3 (setKey s))
    as [AF|(j & resp & s2 & J & AF & R)].
  - destruct (QuoteAuthorForComment
                (Login e) (snd (calls 3 category movieCat (setKey s))))
      as [quoted s3] eqn:Q.
    destruct (CreateComment (Namespace e) (Name e) (Number e) (IsPR e)
                (F (Body e) (Link e) quoted (fallback category)) s3)
      as [perr s4] eqn:K.
    rewrite (handle_exhausted F movieCat category e setKey s AF Q K).
    unfold state_of. cbn [fst snd].
    pose proof (GC (Namespace e) (Name e) (Number e) (IsPR e)
                   (F (Body e) (Link e) quoted (fallback category)) s3) as G4.
    pose proof (GQ (Login e) (snd (calls 3 category movieCat (setKey s)))) as G3.
    rewrite K in G4. rewrite Q in G3. cbn [snd] in *.
    rewrite G4, G3, GN. exact GS.
  - destruct (QuoteAuthorForComment (Login e) s2) as [quoted s3] eqn:Q.
    destruct (CreateComment (Namespace e) (Name e) (Number e) (IsPR e)
                (F (Body e) (Link e) quoted resp) s3) as [perr s4] eqn:K.
    rewrite (handle_success F movieCat category e setKey s J AF R Q K).
    unfold state_of. cbn [fst snd].
    pose proof (GC (Namespace e) (Name e) (Number e) (IsPR e)
                   (F (Body e) (Link e) quoted resp) s3) as G4.
    pose proof (GQ (Login e) s2) as G3.
    pose proof (GR (snd (calls j category movieCat (setKey s)))) as G2.
    rewrite K in G4. rewrite Q in G3. rewrite R in G2. cbn [snd] in *.
    rewrite G4, G3, G2, GN. exact GS.
Qed.

(** The first retriever call of a run is made in the state the refresh
    callback leaves. *)
Lemma first_retrieval (s : St) :
  nth_error (retrievals (trace_of (handle F movieCat category e setKey s))) 0
  = Some (fst (readCat category movieCat (setKey s))).
Proof.
  rewrite handle_unfold.
  destruct (readCat category movieCat (setKey s)) as [[resp [err|]] s1] eqn:R.
  - rewrite (attempts_step_fail F movieCat category e 2 (setKey s) R).
    destruct (attempts F 2 movieCat category e s1) as [[[x|] s2] t]; [reflexivity|].
    now destruct (respond F e (fallback category) s2) as [[y s3] t'].
  - rewrite (attempts_step_success F movieCat category e 2 (setKey s) R).
    now destruct (respond F e resp s1) as [[x s2] t].
Qed.

End Generic.

Section Real.
Context {W : Type} `{Env W}.

Lemma httpGets_app (a b : list io_event) :
  httpGets (a ++ b) = httpGets a + httpGets b.
Proof. unfold httpGets. now rewrite filter_app, length_app. Qed.

(** A refresh sends no HTTP GET. *)
Lemma setKey_no_get (c : realClowder) (keyPath : string) (w : W) :
  httpGets (trace_of (RealClowder.setKey c keyPath w)) = 0.
Proof.
  destruct (time_Now w) as [t1 w1] eqn:N1.
  destruct (After t1 (update c)) eqn:A.
  - destruct (time_Now w1) as [t2 w2] eqn:N2.
    destruct (os_ReadFile keyPath w2) as [r w3] eqn:R.
    rewrite (RefreshFacts.setKey_due c keyPath _ N1 A N2 R).
    destruct (keyPath =? ""); [reflexivity|]. now destruct r.
  - now rewrite (RefreshFacts.setKey_limited c keyPath _ N1 A).
Qed.

Lemma meowSetKey_gets (keyPath : string) (s : Sys W) :
  httpGets (io (meowSetKey keyPath s)) = httpGets (io s).
Proof.
  unfold meowSetKey. pose proof (setKey_no_get (cat s) keyPath (world s)) as G.
  destruct (RealClowder.setKey (cat s) keyPath (world s)) as [[c w] t].
  cbn [io trace_of snd] in *. rewrite httpGets_app, G. lia.
Qed.

Lemma keyword_retrieval_gets (category : string) (movieCat : bool) (s : Sys W) :
  MatchString grumpyKeywords category = true ->
  httpGets (io (snd (readCat category movieCat s))) = httpGets (io s).
Proof.
  intro G. cbn [readCat realClowder_clowder].
  destruct (OverrideFacts.grumpy_run (cat s) category movieCat (world s) G)
    as (_ & N & _).
  destruct (RealClowder.readCat (cat s) category movieCat (world s)) as [[r w] t].
  cbn [io trace_of snd] in *. rewrite httpGets_app, N. lia.
Qed.

End Real.
End SystemFacts.

(** X14: on a category with a line that reads [no] or [grumpy], in any
    case, followed by whitespace only, a whole run of the command, with its
    refresh and its retries, sends no HTTP GET to the image API, for any
    code host client that leaves the record of the retriever's calls
    alone. *)
Theorem keyword_never_calls_api {W : Type} `{Env W} (P : scmProviderClient (Sys W))
        (F : string -> string -> string -> string -> string)
        (name arg keyPath l : string) (e : GenericCommentEvent) (s : Sys W) :
  HandleTrace.detached P ->
  In l (Grumpy.lines arg) ->
  Grumpy.keyword_line l ->
  Retrieval.httpGets (io (state_of (handleGenericComment F name arg keyPath e s)))
  = Retrieval.httpGets (io s).
Proof.
  intros [DC DQ] I K.
  pose proof (GrumpyFacts.keyword_line_matches arg I K) as G.
  unfold handleGenericComment.
  apply (SystemFacts.handle_preserves F (name =? "meowvie") arg e (meowSetKey keyPath)
           (fun x => Retrieval.httpGets (io x)) s).
  - apply SystemFacts.meowSetKey_gets.
  - intro x. now apply SystemFacts.keyword_retrieval_gets.
  - intros owner repo number pr comment x.
    now rewrite (proj2 (DC owner repo number pr comment x)).
  - intros login x. now rewrite (proj2 (DQ login x)).
Qed.

Lemma keyword_never_calls_api_witness :
  let E := Fake.decoding Fake.catURL in
  let out := @handleGenericComment _ E Fake.silent Fake.quoteReply
                                   "meow" "Grumpy" Fake.keyFile Fake.comment
                                   {| cat := meow; world := Fake.unplugged; io := [] |} in
  HandleTrace.detached Fake.silent
  /\ In "Grumpy" (Grumpy.lines "Grumpy")
  /\ Grumpy.keyword_line "Grumpy"
  /\ List.length (Attempts.retrievals (trace_of out)) = 3
  /\ Retrieval.httpGets (io (state_of out)) = 0.
Proof.
  intros E out.
  assert (D : HandleTrace.detached Fake.silent) by (split; intros; split; reflexivity).
  assert (I : In "Grumpy" (Grumpy.lines "Grumpy")) by (vm_compute; auto).
  assert (K : Grumpy.keyword_line "Grumpy").
  { exists "Grumpy", "". repeat split. right. reflexivity. }
  split; [exact D|]. split; [exact I|]. split; [exact K|]. split; [reflexivity|].
  exact (@keyword_never_calls_api _ E Fake.silent Fake.quoteReply
           "meow" "Grumpy" Fake.keyFile "Grumpy" Fake.comment
           {| cat := meow; world := Fake.unplugged; io := [] |} D I K).
Defined.

(** X15: the key a command refreshes is the key its own request carries:
    when the refresh of a command reads the key file, the first retriever
    call of that command runs with the trimmed content of the file as its
    key, and on a category that does not match the pattern its HTTP GET
    goes to the base endpoint followed by the category, that key and the
    format parameter. *)
Theorem fresh_key_in_request {W : Type} `{Env W} (P : scmProviderClient (Sys W))
        (F : string -> string -> string -> string -> string)
        (name arg keyPath b : string) (e : GenericCommentEvent) (s : Sys W)
        (w1 w2 w3 : W) (t1 t2 : Z) :
  time_Now (world s) = (t1, w1) ->
  After t1 (update (cat s)) = true ->
  time_Now w1 = (t2, w2) ->
  keyPath <> "" ->
  os_ReadFile keyPath w2 = (Ok b, w3) ->
  MatchString grumpyKeywords arg = false ->
  let movieCat := name =? "meowvie" in
  let k := GoTrim.TrimSpace b in
  let uri := url (cat s)
             ++ param (negb (arg =? "")) ("&category=" ++ URLEscape.QueryEscape arg)
             ++ param (negb (k =? "")) ("&api_key=" ++ URLEscape.QueryEscape k)
             ++ param movieCat "&mime_types=gif" in
  let c1 := with_key (with_update (cat s) (t2 + Minute)) k in
  let out := handleGenericComment F name arg keyPath e s in
  nth_error (Attempts.retrievals (trace_of out)) 0
  = Some (value_of (RealClowder.readCat c1 arg movieCat w3))
  /\ exists r rest,
      trace_of (RealClowder.readCat c1 arg movieCat w3) = IoHTTPGet uri r :: rest.
Proof.
  intros N1 A N2 NE R G movieCat k uri c1 out. split.
  - unfold out, handleGenericComment. fold movieCat.
    rewrite SystemFacts.first_retrieval. f_equal.
    unfold meowSetKey. rewrite (RefreshFacts.setKey_due (cat s) keyPath _ N1 A N2 R).
    destruct (String.eqb_spec keyPath ""); [contradiction|].
    cbn [readCat realClowder_clowder cat world]. fold k c1.
    now destruct (RealClowder.readCat c1 arg movieCat w3) as [[r w] t].
  - assert (U : RealClowder.URL c1 arg movieCat = uri).
    { rewrite EscapedFacts.URL_parts. reflexivity. }
    destruct (http_Get (RealClowder.URL c1 arg movieCat) w3) as [resp w4] eqn:Q.
    rewrite (RetrievalFacts.readCat_api c1 arg movieCat w3 G Q). cbv zeta.
    rewrite U. exists resp.
    destruct resp as [resp|err]; [|eexists; reflexivity].
    destruct ((299 <? http.StatusCode resp) || (http.StatusCode resp <? 200))%Z;
      [eexists; reflexivity|].
    destruct (json_Decode (http.Body resp)) as [[|a rest]|err];
      try (eexists; reflexivity).
    destruct (RealClowder.checkCat uri a w4) as [[x w5] t].
    eexists. reflexivity.
Qed.

Lemma fresh_key_in_request_witness :
  let E := Fake.decoding Fake.catURL in
  let s := {| cat := meow; world := Fake.keyed [5; 6]%Z; io := [] |} in
  let out := @handleGenericComment _ E Fake.silent Fake.quoteReply
                                   "meowvie" "boxes" Fake.keyFile Fake.comment s in
  After 5 (update meow) = true
  /\ Fake.keyFile <> ""
  /\ MatchString grumpyKeywords "boxes" = false
  /\ exists r rest,
      trace_of (@RealClowder.readCat _ E
                  (with_key (with_update meow (6 + Minute)) "s3cr3t") "boxes" true
                  (Fake.keyed []))
      = IoHTTPGet (url meow ++ "&category=boxes&api_key=s3cr3t&mime_types=gif") r
          :: rest.
Proof.
  intros E s out.
  assert (NE : Fake.keyFile <> "") by discriminate.
  split; [reflexivity|]. split; [exact NE|]. split; [reflexivity|].
  exact (proj2 (@fresh_key_in_request _ E Fake.silent Fake.quoteReply
                  "meowvie" "boxes" Fake.keyFile
                  ("  s3cr3t " ++ String Regexp.LF EmptyString) Fake.comment s
                  (Fake.keyed [6]%Z) (Fake.keyed []) (Fake.keyed []) 5%Z 6%Z
                  eq_refl eq_refl eq_refl NE eq_refl eq_refl)).
Defined.
